(** * SM-LCG: Monte-Carlo demand simulation driven by a linear congruential generator

    A shallow embedding of [sm_lcg.py].  Python integers are [Z], Python
    floats are the kernel's binary64 numbers ([PrimFloat.float]), Python
    lists are [list]; an operation that can raise returns a [result].  The
    Streamlit calls that only draw something are recorded as a trace of
    events, in the order in which the script issues them. *)

From Stdlib Require Import ZArith List Lia Bool Floats Zpower.
Import ListNotations.

Set Warnings "-inexact-float".

Local Open Scope Z_scope.

(** ** Python values and builtins the script relies on *)

Module Py.

(** The exceptions that the operations used by the script can raise. *)
Inductive exn : Type :=
| ZeroDivisionError
| IndexError
| OverflowError
| ValueError.

Inductive result (A : Type) : Type :=
| Ok (v : A)
| Raise (e : exn).
Arguments Ok {A} v.
Arguments Raise {A} e.

Definition bind {A B : Type} (r : result A) (k : A -> result B) : result B :=
  match r with
  | Ok v => k v
  | Raise e => Raise e
  end.

Definition is_ok {A : Type} (r : result A) : bool :=
  match r with Ok _ => true | Raise _ => false end.

(** [x % y] on integers: floor modulo, [ZeroDivisionError] when [y = 0].
    [Z.modulo] takes the sign of the divisor, as Python does. *)
Definition int_mod (x y : Z) : result Z :=
  if y =? 0 then Raise ZeroDivisionError else Ok (x mod y).

(** [l[i]]: a negative index counts from the end, an index out of range
    raises [IndexError]. *)
Definition getitem {A : Type} (l : list A) (i : Z) : result A :=
  let j := if i <? 0 then i + Z.of_nat (length l) else i in
  if j <? 0 then Raise IndexError
  else match nth_error l (Z.to_nat j) with
       | Some v => Ok v
       | None => Raise IndexError
       end.

(** [l[:k]] for [k >= 0]. *)
Definition slice_to {A : Type} (l : list A) (k : nat) : list A := firstn k l.

(** [sum] of a list of integers. *)
Definition int_sum (l : list Z) : Z := fold_left Z.add l 0.

(** A list comprehension whose element expression can raise: elements
    are evaluated from left to right and the first exception ends it. *)
Fixpoint mapM {A B : Type} (f : A -> result B) (l : list A)
  : result (list B) :=
  match l with
  | [] => Ok []
  | x :: l' =>
      match f x with
      | Raise e => Raise e
      | Ok y => match mapM f l' with
                | Raise e => Raise e
                | Ok ys => Ok (y :: ys)
                end
      end
  end.

(** *** Floats

    A Python float is a binary64 number.  An integer of any size is read
    as the (unrounded) value [m * 2^0]; the quotient and rounding
    algorithm that specifies binary64 division, [SFdiv], accepts such a
    mantissa and returns the binary64 number nearest to the exact
    quotient, ties to even. *)

Definition Z2SF (z : Z) : spec_float :=
  match z with
  | Z0 => S754_zero false
  | Zpos p => S754_finite false p 0
  | Zneg p => S754_finite true p 0
  end.

(** [x / y] on integers (true division): the correctly rounded quotient,
    [ZeroDivisionError] for [y = 0], [OverflowError] when the quotient
    is too large for a float. *)
Definition int_truediv (x y : Z) : result float :=
  if y =? 0 then Raise ZeroDivisionError
  else match SFdiv prec emax (Z2SF x) (Z2SF y) with
       | S754_infinity _ => Raise OverflowError
       | q => Ok (SF2Prim q)
       end.

(** [x / y] on floats: [ZeroDivisionError] for a zero divisor of either
    sign, the IEEE quotient otherwise. *)
Definition float_truediv (x y : float) : result float :=
  if PrimFloat.eqb y zero then Raise ZeroDivisionError
  else Ok (PrimFloat.div x y).

(** [n / d] rounded to the nearest integer, a tie going to the even one
    ([0 <= n], [0 < d]). *)
Definition div_half_even (n d : Z) : Z :=
  let q := n / d in
  match 2 * (n mod d) ?= d with
  | Lt => q
  | Eq => if Z.even q then q else q + 1
  | Gt => q + 1
  end.

(** The magnitude [k] with the sign of the float it was rounded from;
    a zero keeps that sign. *)
Definition signed_SF (s : bool) (k : Z) : spec_float :=
  match k with
  | Z0 => S754_zero s
  | Zpos p => S754_finite s p 0
  | Zneg _ => S754_nan
  end.

(** [round(x, ndigits)] on a float, for [0 <= ndigits] (and at most 323,
    beyond which CPython returns [x]): the exact binary value of [x] is
    rounded to [ndigits] decimal places, ties to even, and the float
    nearest to that decimal is returned; zeros, infinities and NaN are
    returned unchanged. *)
Definition float_round (x : float) (ndigits : nat) : float :=
  match Prim2SF x with
  | S754_finite s m e =>
      let p := 10 ^ Z.of_nat ndigits in
      let k := if 0 <=? e then Zpos m * 2 ^ e * p
               else div_half_even (Zpos m * p) (2 ^ (- e)) in
      SF2Prim (SFdiv prec emax (signed_SF s k) (Z2SF p))
  | _ => x
  end.

(** [sum] of a list of floats as CPython computes it up to version 3.11:
    the start value is the integer 0 and the items are added from left
    to right. *)
Definition float_sum_plain (l : list float) : float :=
  fold_left PrimFloat.add l zero.

(** From CPython 3.12 on, [sum] carries Neumaier's compensation term
    [comp] along the running total [total] and adds it at the end. *)
Fixpoint neumaier (l : list float) (total comp : float) : float :=
  match l with
  | [] =>
      if PrimFloat.eqb comp zero then total
      else if is_nan comp || is_infinity comp then total
      else PrimFloat.add total comp
  | x :: l' =>
      let t := PrimFloat.add total x in
      let comp' :=
        if PrimFloat.leb (abs x) (abs total)
        then PrimFloat.add comp (PrimFloat.add (PrimFloat.sub total t) x)
        else PrimFloat.add comp (PrimFloat.add (PrimFloat.sub x t) total) in
      neumaier l' t comp'
  end.

Definition float_sum_compensated (l : list float) : float :=
  match l with
  | [] => zero
  | x :: l' => neumaier l' (PrimFloat.add zero x) zero
  end.

End Py.

Export Py.

Declare Scope py_scope.
Delimit Scope py_scope with py.
Notation "x <- e ;; k" := (bind e (fun x => k))
  (at level 61, e at next level, right associativity) : py_scope.
Notation "e ;;; k" := (bind e (fun _ => k))
  (at level 61, right associativity) : py_scope.
Local Open Scope py_scope.

(** ** The LCG sequence generator *)

(** The body of [for _ in range(n)]: [k] iterations are left, [X] is the
    state and [numbers] the list built so far. *)
Fixpoint lcg_loop (a c m : Z) (k : nat) (X : Z) (numbers : list Z)
  : result (list Z) :=
  match k with
  | O => Ok numbers
  | S k' =>
      X' <- int_mod (a * X + c) m ;;
      lcg_loop a c m k' X' (numbers ++ [X'])
  end.

(** [generate_lcg(seed, a, c, m, n)]; [range(n)] is empty for [n <= 0]. *)
Definition generate_lcg (seed a c m n : Z) : result (list Z) :=
  lcg_loop a c m (Z.to_nat n) seed [].

(** The recurrence in the words of the specification:
    [X 0 = seed], [X k = (a * X (k-1) + c) mod m]. *)
Fixpoint lcg_X (seed a c m : Z) (k : nat) : Z :=
  match k with
  | O => seed
  | S k' => (a * lcg_X seed a c m k' + c) mod m
  end.

(** [X 1, ..., X n] *)
Definition lcg_outputs (seed a c m : Z) (n : nat) : list Z :=
  map (fun k => lcg_X seed a c m (S k)) (seq 0 n).

(** ** The demand mapper *)

Section MapToDemand.

(** [map_to_demand] only compares [u] with the thresholds and indexes the
    demand list, so it is written once for any type [T] of numbers with
    its comparison [le] (the script calls it on floats) and any type [D]
    of demand values. *)
Context {T D : Type}.
Variable le : T -> T -> bool.

(** [for i, cp in enumerate(cum_probs)]: [i] is the index of the head of
    the thresholds still to be scanned. *)
Fixpoint map_scan (u : T) (demands : list D) (i : nat) (rest : list T)
  : result D :=
  match rest with
  | [] => getitem demands (-1)
  | cp :: rest' =>
      if le u cp then getitem demands (Z.of_nat i)
      else map_scan u demands (S i) rest'
  end.

Definition map_to_demand (u : T) (demands : list D) (cum_probs : list T)
  : result D :=
  map_scan u demands 0 cum_probs.

(** [i] is the first index whose threshold is at least [u]. *)
Definition first_index (u : T) (cum_probs : list T) (i : nat) : Prop :=
  (exists cp, nth_error cum_probs i = Some cp /\ le u cp = true) /\
  (forall j cp, (j < i)%nat -> nth_error cum_probs j = Some cp ->
                le u cp = false).

(** No threshold is at least [u]. *)
Definition no_index (u : T) (cum_probs : list T) : Prop :=
  forall j cp, nth_error cum_probs j = Some cp -> le u cp = false.

End MapToDemand.

(** ** The script *)

(** What the script shows, in the order in which it shows it. *)
Inductive event : Type :=
| EvError
    (* st.error: probabilities cannot all be zero *)
| EvWarning (prob_sum : float)
    (* st.warning: probabilities sum to prob_sum, normalizing *)
| EvCumTable (demand : list Z) (probability cumulative : list float)
| EvResults (day X : list Z) (U : list float) (demand : list Z)
| EvAvg6 (avg_6 : float)
| EvAvgN (avg_n : float)
| EvDay5 (demand : Z)
| EvChart (day demand : list Z).

(** A block of the script: it extends the trace of what has been shown and
    either yields a value or raises; what was shown before an exception
    stays shown. *)
Definition script (A : Type) : Type := list event -> list event * result A.

Definition ret {A : Type} (v : A) : script A := fun tr => (tr, Ok v).

Definition lift {A : Type} (r : result A) : script A := fun tr => (tr, r).

Definition show (e : event) : script unit := fun tr => (tr ++ [e], Ok tt).

Definition sbind {A B : Type} (s : script A) (k : A -> script B) : script B :=
  fun tr =>
    match s tr with
    | (tr', Ok v) => k v tr'
    | (tr', Raise e) => (tr', Raise e)
    end.

Declare Scope script_scope.
Delimit Scope script_scope with script.
Notation "x <~ e ;; k" := (sbind e (fun x => k))
  (at level 61, e at next level, right associativity) : script_scope.
Notation "e ;;; k" := (sbind e (fun _ => k))
  (at level 61, right associativity) : script_scope.

(** [pd.DataFrame] of a dict of columns refuses columns of different
    lengths. *)
Definition data_frame (lengths : list nat) : result unit :=
  match lengths with
  | [] => Ok tt
  | n :: rest => if forallb (Nat.eqb n) rest then Ok tt else Raise ValueError
  end.

(** [range(lo, hi)] *)
Definition range (lo hi : Z) : list Z :=
  map (fun k => lo + Z.of_nat k) (seq 0 (Z.to_nat (hi - lo))).

(** The module-level variables once the script has run. *)
Module Globals.
Record t : Type := {
  probabilities : list float;
  cum_probs : list float;
  X_values : list Z;
  U_values : list float;
  demands_generated : list Z
}.
End Globals.

(** The loop that fills [cum_probs]; [cum_sum] starts as the integer 0 and
    is a float from the first addition on. *)
Fixpoint cum_loop (ps : list float) (cum_probs : list float) (cum_sum : float)
  : list float * float :=
  match ps with
  | [] => (cum_probs, cum_sum)
  | p :: ps' =>
      let cum_sum' := PrimFloat.add cum_sum p in
      cum_loop ps' (cum_probs ++ [float_round cum_sum' 4]) cum_sum'
  end.

Definition build_cum_probs (probabilities : list float) : list float :=
  fst (cum_loop probabilities [] zero).

(** The running sum of the specification: the elements added up in order. *)
Definition running_sum (ps : list float) : float :=
  fold_left PrimFloat.add ps zero.

(** The statistics at the end of the script. *)
Definition statistics (n_days : Z) (demands_generated : list Z) : script unit :=
  ((if 6 <=? n_days
    then avg_6 <~ lift (int_truediv (int_sum (slice_to demands_generated 6)) 6) ;;
         show (EvAvg6 avg_6)
    else ret tt) ;;;
   avg_n <~ lift (int_truediv (int_sum demands_generated) n_days) ;;
   show (EvAvgN avg_n) ;;;
   if 5 <=? n_days
   then d <~ lift (getitem demands_generated 4) ;; show (EvDay5 d)
   else ret tt)%script.

(** Lines 62 to 132: the script after the normalization block, run on the
    probabilities that block leaves behind. *)
Definition simulate (a c m X0 n_days : Z) (demand_values : list Z)
    (probabilities : list float) : script Globals.t :=
  (let cum_probs := build_cum_probs probabilities in
   lift (data_frame [length demand_values; length probabilities;
                     length cum_probs]) ;;;
   show (EvCumTable demand_values probabilities cum_probs) ;;;
   X_values <~ lift (generate_lcg X0 a c m n_days) ;;
   U_values <~ lift (mapM (fun x => int_truediv x m) X_values) ;;
   demands_generated <~
     lift (mapM (fun u => map_to_demand PrimFloat.leb u demand_values
                            cum_probs) U_values) ;;
   let day := range 1 (n_days + 1) in
   lift (data_frame [length day; length X_values; length U_values;
                     length demands_generated]) ;;;
   show (EvResults day X_values (map (fun u => float_round u 4) U_values)
           demands_generated) ;;;
   statistics n_days demands_generated ;;;
   show (EvChart day demands_generated) ;;;
   ret {| Globals.probabilities := probabilities;
          Globals.cum_probs := cum_probs;
          Globals.X_values := X_values;
          Globals.U_values := U_values;
          Globals.demands_generated := demands_generated |})%script.

Section Script.

(** The builtin [sum] on a list of floats; its rounding depends on the
    version of the interpreter ([float_sum_plain],
    [float_sum_compensated]), so the script is kept independent of it. *)
Variable float_sum : list float -> float.

(** Lines 54 to 60: the probabilities after the normalization block. *)
Definition normalize (probabilities : list float) : script (list float) :=
  (let prob_sum := float_sum probabilities in
   if PrimFloat.eqb prob_sum zero
   then show EvError ;;; ret probabilities
   else if PrimFloat.ltb 1e-6 (abs (PrimFloat.sub prob_sum 1))
        then show (EvWarning prob_sum) ;;;
             lift (mapM (fun p => float_truediv p prob_sum) probabilities)
        else ret probabilities)%script.

(** The whole script from the normalization on, as a function of what
    the widgets deliver. *)
Definition run (a c m X0 n_days : Z) (demand_values : list Z)
    (probabilities : list float) : script Globals.t :=
  (probabilities <~ normalize probabilities ;;
   simulate a c m X0 n_days demand_values probabilities)%script.

End Script.

(** The defaults of the widgets. *)
Definition default_demands_all : list Z := [0; 10; 20; 30; 40; 50].
Definition default_probs_all : list float :=
  [0.01; 0.20; 0.15; 0.50; 0.12; 0.02]%float.

(** [l * k] on a list: [k] copies of [l] in a row, none for [k <= 0]. *)
Definition list_mul {A : Type} (l : list A) (k : Z) : list A :=
  concat (repeat l (Z.to_nat k)).

(** [l[:k]] for an integer [k]; a negative [k] counts from the end. *)
Definition slice_to_int {A : Type} (l : list A) (k : Z) : list A :=
  if k <? 0 then firstn (Z.to_nat (Z.of_nat (length l) + k)) l
  else firstn (Z.to_nat k) l.

(** Lines 38 and 39: the defaults, padded and cut to [num_demands]. *)
Definition default_demands (num_demands : Z) : list Z :=
  slice_to_int (default_demands_all ++ list_mul [0] 10) num_demands.

Definition default_probs (num_demands : Z) : result (list float) :=
  q <- int_truediv 1 num_demands ;;
  Ok (slice_to_int (default_probs_all ++ list_mul [float_round q 2] 10)
        num_demands).

(** The [value=] arguments of the input widgets of lines 44 and 49:
    [defaults[i] for i in range(num_demands)]. *)
Definition widget_values {A : Type} (defaults : list A) (num_demands : Z)
  : result (list A) :=
  mapM (getitem defaults) (range 0 num_demands).

(** A list whose large entries cancel, and a list of non-negative entries
    whose sum overflows. *)
Definition cancelling_probabilities : list float :=
  [3e16; -1e16; -1e16; -1e16; 0.3]%float.

Definition overflowing_probabilities : list float := [1e308; 1e308]%float.

(** ** Values of binary64 numbers

    What is proved about floats goes through their specification
    ([Prim2SF] and the [SF] functions of the standard library).  The
    definitions below name the quantities of that specification. *)

Local Abbreviation fexp := (SpecFloat.fexp prec emax).

(** [m * 2^e] is in canonical form: [e] is the exponent the format gives
    to a number with the digits of [m]. *)
Definition canonical (m e : Z) : Prop := fexp (Zdigits2 m + e) = e.

(** What [binary_round_aux] returns when the rounded mantissa, at the
    exponent [e1], is [m2]: a zero, a valid finite number of that value,
    or an infinity when the value is [2^1024] or more. *)
Inductive rounds_to (s : bool) (e1 m2 : Z) : spec_float -> Prop :=
| rounds_zero : m2 = 0 -> rounds_to s e1 m2 (S754_zero s)
| rounds_finite (m3 : positive) (e3 : Z) :
    bounded prec emax m3 e3 = true ->
    e1 <= e3 ->
    Zpos m3 * 2 ^ (e3 - e1) = m2 ->
    rounds_to s e1 m2 (S754_finite s m3 e3)
| rounds_infinity :
    2 ^ (1024 - e1) <= m2 -> rounds_to s e1 m2 (S754_infinity s).

(** The value [m * 2^e] in units of [2^-1074], the smallest positive
    binary64 number: an integer for every [e >= -1074]. *)
Definition scaled (m e : Z) : Z := m * 2 ^ (e + 1074).

(** A number above every scaled finite value stands for the infinities. *)
Definition huge : Z := 2 ^ 2200.

(** The scaled value of a number. *)
Definition BV (x : spec_float) : Z :=
  match x with
  | S754_zero _ => 0
  | S754_finite s m e => if s then - scaled (Zpos m) e else scaled (Zpos m) e
  | S754_infinity s => if s then - huge else huge
  | S754_nan => 0
  end.

Definition not_nan (x : spec_float) : Prop := x <> S754_nan.

Definition nonneg (x : spec_float) : Prop :=
  match x with
  | S754_zero _ | S754_finite false _ _ | S754_infinity false => True
  | _ => False
  end.

(** A zero of either sign. *)
Definition is_zero (x : float) : Prop :=
  exists s, Prim2SF x = S754_zero s.

(** The same on floats. *)
Definition fnonneg (x : float) : Prop := nonneg (Prim2SF x).

Definition FV (x : float) : Z := BV (Prim2SF x).

(** The exact sum of a list of finite floats, in units of [2^-1074]. *)
Definition exact_total (l : list float) : Z := fold_right Z.add 0 (map FV l).

(** Neither an infinity nor NaN. *)
Definition SFfinite (x : spec_float) : Prop :=
  match x with
  | S754_zero _ | S754_finite _ _ _ => True
  | _ => False
  end.

Definition ffinite (x : float) : Prop := SFfinite (Prim2SF x).

(** The largest finite value, [(2^53 - 1) * 2^971], in units of
    [2^-1074]. *)
Definition max_value : Z := 2 ^ 2098 - 2 ^ 2045.

(** The float 1.0. *)
Definition SFone : spec_float := S754_finite false 4503599627370496 (-52).

(** The quotient that [SFdiv] rounds, for two integers read as mantissas
    with exponent 0: [div_shift] extra binary digits are computed so that
    the quotient [div_quot] has at least 53 of them; [div_exp] is the
    exponent of the rounded quotient. *)
Definition div_shift (mx my : positive) : Z :=
  Z.max 0 (53 + Zdigits2 (Zpos my) - Zdigits2 (Zpos mx)).

Definition div_quot (mx my : positive) : Z :=
  Zpos mx * 2 ^ div_shift mx my / Zpos my.

Definition div_exp (mx my : positive) : Z :=
  fexp (Zdigits2 (div_quot mx my) - div_shift mx my).

(** The same for [SFdiv] on two floats: the exponent and the quotient that
    it computes before it rounds, for the mantissas [mx] and [my] with the
    exponents [ex] and [ey]. *)
Definition fdiv_exp (mx : positive) (ex : Z) (my : positive) (ey : Z) : Z :=
  Z.min (fexp (Zdigits2 (Zpos mx) + ex - (Zdigits2 (Zpos my) + ey))) (ex - ey).

Definition fdiv_quot (mx : positive) (ex : Z) (my : positive) (ey : Z) : Z :=
  Zpos mx * 2 ^ (ex - ey - fdiv_exp mx ex my ey) / Zpos my.

(** The mantissa that [binary_round] rounds, at the exponent [e1] of the
    result: exact when the value has no more digits than the format holds,
    truncated otherwise. *)
Definition at_exponent (m e e1 : Z) : Z :=
  if e1 <=? e then m * 2 ^ (e - e1) else m / 2 ^ (e1 - e).

(** The number of ten-thousandths nearest to a scaled value, and the float
    nearest to [k] ten-thousandths, as [float_round] computes them. *)
Definition k4 (V : Z) : Z := div_half_even (V * 10000) (2 ^ 1074).

Definition rounded4 (k : Z) : spec_float :=
  SFdiv prec emax (signed_SF false k) (Z2SF 10000).

(** * Properties *)

(** ** The generator *)

Section LcgFacts.

Variables a c m : Z.

Lemma lcg_loop_zero_modulus k X numbers :
  m = 0 -> k <> O -> lcg_loop a c m k X numbers = Raise ZeroDivisionError.
Proof.
  intros -> Hk. destruct k as [|k]; [congruence|]. reflexivity.
Qed.

Lemma lcg_loop_step k X numbers :
  m <> 0 ->
  lcg_loop a c m (S k) X numbers =
  lcg_loop a c m k ((a * X + c) mod m) (numbers ++ [(a * X + c) mod m]).
Proof.
  intros Hm. cbn [lcg_loop]. unfold int_mod.
  destruct (Z.eqb_spec m 0) as [E|_]; [contradiction|]. reflexivity.
Qed.

(** Advancing the state by one step shifts the recurrence by one index. *)
Lemma lcg_X_shift X k :
  lcg_X ((a * X + c) mod m) a c m k = lcg_X X a c m (S k).
Proof.
  induction k as [|k IH]; [reflexivity|].
  cbn [lcg_X] in *. now rewrite IH.
Qed.

(** The loop appends to [numbers] the next [k] terms of the recurrence
    started at the current state. *)
Lemma lcg_loop_outputs k : forall X numbers,
  m <> 0 ->
  lcg_loop a c m k X numbers = Ok (numbers ++ lcg_outputs X a c m k).
Proof.
  induction k as [|k IH]; intros X numbers Hm.
  - cbn. now rewrite app_nil_r.
  - rewrite lcg_loop_step by assumption.
    rewrite IH by assumption. f_equal.
    rewrite <- app_assoc. f_equal.
    unfold lcg_outputs. cbn [seq map app]. f_equal.
    rewrite <- seq_shift, map_map.
    apply map_ext. intros j. apply lcg_X_shift.
Qed.

Lemma lcg_outputs_length seed n : length (lcg_outputs seed a c m n) = n.
Proof. unfold lcg_outputs. now rewrite length_map, length_seq. Qed.

Lemma lcg_outputs_nth seed n k :
  (k < n)%nat ->
  nth_error (lcg_outputs seed a c m n) k = Some (lcg_X seed a c m (S k)).
Proof.
  intros Hk. unfold lcg_outputs.
  rewrite nth_error_map, nth_error_seq.
  destruct (Nat.ltb_spec k n); [reflexivity|lia].
Qed.

Lemma lcg_X_range seed k :
  0 < m -> 0 <= lcg_X seed a c m (S k) < m.
Proof. intros Hm. cbn [lcg_X]. apply Z.mod_pos_bound. exact Hm. Qed.

End LcgFacts.

(** C1: for seed >= 0, multiplier >= 1, increment >= 0, modulus >= 2 and
    n >= 0, [generate_lcg] returns exactly the n values X[1..n] of the
    recurrence X[k] = (a * X[k-1] + c) mod m started at X[0] = seed: the
    k-th emitted element (counting from 0) is X[k+1], so the seed is not
    emitted and the first element is X[1]; and for seed 35, a = 13, c = 7,
    m = 100, n = 3 the result is [62; 13; 76]. *)
Theorem generate_lcg_recurrence (seed a c m n : Z) :
  0 <= seed -> 1 <= a -> 0 <= c -> 2 <= m -> 0 <= n ->
  exists numbers,
    generate_lcg seed a c m n = Ok numbers /\
    Z.of_nat (length numbers) = n /\
    (forall k, (k < Z.to_nat n)%nat ->
               nth_error numbers k = Some (lcg_X seed a c m (S k))) /\
    (n >= 1 -> nth_error numbers 0 = Some ((a * seed + c) mod m)) /\
    generate_lcg 35 13 7 100 3 = Ok [62; 13; 76].
Proof.
  intros _ _ _ Hm Hn.
  exists (lcg_outputs seed a c m (Z.to_nat n)).
  unfold generate_lcg.
  rewrite lcg_loop_outputs by lia. cbn [app].
  split; [reflexivity|].
  split; [rewrite lcg_outputs_length; lia|].
  split; [intros k Hk; now apply lcg_outputs_nth|].
  split; [|reflexivity].
  intros Hn1. rewrite lcg_outputs_nth by lia. reflexivity.
Qed.

Lemma generate_lcg_recurrence_witness :
  exists numbers,
    generate_lcg 35 13 7 100 3 = Ok numbers /\
    Z.of_nat (length numbers) = 3 /\
    (forall k, (k < Z.to_nat 3)%nat ->
               nth_error numbers k = Some (lcg_X 35 13 7 100 (S k))) /\
    (3 >= 1 -> nth_error numbers 0 = Some ((13 * 35 + 7) mod 100)) /\
    generate_lcg 35 13 7 100 3 = Ok [62; 13; 76].
Proof.
  apply (generate_lcg_recurrence 35 13 7 100 3); lia.
Defined.

(** [generate_lcg] validates nothing: a modulus below 2 or a count below 1
    is not rejected.  With modulus 1 and count 3 it returns three values,
    and with count 0 it returns the empty list. *)
Lemma generate_lcg_accepts_bad_params :
  generate_lcg 35 13 7 1 3 = Ok [0; 0; 0] /\
  generate_lcg 35 13 7 (-3) 2 = Ok [0; -2] /\
  generate_lcg 35 13 7 100 0 = Ok [].
Proof. split; [|split]; reflexivity. Qed.

(** C5 (amended): [generate_lcg] has no parameter check of its own and
    raises no parameter error.  A count below 1 gives the empty list
    whatever the modulus; with a count of at least 1, modulus 0 raises
    [ZeroDivisionError] and every other modulus (1 and the negative ones
    included) gives a list of exactly [n] values, all 0 for modulus 1. *)
Theorem generate_lcg_unvalidated (seed a c m n : Z) :
  (n < 1 -> generate_lcg seed a c m n = Ok []) /\
  (1 <= n -> m = 0 -> generate_lcg seed a c m n = Raise ZeroDivisionError) /\
  (1 <= n -> m <> 0 ->
   exists numbers, generate_lcg seed a c m n = Ok numbers /\
                   Z.of_nat (length numbers) = n) /\
  (1 <= n -> m = 1 ->
   generate_lcg seed a c m n = Ok (repeat 0 (Z.to_nat n))).
Proof.
  unfold generate_lcg. repeat split.
  - intros Hn. replace (Z.to_nat n) with O by lia. reflexivity.
  - intros Hn Hm. apply lcg_loop_zero_modulus; [assumption|lia].
  - intros Hn Hm. eexists. rewrite lcg_loop_outputs by assumption.
    split; [reflexivity|]. cbn [app]. rewrite lcg_outputs_length. lia.
  - intros Hn ->. rewrite lcg_loop_outputs by lia. cbn [app]. f_equal.
    unfold lcg_outputs. generalize (Z.to_nat n) as k. intros k.
    generalize 0%nat as s.
    induction k as [|k IH]; intros s; [reflexivity|].
    cbn [seq map repeat]. f_equal; [|apply IH].
    cbn [lcg_X]. apply Z.mod_1_r.
Qed.

(** ** The demand mapper *)

Section GetItem.

Context {A : Type}.

Lemma getitem_of_nat (l : list A) (i : nat) (d : A) :
  nth_error l i = Some d -> getitem l (Z.of_nat i) = Ok d.
Proof.
  intros H. unfold getitem.
  destruct (Z.ltb_spec (Z.of_nat i) 0) as [Hlt|_]; [lia|].
  destruct (Z.ltb_spec (Z.of_nat i) 0) as [Hlt|_]; [lia|].
  now rewrite Nat2Z.id, H.
Qed.

Lemma getitem_of_nat_out (l : list A) (i : nat) :
  (length l <= i)%nat -> getitem l (Z.of_nat i) = Raise IndexError.
Proof.
  intros H. unfold getitem.
  destruct (Z.ltb_spec (Z.of_nat i) 0) as [Hlt|_]; [lia|].
  destruct (Z.ltb_spec (Z.of_nat i) 0) as [Hlt|_]; [lia|].
  rewrite Nat2Z.id.
  now apply nth_error_None in H as ->.
Qed.

Lemma getitem_last (l : list A) (d0 : A) :
  l <> [] -> getitem l (-1) = Ok (last l d0).
Proof.
  intros Hne. unfold getitem. cbn [Z.ltb Z.compare].
  destruct (exists_last Hne) as (l' & x & ->).
  rewrite length_app, last_last. cbn [length].
  destruct (Z.ltb_spec (-1 + Z.of_nat (length l' + 1)) 0) as [Hlt|_]; [lia|].
  replace (Z.to_nat (-1 + Z.of_nat (length l' + 1))) with (length l') by lia.
  now rewrite nth_error_app2, Nat.sub_diag by lia.
Qed.

Lemma getitem_last_empty : getitem (@nil A) (-1) = Raise IndexError.
Proof. reflexivity. Qed.

Lemma getitem_In (l : list A) (i : Z) (d : A) :
  getitem l i = Ok d -> In d l.
Proof.
  unfold getitem.
  destruct (_ <? 0); [discriminate|].
  destruct (nth_error l _) as [v|] eqn:E; [|discriminate].
  intros [= <-]. eapply nth_error_In, E.
Qed.

End GetItem.

Section MapToDemandFacts.

Context {T D : Type}.
Variable le : T -> T -> bool.

(** The scan from position [i]: the thresholds before [i] have all been
    passed over. *)
Lemma map_scan_hit (u : T) (demands : list D) : forall rest i k cp,
  nth_error rest k = Some cp ->
  le u cp = true ->
  (forall j cp', (j < k)%nat -> nth_error rest j = Some cp' ->
                 le u cp' = false) ->
  map_scan le u demands i rest = getitem demands (Z.of_nat (i + k)).
Proof.
  induction rest as [|cp0 rest IH]; intros i k cp Hk Hle Hbefore.
  - destruct k; discriminate.
  - cbn [map_scan]. destruct k as [|k].
    + cbn in Hk. injection Hk as ->. rewrite Hle. now rewrite Nat.add_0_r.
    + rewrite (Hbefore 0%nat cp0) by (lia || reflexivity).
      rewrite (IH (S i) k cp Hk Hle).
      * f_equal. lia.
      * intros j cp' Hj Hnth. apply (Hbefore (S j) cp'); [lia|exact Hnth].
Qed.

Lemma map_scan_miss (u : T) (demands : list D) : forall rest i,
  no_index le u rest ->
  map_scan le u demands i rest = getitem demands (-1).
Proof.
  induction rest as [|cp0 rest IH]; intros i Hno; [reflexivity|].
  cbn [map_scan]. rewrite (Hno 0%nat cp0) by reflexivity.
  apply IH. intros j cp Hnth. apply (Hno (S j) cp). exact Hnth.
Qed.

(** Either some threshold is reached first, or none is. *)
Lemma first_index_or_none (u : T) : forall cum_probs,
  (exists i, first_index le u cum_probs i) \/ no_index le u cum_probs.
Proof.
  induction cum_probs as [|cp rest IH].
  - right. intros [|j] cp' H; discriminate.
  - destruct (le u cp) eqn:Hcp.
    + left. exists 0%nat. split; [exists cp; split; [reflexivity|exact Hcp]|].
      intros j cp' Hj. lia.
    + destruct IH as [(i & (cpi & Hi & Hle) & Hbefore)|Hno].
      * left. exists (S i). split; [exists cpi; split; assumption|].
        intros [|j] cp' Hj Hnth.
        -- cbn in Hnth. now injection Hnth as <-.
        -- apply (Hbefore j cp'); [lia|exact Hnth].
      * right. intros [|j] cp' Hnth.
        -- cbn in Hnth. now injection Hnth as <-.
        -- apply (Hno j cp'). exact Hnth.
Qed.

Lemma first_index_bound (u : T) (cum_probs : list T) (i : nat) :
  first_index le u cum_probs i -> (i < length cum_probs)%nat.
Proof.
  intros ((cp & Hi & _) & _). apply nth_error_Some. now rewrite Hi.
Qed.

End MapToDemandFacts.

(** C3: for any value [u], cumulative table and demand list of the same
    length, [map_to_demand] returns the demand at the first index [i] with
    [u <= cum_probs[i]], and the last demand when there is no such index
    (one of the two always being the case); with demands [0; 10; 20] and
    cumulative [0.2; 0.7; 1.0], [u = 0.2] gives 0 (a tie goes to the lower
    bucket) and [u = 0.71] gives 20. *)
Theorem map_to_demand_first_index {T D : Type} (le : T -> T -> bool)
    (u : T) (demands : list D) (cum_probs : list T) :
  length demands = length cum_probs ->
  (forall i, first_index le u cum_probs i ->
             exists d, nth_error demands i = Some d /\
                       map_to_demand le u demands cum_probs = Ok d) /\
  (no_index le u cum_probs -> demands <> [] ->
   forall d0, map_to_demand le u demands cum_probs = Ok (last demands d0)) /\
  ((exists i, first_index le u cum_probs i) \/ no_index le u cum_probs) /\
  map_to_demand PrimFloat.leb 0.2%float [0; 10; 20] [0.2; 0.7; 1.0]%float
    = Ok 0 /\
  map_to_demand PrimFloat.leb 0.71%float [0; 10; 20] [0.2; 0.7; 1.0]%float
    = Ok 20.
Proof.
  intros Hlen. repeat split.
  - intros i Hfirst.
    pose proof (first_index_bound le u cum_probs i Hfirst) as Hi.
    destruct Hfirst as ((cp & Hcp & Hle) & Hbefore).
    destruct (nth_error demands i) as [d|] eqn:Hd.
    + exists d. split; [reflexivity|]. unfold map_to_demand.
      rewrite (map_scan_hit le u demands cum_probs 0 i cp Hcp Hle Hbefore).
      now apply getitem_of_nat.
    + apply nth_error_None in Hd. lia.
  - intros Hno Hne d0. unfold map_to_demand.
    rewrite map_scan_miss by assumption. now apply getitem_last.
  - apply first_index_or_none.
Qed.

Lemma map_to_demand_first_index_witness :
  (forall i, first_index PrimFloat.leb 0.2%float [0.2; 0.7; 1.0]%float i ->
             exists d, nth_error [0; 10; 20] i = Some d /\
                       map_to_demand PrimFloat.leb 0.2%float [0; 10; 20]
                         [0.2; 0.7; 1.0]%float = Ok d) /\
  (no_index PrimFloat.leb 0.2%float [0.2; 0.7; 1.0]%float ->
   [0; 10; 20] <> [] ->
   forall d0, map_to_demand PrimFloat.leb 0.2%float [0; 10; 20]
                [0.2; 0.7; 1.0]%float = Ok (last [0; 10; 20] d0)) /\
  ((exists i, first_index PrimFloat.leb 0.2%float [0.2; 0.7; 1.0]%float i) \/
   no_index PrimFloat.leb 0.2%float [0.2; 0.7; 1.0]%float) /\
  map_to_demand PrimFloat.leb 0.2%float [0; 10; 20] [0.2; 0.7; 1.0]%float
    = Ok 0 /\
  map_to_demand PrimFloat.leb 0.71%float [0; 10; 20] [0.2; 0.7; 1.0]%float
    = Ok 20.
Proof.
  apply (map_to_demand_first_index PrimFloat.leb 0.2%float [0; 10; 20]
           [0.2; 0.7; 1.0]%float).
  reflexivity.
Defined.

(** C10: for any [u] whatever (a float of any magnitude or sign, NaN
    included, since only the outcome of the comparison matters), a
    nonempty demand list and a cumulative table no longer than it,
    [map_to_demand] does not raise and returns an element of the demand
    list, the last one when [u] is above every threshold; a cumulative
    table longer than the demand list can make it raise [IndexError]. *)
Theorem map_to_demand_total {T D : Type} (le : T -> T -> bool)
    (u : T) (demands : list D) (cum_probs : list T) :
  demands <> [] ->
  (length cum_probs <= length demands)%nat ->
  (exists d, map_to_demand le u demands cum_probs = Ok d /\
             In d demands /\
             (no_index le u cum_probs -> forall d0, d = last demands d0)) /\
  (exists (u' : float) (demands' : list Z) (cum_probs' : list float),
      demands' <> [] /\
      (length cum_probs' > length demands')%nat /\
      map_to_demand PrimFloat.leb u' demands' cum_probs' = Raise IndexError).
Proof.
  intros Hne Hlen. split.
  - destruct (first_index_or_none le u cum_probs) as [(i & Hfirst)|Hno].
    + pose proof (first_index_bound le u cum_probs i Hfirst) as Hi.
      destruct Hfirst as ((cp & Hcp & Hle) & Hbefore).
      destruct (nth_error demands i) as [d|] eqn:Hd.
      * exists d. unfold map_to_demand.
        rewrite (map_scan_hit le u demands cum_probs 0 i cp Hcp Hle Hbefore).
        cbn [Nat.add]. split; [now apply getitem_of_nat|].
        split; [eapply nth_error_In, Hd|].
        intros Hno. specialize (Hno i cp Hcp). congruence.
      * apply nth_error_None in Hd. lia.
    + destruct demands as [|d1 demands']; [congruence|].
      exists (last (d1 :: demands') d1). unfold map_to_demand.
      rewrite map_scan_miss by assumption.
      split; [now apply getitem_last|].
      split.
      * destruct (exists_last Hne) as (l' & x & E). rewrite E, last_last.
        apply in_or_app. right. now left.
      * intros _ d0. destruct (exists_last Hne) as (l' & x & E).
        rewrite E. now rewrite !last_last.
  - exists 0.9%float, [0; 10], [0.2; 0.5; 1.0]%float.
    split; [discriminate|]. split; [cbn; lia|]. reflexivity.
Qed.

Lemma map_to_demand_total_witness :
  (exists d, map_to_demand PrimFloat.leb 7.5%float [0; 10; 20]
               [0.2; 0.7]%float = Ok d /\
             In d [0; 10; 20] /\
             (no_index PrimFloat.leb 7.5%float [0.2; 0.7]%float ->
              forall d0, d = last [0; 10; 20] d0)) /\
  (exists (u' : float) (demands' : list Z) (cum_probs' : list float),
      demands' <> [] /\
      (length cum_probs' > length demands')%nat /\
      map_to_demand PrimFloat.leb u' demands' cum_probs' = Raise IndexError).
Proof.
  apply (map_to_demand_total PrimFloat.leb 7.5%float [0; 10; 20]
           [0.2; 0.7]%float).
  - discriminate.
  - cbn. lia.
Defined.

(** ** Order of binary64 numbers *)

Lemma SFcompare_antisym (x y : spec_float) (o : comparison) :
  SFcompare x y = Some o -> SFcompare y x = Some (CompOpp o).
Proof.
  destruct x as [sx|sx| |sx mx ex], y as [sy|sy| |sy my ey];
    try destruct sx; try destruct sy; cbn; try discriminate;
    intros [= <-]; try reflexivity;
    rewrite (Z.compare_antisym ex ey);
    destruct (ex ?= ey); cbn; try reflexivity;
    rewrite (Pos.compare_cont_antisym mx my Eq); cbn;
    now destruct (Pos.compare_cont Eq mx my).
Qed.

(** [x <= y] excludes [y < x]. *)
Lemma float_leb_not_gtb (x y : float) :
  PrimFloat.leb x y = true -> PrimFloat.ltb y x = false.
Proof.
  rewrite leb_spec, ltb_spec. unfold SFleb, SFltb.
  destruct (SFcompare (Prim2SF x) (Prim2SF y)) as [o|] eqn:E; [|discriminate].
  rewrite (SFcompare_antisym _ _ _ E). now destruct o.
Qed.

(** ** The script *)

Lemma sbind_ok {A B : Type} (s : script A) (k : A -> script B) tr tr1 x :
  s tr = (tr1, Ok x) -> sbind s k tr = k x tr1.
Proof. unfold sbind. now intros ->. Qed.

Lemma sbind_inv {A B : Type} (s : script A) (k : A -> script B) tr tr' v :
  sbind s k tr = (tr', Ok v) ->
  exists tr1 x, s tr = (tr1, Ok x) /\ k x tr1 = (tr', Ok v).
Proof.
  unfold sbind. destruct (s tr) as [tr1 [x|e]]; [|discriminate].
  intros H. now exists tr1, x.
Qed.

Lemma lift_inv {A : Type} (r : result A) tr tr' v :
  lift r tr = (tr', Ok v) -> tr' = tr /\ r = Ok v.
Proof. unfold lift. now intros [= -> ->]. Qed.

Lemma mapM_float_truediv (s : float) (ps : list float) :
  PrimFloat.eqb s zero = false ->
  mapM (fun p => float_truediv p s) ps
  = Ok (map (fun p => PrimFloat.div p s) ps).
Proof.
  intros Hs. induction ps as [|p ps IH]; [reflexivity|].
  cbn [mapM map]. unfold float_truediv at 1. now rewrite Hs, IH.
Qed.

Section NormalizeFacts.

Variable float_sum : list float -> float.

Lemma normalize_zero_sum ps tr :
  PrimFloat.eqb (float_sum ps) zero = true ->
  normalize float_sum ps tr = (tr ++ [EvError], Ok ps).
Proof. intros H. unfold normalize. now rewrite H. Qed.

Lemma normalize_rescale ps tr :
  PrimFloat.eqb (float_sum ps) zero = false ->
  PrimFloat.ltb 1e-6 (abs (PrimFloat.sub (float_sum ps) 1)) = true ->
  normalize float_sum ps tr
  = (tr ++ [EvWarning (float_sum ps)],
     Ok (map (fun p => PrimFloat.div p (float_sum ps)) ps)).
Proof.
  intros H0 H1. unfold normalize. rewrite H0, H1.
  unfold sbind, show, lift. now rewrite mapM_float_truediv.
Qed.

Lemma normalize_pass ps tr :
  PrimFloat.eqb (float_sum ps) zero = false ->
  PrimFloat.ltb 1e-6 (abs (PrimFloat.sub (float_sum ps) 1)) = false ->
  normalize float_sum ps tr = (tr, Ok ps).
Proof. intros H0 H1. unfold normalize. now rewrite H0, H1. Qed.

(** The normalization block never raises. *)
Lemma normalize_ok ps tr :
  exists tr' ps', normalize float_sum ps tr = (tr', Ok ps').
Proof.
  destruct (PrimFloat.eqb (float_sum ps) zero) eqn:H0.
  - rewrite normalize_zero_sum by assumption. eauto.
  - destruct (PrimFloat.ltb 1e-6 (abs (PrimFloat.sub (float_sum ps) 1)))
      eqn:H1.
    + rewrite normalize_rescale by assumption. eauto.
    + rewrite normalize_pass by assumption. eauto.
Qed.

(** After a zero sum the script goes on with the raw probabilities. *)
Lemma run_after_zero_sum a c m X0 n_days demand_values ps tr :
  PrimFloat.eqb (float_sum ps) zero = true ->
  run float_sum a c m X0 n_days demand_values ps tr
  = simulate a c m X0 n_days demand_values ps (tr ++ [EvError]).
Proof.
  intros H0. unfold run.
  now rewrite (sbind_ok _ _ _ _ _ (normalize_zero_sum ps tr H0)).
Qed.

End NormalizeFacts.

(** C2 (what the code does): with probabilities that sum to zero the
    script shows the error and then carries on.  It builds the cumulative
    table from the raw probabilities, generates the LCG values, maps them
    to demands and shows the results, the average and the chart. *)
Theorem run_zero_distribution_continues :
  run float_sum_plain 13 7 100 35 3 [0; 10] [0; 0]%float []
  = ([EvError;
      EvCumTable [0; 10] [0; 0]%float [0; 0]%float;
      EvResults [1; 2; 3] [62; 13; 76] [0.62; 0.13; 0.76]%float [10; 10; 10];
      EvAvgN 10%float;
      EvChart [1; 2; 3] [10; 10; 10]],
     Ok {| Globals.probabilities := [0; 0]%float;
           Globals.cum_probs := [0; 0]%float;
           Globals.X_values := [62; 13; 76];
           Globals.U_values := [0.62; 0.13; 0.76]%float;
           Globals.demands_generated := [10; 10; 10] |}) /\
  run float_sum_compensated 13 7 100 35 3 [0; 10] [0; 0]%float []
  = run float_sum_plain 13 7 100 35 3 [0; 10] [0; 0]%float [].
Proof. split; vm_compute; reflexivity. Qed.

(** ** The normalizer *)

(** In binary64 the rescaled list need not sum to anything near 1: the
    entries of [cancelling_probabilities] sum to 0.3 under either
    summation, the list is rescaled, and the result sums to -7.  With
    non-negative entries the same happens when the sum overflows: the
    entries of [overflowing_probabilities] sum to infinity, which is
    neither 0 nor within 1e-6 of 1, and the rescaled list is all zeros.
    The exact totals of the two results are -7 and 0. *)
Lemma normalize_sum_far_from_one :
  float_sum_plain cancelling_probabilities = 0.3%float /\
  float_sum_compensated cancelling_probabilities = 0.3%float /\
  normalize float_sum_plain cancelling_probabilities []
  = ([EvWarning 0.3%float],
     Ok [1e17; -33333333333333336; -33333333333333336;
         -33333333333333336; 1]%float) /\
  normalize float_sum_compensated cancelling_probabilities []
  = normalize float_sum_plain cancelling_probabilities [] /\
  float_sum_plain [1e17; -33333333333333336; -33333333333333336;
                   -33333333333333336; 1]%float = (-7)%float /\
  float_sum_compensated [1e17; -33333333333333336; -33333333333333336;
                         -33333333333333336; 1]%float = (-7)%float /\
  normalize float_sum_plain overflowing_probabilities []
  = ([EvWarning infinity], Ok [0; 0]%float) /\
  normalize float_sum_compensated overflowing_probabilities []
  = ([EvWarning infinity], Ok [0; 0]%float) /\
  float_sum_plain [0; 0]%float = 0%float /\
  float_sum_compensated [0; 0]%float = 0%float /\
  exact_total [1e17; -33333333333333336; -33333333333333336;
               -33333333333333336; 1]%float = -7 * 2 ^ 1074 /\
  exact_total [0; 0]%float = 0.
Proof. repeat (split; [vm_compute; reflexivity|]). vm_compute. reflexivity. Qed.

(** ** The cumulative builder *)

Lemma cum_loop_spec (ps : list float) : forall acc s,
  cum_loop ps acc s
  = (acc ++ map (fun i => float_round
                            (fold_left PrimFloat.add (firstn (S i) ps) s) 4)
              (seq 0 (length ps)),
     fold_left PrimFloat.add ps s).
Proof.
  induction ps as [|p ps IH]; intros acc s.
  - cbn. now rewrite app_nil_r.
  - cbn [cum_loop]. rewrite IH. cbn [length seq map fold_left firstn].
    rewrite <- app_assoc. cbn [app]. do 3 f_equal.
    rewrite <- seq_shift, map_map. reflexivity.
Qed.

Lemma build_cum_probs_spec (ps : list float) :
  build_cum_probs ps
  = map (fun i => float_round (running_sum (firstn (S i) ps)) 4)
      (seq 0 (length ps)).
Proof. unfold build_cum_probs. now rewrite cum_loop_spec. Qed.

Lemma build_cum_probs_length (ps : list float) :
  length (build_cum_probs ps) = length ps.
Proof. now rewrite build_cum_probs_spec, length_map, length_seq. Qed.

Lemma build_cum_probs_nth (ps : list float) (i : nat) :
  (i < length ps)%nat ->
  nth_error (build_cum_probs ps) i
  = Some (float_round (running_sum (firstn (S i) ps)) 4).
Proof.
  intros Hi. rewrite build_cum_probs_spec, nth_error_map, nth_error_seq.
  destruct (Nat.ltb_spec i (length ps)); [reflexivity|lia].
Qed.

(** What a successful run of the script after normalization leaves in the
    module-level variables. *)
Lemma simulate_inv a c m X0 n_days demand_values ps tr tr' g :
  simulate a c m X0 n_days demand_values ps tr = (tr', Ok g) ->
  Globals.probabilities g = ps /\
  Globals.cum_probs g = build_cum_probs ps /\
  generate_lcg X0 a c m n_days = Ok (Globals.X_values g) /\
  mapM (fun x => int_truediv x m) (Globals.X_values g)
  = Ok (Globals.U_values g) /\
  mapM (fun u => map_to_demand PrimFloat.leb u demand_values
                   (build_cum_probs ps)) (Globals.U_values g)
  = Ok (Globals.demands_generated g).
Proof.
  unfold simulate. intros H.
  apply sbind_inv in H as (tr1 & [] & _ & H).
  apply sbind_inv in H as (tr2 & [] & _ & H).
  apply sbind_inv in H as (tr3 & X & HX & H). apply lift_inv in HX as [_ HX].
  apply sbind_inv in H as (tr4 & U & HU & H). apply lift_inv in HU as [_ HU].
  apply sbind_inv in H as (tr5 & ds & Hds & H).
  apply lift_inv in Hds as [_ Hds].
  apply sbind_inv in H as (tr6 & [] & _ & H).
  apply sbind_inv in H as (tr7 & [] & _ & H).
  apply sbind_inv in H as (tr8 & [] & _ & H).
  apply sbind_inv in H as (tr9 & [] & _ & H).
  unfold ret in H. injection H as _ <-. cbn. auto.
Qed.

(** C7: the cumulative builder returns a list of the same length as its
    input whose element [i] is the running sum of the input elements
    [0..i] rounded to 4 decimal digits, and a run of the script compares
    each uniform value against exactly this rounded table; with
    probabilities [0.12345001; 0.87654999] and modulus 10000 the value
    [u = 0.1235] falls in bucket 0 because the threshold is the rounded
    0.1235, not the raw sum. *)
Theorem cum_probs_rounded_running_sum (probabilities : list float) :
  length (build_cum_probs probabilities) = length probabilities /\
  (forall i, (i < length probabilities)%nat ->
     nth_error (build_cum_probs probabilities) i
     = Some (float_round (running_sum (firstn (S i) probabilities)) 4)) /\
  (forall a c m X0 n_days demand_values tr tr' g,
     simulate a c m X0 n_days demand_values probabilities tr = (tr', Ok g) ->
     Globals.cum_probs g = build_cum_probs probabilities /\
     mapM (fun u => map_to_demand PrimFloat.leb u demand_values
                      (Globals.cum_probs g)) (Globals.U_values g)
     = Ok (Globals.demands_generated g)) /\
  (build_cum_probs [0.12345001; 0.87654999]%float = [0.1235; 1]%float /\
   PrimFloat.leb 0.1235 0.12345001 = false /\
   exists tr' g,
     simulate 1 1234 10000 1 1 [7; 9] [0.12345001; 0.87654999]%float []
     = (tr', Ok g) /\
     Globals.U_values g = [0.1235]%float /\
     Globals.demands_generated g = [7]).
Proof.
  split; [apply build_cum_probs_length|].
  split; [intros i Hi; now apply build_cum_probs_nth|].
  split.
  - intros a c m X0 n_days demand_values tr tr' g H.
    apply simulate_inv in H as (_ & Hc & _ & _ & Hd).
    rewrite Hc. now split.
  - split; [vm_compute; reflexivity|].
    split; [vm_compute; reflexivity|].
    eexists _, _. split; [vm_compute; reflexivity|].
    split; reflexivity.
Qed.

(** ** Binary64 arithmetic *)

Lemma fexp_eq (e : Z) : SpecFloat.fexp prec emax e = Z.max (e - 53) (-1074).
Proof. reflexivity. Qed.

Lemma digits2_pos_bounds (p : positive) :
  2 ^ (Zpos (digits2_pos p) - 1) <= Zpos p < 2 ^ Zpos (digits2_pos p).
Proof.
  induction p as [p IH|p IH|]; cbn [digits2_pos].
  - rewrite Pos2Z.inj_succ, Z.pow_succ_r by lia.
    replace (Z.succ (Zpos (digits2_pos p)) - 1) with (Z.succ (Zpos (digits2_pos p) - 1)) by lia.
    rewrite Z.pow_succ_r by lia. lia.
  - rewrite Pos2Z.inj_succ, Z.pow_succ_r by lia.
    replace (Z.succ (Zpos (digits2_pos p)) - 1) with (Z.succ (Zpos (digits2_pos p) - 1)) by lia.
    rewrite Z.pow_succ_r by lia. lia.
  - cbn. lia.
Qed.

Lemma Zdigits2_bounds (m : Z) :
  0 < m -> 2 ^ (Zdigits2 m - 1) <= m < 2 ^ Zdigits2 m.
Proof.
  destruct m as [|p|p]; try lia. intros _. apply digits2_pos_bounds.
Qed.

Lemma Zdigits2_pos (m : Z) : 0 < m -> 0 < Zdigits2 m.
Proof. destruct m; cbn; lia. Qed.

Lemma Zdigits2_0 : Zdigits2 0 = 0.
Proof. reflexivity. Qed.

(** The number of digits is determined by the bounds. *)
Lemma Zdigits2_unique (m d : Z) :
  2 ^ (d - 1) <= m < 2 ^ d -> 0 < d -> Zdigits2 m = d.
Proof.
  intros [Hlo Hhi] Hd.
  assert (Hm : 0 < m) by (pose proof (Z.pow_pos_nonneg 2 (d - 1)); lia).
  pose proof (Zdigits2_bounds m Hm) as [Hlo' Hhi'].
  pose proof (Zdigits2_pos m Hm) as Hd'.
  destruct (Z.lt_trichotomy (Zdigits2 m) d) as [H|[H|H]]; [|exact H|].
  - assert (2 ^ Zdigits2 m <= 2 ^ (d - 1)) by (apply Z.pow_le_mono_r; lia). lia.
  - assert (2 ^ d <= 2 ^ (Zdigits2 m - 1)) by (apply Z.pow_le_mono_r; lia). lia.
Qed.

Lemma Zdigits2_le (m d : Z) : 0 < m -> m < 2 ^ d -> 0 <= d -> Zdigits2 m <= d.
Proof.
  intros Hm Hlt Hd.
  pose proof (Zdigits2_bounds m Hm) as [Hlo _].
  destruct (Z.le_gt_cases (Zdigits2 m) d) as [H|H]; [exact H|].
  assert (2 ^ d <= 2 ^ (Zdigits2 m - 1)) by (apply Z.pow_le_mono_r; lia). lia.
Qed.

Lemma Zdigits2_ge (m d : Z) : 2 ^ (d - 1) <= m -> 0 < d -> d <= Zdigits2 m.
Proof.
  intros Hlo Hd.
  assert (Hm : 0 < m) by (pose proof (Z.pow_pos_nonneg 2 (d - 1)); lia).
  pose proof (Zdigits2_bounds m Hm) as [_ Hhi].
  pose proof (Zdigits2_pos m Hm).
  destruct (Z.le_gt_cases d (Zdigits2 m)) as [H'|H']; [exact H'|].
  assert (2 ^ Zdigits2 m <= 2 ^ (d - 1)) by (apply Z.pow_le_mono_r; lia). lia.
Qed.

Lemma Zdigits2_mono (m m' : Z) : 0 < m -> m <= m' -> Zdigits2 m <= Zdigits2 m'.
Proof.
  intros Hm Hle.
  pose proof (Zdigits2_bounds m Hm) as [Hlo _].
  apply Zdigits2_ge; [lia|now apply Zdigits2_pos].
Qed.

(** Dropping [n] low digits. *)
Lemma Zdigits2_div_pow2 (m n : Z) :
  0 < m -> 0 <= n < Zdigits2 m -> Zdigits2 (m / 2 ^ n) = Zdigits2 m - n.
Proof.
  intros Hm Hn.
  pose proof (Zdigits2_bounds m Hm) as [Hlo Hhi].
  assert (Hp : 0 < 2 ^ n) by (apply Z.pow_pos_nonneg; lia).
  apply Zdigits2_unique; [|lia]. split.
  - apply Z.div_le_lower_bound; [exact Hp|].
    rewrite <- Z.pow_add_r by lia.
    replace (n + (Zdigits2 m - n - 1)) with (Zdigits2 m - 1) by lia. exact Hlo.
  - apply Z.div_lt_upper_bound; [exact Hp|].
    rewrite <- Z.pow_add_r by lia.
    replace (n + (Zdigits2 m - n)) with (Zdigits2 m) by lia. exact Hhi.
Qed.

Lemma div_pow2_small (m n : Z) :
  0 <= m -> Zdigits2 m <= n -> m / 2 ^ n = 0.
Proof.
  intros Hm Hn. destruct (Z.eq_dec m 0) as [->|Hne].
  - apply Z.div_0_l. pose proof (Z.pow_pos_nonneg 2 n). 
    assert (0 <= n) by (cbn in Hn; lia). lia.
  - assert (Hm' : 0 < m) by lia.
    pose proof (Zdigits2_bounds m Hm') as [_ Hhi].
    pose proof (Zdigits2_pos m Hm').
    apply Z.div_small. split; [lia|].
    assert (2 ^ Zdigits2 m <= 2 ^ n) by (apply Z.pow_le_mono_r; lia). lia.
Qed.

(** ** Shifting right *)

Lemma shr_1_m (mrs : shr_record) :
  0 <= shr_m mrs -> shr_m (shr_1 mrs) = shr_m mrs / 2.
Proof.
  destruct mrs as [m r s]. cbn [shr_m]. intros Hm.
  destruct m as [|[p|p|]|p]; cbn [shr_1 shr_m]; try lia.
  - reflexivity.
  - rewrite Pos2Z.inj_xI. apply Z.div_unique with (r := 1); lia.
  - rewrite Pos2Z.inj_xO. apply Z.div_unique with (r := 0); lia.
  - reflexivity.
Qed.

Lemma div_pow2_nonneg (m k : Z) : 0 <= m -> 0 <= m / 2 ^ k.
Proof.
  intros Hm. destruct (Z.le_gt_cases 0 k) as [Hk|Hk].
  - apply Z.div_pos; [exact Hm|]. apply Z.pow_pos_nonneg; lia.
  - rewrite Z.pow_neg_r by lia. now rewrite Z.div_0_r.
Qed.

Lemma pow2_xO (p : positive) : 2 ^ Zpos p~0 = 2 ^ Zpos p * 2 ^ Zpos p.
Proof. rewrite <- Z.pow_add_r by lia. f_equal. lia. Qed.

Lemma pow2_xI (p : positive) : 2 ^ Zpos p~1 = 2 * (2 ^ Zpos p * 2 ^ Zpos p).
Proof.
  rewrite <- Z.pow_add_r by lia. rewrite <- Z.pow_succ_r by lia. f_equal. lia.
Qed.

Lemma iter_pos_shr_1_m (p : positive) : forall mrs : shr_record,
  0 <= shr_m mrs ->
  shr_m (iter_pos shr_1 p mrs) = shr_m mrs / 2 ^ Zpos p.
Proof.
  induction p as [p IH|p IH|]; intros mrs Hm; cbn [iter_pos].
  - assert (H1 : 0 <= shr_m (shr_1 mrs)).
    { rewrite shr_1_m by exact Hm. apply Z.div_pos; lia. }
    assert (H2 : 0 <= shr_m (iter_pos shr_1 p (shr_1 mrs))).
    { rewrite IH by exact H1. now apply div_pow2_nonneg. }
    rewrite IH by exact H2. rewrite IH by exact H1. rewrite shr_1_m by exact Hm.
    rewrite !Z.div_div by (try apply Z.pow_pos_nonneg; lia).
    f_equal. rewrite pow2_xI. lia.
  - assert (H2 : 0 <= shr_m (iter_pos shr_1 p mrs)).
    { rewrite IH by exact Hm. now apply div_pow2_nonneg. }
    rewrite IH by exact H2. rewrite IH by exact Hm.
    rewrite !Z.div_div by (try apply Z.pow_pos_nonneg; lia).
    f_equal. rewrite pow2_xO. lia.
  - rewrite shr_1_m by exact Hm. reflexivity.
Qed.

(** [shr_fexp] divides the mantissa by the power of two that brings the
    exponent up to [fexp]. *)
Lemma shr_fexp_spec (m e : Z) (l : location) :
  0 <= m ->
  let n := Z.max 0 (SpecFloat.fexp prec emax (Zdigits2 m + e) - e) in
  shr_m (fst (shr_fexp prec emax m e l)) = m / 2 ^ n /\
  snd (shr_fexp prec emax m e l) = e + n.
Proof.
  intros Hm n. unfold shr_fexp, shr.
  assert (Hrec : shr_m (shr_record_of_loc m l) = m)
    by (destruct l as [|[]]; reflexivity).
  subst n.
  destruct (SpecFloat.fexp prec emax (Zdigits2 m + e) - e) as [|p|p] eqn:E;
    cbn [fst snd].
  - rewrite Hrec. cbn. rewrite Z.div_1_r. split; lia.
  - rewrite iter_pos_shr_1_m by (rewrite Hrec; exact Hm). rewrite Hrec.
    rewrite Z.max_r by lia. split; reflexivity.
  - rewrite Hrec. rewrite Z.max_l by lia. cbn. rewrite Z.div_1_r. split; lia.
Qed.

Lemma round_nearest_even_bounds (m : Z) (l : location) :
  m <= round_nearest_even m l <= m + 1.
Proof.
  unfold round_nearest_even.
  destruct l as [|[]]; try destruct (Z.even m); lia.
Qed.

Lemma canonical_no_shift (m e : Z) :
  canonical m e -> Z.max 0 (fexp (Zdigits2 m + e) - e) = 0.
Proof. unfold canonical. intros ->. lia. Qed.

(** Truncating to the exponent [fexp] gives a canonical mantissa, if
    anything is left of it. *)
Lemma canonical_truncate (mx ex : Z) :
  0 < mx -> ex <= fexp (Zdigits2 mx + ex) ->
  0 < mx / 2 ^ (fexp (Zdigits2 mx + ex) - ex) ->
  canonical (mx / 2 ^ (fexp (Zdigits2 mx + ex) - ex)) (fexp (Zdigits2 mx + ex)).
Proof.
  intros Hmx Hn Hm1. unfold canonical.
  set (e1 := fexp (Zdigits2 mx + ex)) in *.
  destruct (Z.le_gt_cases (Zdigits2 mx) (e1 - ex)) as [Hsmall|Hbig].
  - rewrite div_pow2_small in Hm1 by lia. lia.
  - rewrite Zdigits2_div_pow2 by lia.
    replace (Zdigits2 mx - (e1 - ex) + e1) with (Zdigits2 mx + ex) by lia.
    reflexivity.
Qed.

(** When nothing is left, the exponent is the smallest one. *)
Lemma truncate_to_zero (mx ex : Z) :
  0 < mx -> mx / 2 ^ (fexp (Zdigits2 mx + ex) - ex) = 0 ->
  ex <= fexp (Zdigits2 mx + ex) ->
  fexp (Zdigits2 mx + ex) = -1074.
Proof.
  intros Hmx H0 Hn. set (e1 := fexp (Zdigits2 mx + ex)) in *.
  destruct (Z.le_gt_cases (Zdigits2 mx) (e1 - ex)) as [Hsmall|Hbig].
  - subst e1. rewrite fexp_eq in *. lia.
  - assert (Hd : Zdigits2 (mx / 2 ^ (e1 - ex)) = Zdigits2 mx - (e1 - ex))
      by (apply Zdigits2_div_pow2; lia).
    rewrite H0 in Hd. cbn in Hd. lia.
Qed.

(** Adding one unit to a canonical mantissa and renormalizing. *)
Lemma canonical_succ (m e : Z) :
  0 < m -> canonical m e ->
  let n2 := Z.max 0 (fexp (Zdigits2 (m + 1) + e) - e) in
  canonical ((m + 1) / 2 ^ n2) (e + n2) /\
  (m + 1) / 2 ^ n2 * 2 ^ n2 = m + 1 /\
  0 < (m + 1) / 2 ^ n2.
Proof.
  intros Hm Hc n2. unfold canonical in *.
  pose proof (Zdigits2_bounds m Hm) as [Hlo Hhi].
  pose proof (Zdigits2_pos m Hm) as Hd.
  set (d := Zdigits2 m) in *.
  destruct (Z.eq_dec (m + 1) (2 ^ d)) as [Htop|Hnot].
  - assert (Hd1 : Zdigits2 (m + 1) = d + 1).
    { apply Zdigits2_unique; [|lia]. rewrite Htop.
      replace (d + 1 - 1) with d by lia. split; [lia|].
      apply Z.pow_lt_mono_r; lia. }
    subst n2. rewrite Hd1. rewrite !fexp_eq. rewrite fexp_eq in Hc.
    destruct (Z.le_gt_cases (-1074) (d + e - 53)) as [Hnormal|Hsub].
    + replace (Z.max 0 (Z.max (d + 1 + e - 53) (-1074) - e)) with 1 by lia.
      rewrite Htop.
      assert (Hhalf : 2 ^ d / 2 ^ 1 = 2 ^ (d - 1)).
      { replace d with (1 + (d - 1)) at 1 by lia.
        rewrite Z.pow_add_r by lia. rewrite Z.mul_comm.
        apply Z.div_mul. discriminate. }
      rewrite Hhalf. repeat split.
      * assert (Hd2 : Zdigits2 (2 ^ (d - 1)) = d).
        { apply Zdigits2_unique; [|lia]. split; [lia|].
          apply Z.pow_lt_mono_r; lia. }
        rewrite Hd2. lia.
      * replace d with (d - 1 + 1) at 2 by lia.
        now rewrite Z.pow_add_r by lia.
      * apply Z.pow_pos_nonneg; lia.
    + replace (Z.max 0 (Z.max (d + 1 + e - 53) (-1074) - e)) with 0 by lia.
      cbn [Z.pow]. rewrite Z.div_1_r, Z.add_0_r, Z.mul_1_r.
      rewrite Hd1. repeat split; lia.
  - assert (Hd1 : Zdigits2 (m + 1) = d).
    { apply Zdigits2_unique; [|lia]. lia. }
    subst n2. rewrite Hd1, Hc.
    replace (Z.max 0 (e - e)) with 0 by lia.
    cbn [Z.pow]. rewrite Z.div_1_r, Z.add_0_r, Z.mul_1_r, Hd1.
    repeat split; [exact Hc|lia].
Qed.

Lemma canonical_mantissa_iff (m : positive) (e : Z) :
  canonical_mantissa prec emax m e = true <-> canonical (Zpos m) e.
Proof. unfold canonical_mantissa, canonical. cbn [Zdigits2]. apply Z.eqb_eq. Qed.

(** A canonical mantissa above the smallest exponent has all 53 digits. *)
Lemma canonical_normal (m e : Z) :
  0 < m -> canonical m e -> -1074 < e -> 2 ^ 52 <= m < 2 ^ 53.
Proof.
  intros Hm Hc He. unfold canonical in Hc. rewrite fexp_eq in Hc.
  assert (Hd : Zdigits2 m = 53) by lia.
  pose proof (Zdigits2_bounds m Hm) as H. rewrite Hd in H. exact H.
Qed.

Lemma canonical_upper (m e : Z) :
  0 < m -> canonical m e -> m < 2 ^ 53.
Proof.
  intros Hm Hc. unfold canonical in Hc. rewrite fexp_eq in Hc.
  pose proof (Zdigits2_bounds m Hm) as [_ H].
  pose proof (Zdigits2_pos m Hm).
  assert (2 ^ Zdigits2 m <= 2 ^ 53) by (apply Z.pow_le_mono_r; lia). lia.
Qed.

Lemma canonical_emin (m e : Z) : canonical m e -> -1074 <= e.
Proof. unfold canonical. rewrite fexp_eq. lia. Qed.

Theorem binary_round_aux_spec (s : bool) (mx ex : Z) (lx : location) :
  0 < mx -> ex <= fexp (Zdigits2 mx + ex) ->
  exists m2,
    mx / 2 ^ (fexp (Zdigits2 mx + ex) - ex) <= m2
      <= mx / 2 ^ (fexp (Zdigits2 mx + ex) - ex) + 1 /\
    rounds_to s (fexp (Zdigits2 mx + ex)) m2
      (binary_round_aux prec emax s mx ex lx).
Proof.
  intros Hmx Hn. unfold binary_round_aux.
  set (e1 := fexp (Zdigits2 mx + ex)) in *.
  pose proof (shr_fexp_spec mx ex lx (Z.lt_le_incl _ _ Hmx)) as (Hm1 & He1).
  cbv zeta in Hm1, He1. fold e1 in Hm1, He1.
  rewrite Z.max_r in Hm1, He1 by lia.
  destruct (shr_fexp prec emax mx ex lx) as [mrs' e'].
  cbn [fst snd] in Hm1, He1.
  replace (ex + (e1 - ex)) with e1 in He1 by lia. subst e'.
  set (m1 := mx / 2 ^ (e1 - ex)) in *.
  assert (Hm1nn : 0 <= m1) by (apply div_pow2_nonneg; lia).
  pose proof (round_nearest_even_bounds (shr_m mrs') (loc_of_shr_record mrs'))
    as Hrne.
  set (m2 := round_nearest_even (shr_m mrs') (loc_of_shr_record mrs')) in *.
  rewrite Hm1 in Hrne.
  exists m2. split; [exact Hrne|].
  pose proof (shr_fexp_spec m2 e1 loc_Exact ltac:(lia)) as (Hm3 & He3).
  cbv zeta in Hm3, He3.
  destruct (shr_fexp prec emax m2 e1 loc_Exact) as [mrs'' e''].
  cbn [fst snd] in Hm3, He3.
  (* the rounded mantissa renormalizes to a canonical one *)
  assert (Hcan : m2 = 0 \/
                 (0 < m2 /\
                  let n2 := Z.max 0 (fexp (Zdigits2 m2 + e1) - e1) in
                  canonical (m2 / 2 ^ n2) (e1 + n2) /\
                  m2 / 2 ^ n2 * 2 ^ n2 = m2 /\ 0 < m2 / 2 ^ n2)).
  { destruct (Z.eq_dec m2 0) as [H0|H0]; [now left|right].
    split; [lia|].
    destruct (Z.eq_dec m1 0) as [Hz|Hnz].
    - (* everything was shifted out and the result rounded up to 1 *)
      assert (m2 = 1) by lia.
      assert (He : e1 = -1074)
        by (apply (truncate_to_zero mx ex Hmx); [exact Hz|exact Hn]).
      replace m2 with 1 by lia. cbn [Zdigits2 digits2_pos].
      rewrite He. cbn. repeat split; reflexivity.
    - assert (Hc1 : canonical m1 e1)
        by (apply canonical_truncate; [exact Hmx|exact Hn|fold e1; fold m1; lia]).
      destruct (Z.eq_dec m2 m1) as [->|Hne].
      + rewrite (canonical_no_shift m1 e1 Hc1). cbn [Z.pow].
        rewrite Z.div_1_r, Z.add_0_r, Z.mul_1_r. repeat split; [exact Hc1|lia].
      + replace m2 with (m1 + 1) by lia.
        apply canonical_succ; [lia|exact Hc1]. }
  destruct Hcan as [H0|(Hpos & Hc & Hmul & Hm3pos)].
  - rewrite H0 in Hm3. rewrite Z.div_0_l in Hm3.
    + rewrite Hm3. now apply rounds_zero.
    + apply Z.pow_nonzero; lia.
  - cbv zeta in Hc, Hmul, Hm3pos.
    set (n2 := Z.max 0 (fexp (Zdigits2 m2 + e1) - e1)) in *.
    rewrite Hm3. subst e''.
    destruct (m2 / 2 ^ n2) as [|m3|m3] eqn:Em3; try lia.
    destruct (Z.leb_spec (e1 + n2) (emax - prec)) as [Hfin|Hinf].
    + apply rounds_finite.
      * unfold bounded. apply andb_true_intro. split.
        -- now apply canonical_mantissa_iff.
        -- now apply Z.leb_le.
      * lia.
      * replace (e1 + n2 - e1) with n2 by lia. exact Hmul.
    + apply rounds_infinity.
      change (emax - prec) with 971 in Hinf.
      pose proof (canonical_normal (Zpos m3) (e1 + n2) ltac:(lia) Hc ltac:(lia))
        as [Hlo _].
      rewrite <- Hmul.
      assert (H : 2 ^ (1024 - e1) <= 2 ^ 52 * 2 ^ n2).
      { rewrite <- Z.pow_add_r by lia. apply Z.pow_le_mono_r; lia. }
      assert (0 < 2 ^ n2) by (apply Z.pow_pos_nonneg; lia).
      nia.
Qed.

(** ** The value of a binary64 number, in units of [2^-1074] *)

Lemma bounded_canonical (m : positive) (e : Z) :
  bounded prec emax m e = true -> canonical (Zpos m) e /\ e <= 971.
Proof.
  unfold bounded. intros H. apply andb_prop in H as [Hc He].
  split; [now apply canonical_mantissa_iff|]. now apply Z.leb_le in He.
Qed.

Lemma scaled_pos (m e : Z) : 0 < m -> -1074 <= e -> 0 < scaled m e.
Proof.
  intros Hm He. unfold scaled.
  apply Z.mul_pos_pos; [exact Hm|]. apply Z.pow_pos_nonneg; lia.
Qed.

Lemma scaled_lt_exp (m1 e1 m2 e2 : Z) :
  0 < m1 -> 0 < m2 -> canonical m1 e1 -> canonical m2 e2 -> e1 < e2 ->
  scaled m1 e1 < scaled m2 e2.
Proof.
  intros H1 H2 C1 C2 He.
  pose proof (canonical_emin m1 e1 C1) as Hmin.
  pose proof (canonical_upper m1 e1 H1 C1) as Hup.
  pose proof (canonical_normal m2 e2 H2 C2 ltac:(lia)) as [Hlo _].
  unfold scaled.
  assert (Hp1 : 0 < 2 ^ (e1 + 1074)) by (apply Z.pow_pos_nonneg; lia).
  assert (Hp2 : 2 * 2 ^ (e1 + 1074) <= 2 ^ (e2 + 1074)).
  { rewrite <- Z.pow_succ_r by lia. apply Z.pow_le_mono_r; lia. }
  change (2 ^ 53) with (2 * 2 ^ 52) in Hup.
  nia.
Qed.

Lemma scaled_lt_2098 (m e : Z) :
  0 < m -> canonical m e -> e <= 971 -> scaled m e < 2 ^ 2098.
Proof.
  intros Hm Hc He.
  pose proof (canonical_emin m e Hc) as Hmin.
  pose proof (canonical_upper m e Hm Hc) as Hup.
  unfold scaled.
  apply Z.lt_le_trans with (2 ^ 53 * 2 ^ (e + 1074)).
  - apply Z.mul_lt_mono_pos_r; [apply Z.pow_pos_nonneg; lia|exact Hup].
  - rewrite <- Z.pow_add_r by lia. apply Z.pow_le_mono_r; lia.
Qed.

Lemma scaled_lt_huge (m e : Z) :
  0 < m -> canonical m e -> e <= 971 -> scaled m e < huge.
Proof.
  intros Hm Hc He.
  apply Z.lt_trans with (2 ^ 2098); [now apply scaled_lt_2098|].
  unfold huge. apply Z.pow_lt_mono_r; lia.
Qed.

Lemma huge_pos : 0 < huge.
Proof. unfold huge. apply Z.pow_pos_nonneg; lia. Qed.

(** On valid numbers the comparison of the format is the comparison of
    the values. *)
Lemma SFcompare_finite_pos (m1 m2 : positive) (e1 e2 : Z) :
  bounded prec emax m1 e1 = true -> bounded prec emax m2 e2 = true ->
  match e1 ?= e2 with
  | Lt => Lt
  | Gt => Gt
  | Eq => Pos.compare_cont Eq m1 m2
  end = (scaled (Zpos m1) e1 ?= scaled (Zpos m2) e2).
Proof.
  intros B1 B2.
  apply bounded_canonical in B1 as [C1 _].
  apply bounded_canonical in B2 as [C2 _].
  symmetry. destruct (Z.compare_spec e1 e2) as [->|Hlt|Hgt].
  - pose proof (canonical_emin _ _ C2).
    unfold scaled.
    assert (Hp : 0 < 2 ^ (e2 + 1074)) by (apply Z.pow_pos_nonneg; lia).
    change (Pos.compare_cont Eq m1 m2) with (Zpos m1 ?= Zpos m2).
    destruct (Z.compare_spec (Zpos m1) (Zpos m2)) as [E|L|G].
    + rewrite E. apply Z.compare_refl.
    + apply Z.compare_lt_iff. nia.
    + apply Z.compare_gt_iff. nia.
  - apply Z.compare_lt_iff. apply scaled_lt_exp; (lia || assumption).
  - apply Z.compare_gt_iff. apply scaled_lt_exp; (lia || assumption).
Qed.

Ltac solve_compare :=
  f_equal; symmetry;
  first [ apply Z.compare_refl
        | apply Z.compare_lt_iff; lia
        | apply Z.compare_gt_iff; lia ].

Theorem SFcompare_BV (x y : spec_float) :
  valid_binary x = true -> valid_binary y = true ->
  not_nan x -> not_nan y ->
  SFcompare x y = Some (BV x ?= BV y).
Proof.
  intros Vx Vy Nx Ny. pose proof huge_pos as Hh.
  destruct x as [sx|sx| |sx mx ex], y as [sy|sy| |sy my ey];
    try (exfalso; now (apply Nx || apply Ny)); cbn [valid_binary] in Vx, Vy.
  - reflexivity.
  - cbn [SFcompare BV]. destruct sy; solve_compare.
  - apply bounded_canonical in Vy as [Cy Hy].
    pose proof (scaled_pos (Zpos my) ey ltac:(lia) (canonical_emin _ _ Cy)).
    cbn [SFcompare BV]. destruct sy; solve_compare.
  - cbn [SFcompare BV]. destruct sx; solve_compare.
  - cbn [SFcompare BV]. destruct sx, sy; solve_compare.
  - apply bounded_canonical in Vy as [Cy Hy].
    pose proof (scaled_pos (Zpos my) ey ltac:(lia) (canonical_emin _ _ Cy)).
    pose proof (scaled_lt_huge (Zpos my) ey ltac:(lia) Cy Hy).
    cbn [SFcompare BV]. destruct sx, sy; solve_compare.
  - apply bounded_canonical in Vx as [Cx Hx].
    pose proof (scaled_pos (Zpos mx) ex ltac:(lia) (canonical_emin _ _ Cx)).
    cbn [SFcompare BV]. destruct sx; solve_compare.
  - apply bounded_canonical in Vx as [Cx Hx].
    pose proof (scaled_pos (Zpos mx) ex ltac:(lia) (canonical_emin _ _ Cx)).
    pose proof (scaled_lt_huge (Zpos mx) ex ltac:(lia) Cx Hx).
    cbn [SFcompare BV]. destruct sx, sy; solve_compare.
  - pose proof Vx as Bx. pose proof Vy as By.
    apply bounded_canonical in Vx as [Cx Hx].
    apply bounded_canonical in Vy as [Cy Hy].
    pose proof (scaled_pos (Zpos mx) ex ltac:(lia) (canonical_emin _ _ Cx)).
    pose proof (scaled_pos (Zpos my) ey ltac:(lia) (canonical_emin _ _ Cy)).
    cbn [SFcompare BV]. destruct sx, sy.
    + f_equal. rewrite Z.compare_opp.
      rewrite <- (SFcompare_finite_pos my mx ey ex By Bx).
      rewrite (Z.compare_antisym ey ex).
      destruct (ey ?= ex); cbn; try reflexivity.
      apply (Pos.compare_cont_antisym mx my Eq).
    + solve_compare.
    + solve_compare.
    + f_equal. apply SFcompare_finite_pos; assumption.
Qed.

Lemma BV_SFone : BV SFone = 2 ^ 1074.
Proof.
  cbn [BV SFone]. unfold scaled.
  change 4503599627370496 with (2 ^ 52). rewrite <- Z.pow_add_r by lia.
  reflexivity.
Qed.

Lemma nonneg_not_nan (x : spec_float) : nonneg x -> not_nan x.
Proof. destruct x; cbn; intros H; [discriminate|discriminate|contradiction|discriminate]. Qed.

Lemma nonneg_BV (x : spec_float) :
  valid_binary x = true -> nonneg x -> 0 <= BV x.
Proof.
  destruct x as [s|[]| |[] m e]; cbn [nonneg BV valid_binary];
    intros Hv Hn; try contradiction; try lia.
  - pose proof huge_pos. lia.
  - apply bounded_canonical in Hv as [Hc _].
    pose proof (scaled_pos (Zpos m) e ltac:(lia) (canonical_emin _ _ Hc)). lia.
Qed.

(** ** Division of integers *)

Lemma SFdiv_core_Z2SF (mx my : positive) :
  Zdigits2 (Zpos my) - Zdigits2 (Zpos mx) <= 1021 ->
  exists l,
    SFdiv_core_binary prec emax (Zpos mx) 0 (Zpos my) 0
    = (div_quot mx my, - div_shift mx my, l).
Proof.
  intros Hd. unfold SFdiv_core_binary, div_quot, div_shift.
  set (s := Z.max 0 (53 + Zdigits2 (Zpos my) - Zdigits2 (Zpos mx))).
  assert (He : Z.min (fexp (Zdigits2 (Zpos mx) + 0 - (Zdigits2 (Zpos my) + 0)))
                 (0 - 0) = - s) by (rewrite fexp_eq; lia).
  rewrite He. replace (0 - 0 - - s) with s by lia.
  assert (Hm' : match s with
                | 0 => Zpos mx
                | Zpos _ => Z.shiftl (Zpos mx) s
                | Zneg _ => 0
                end = Zpos mx * 2 ^ s).
  { destruct s as [|p|p] eqn:Es.
    - rewrite Z.pow_0_r. lia.
    - rewrite Z.shiftl_mul_pow2 by lia. reflexivity.
    - lia. }
  rewrite Hm'. unfold Z.div.
  destruct (Z.div_eucl (Zpos mx * 2 ^ s) (Zpos my)) as [q r].
  eexists. reflexivity.
Qed.

Lemma div_quot_bounds (mx my : positive) :
  let d := Zdigits2 (Zpos mx) + div_shift mx my - Zdigits2 (Zpos my) in
  2 ^ (d - 1) <= div_quot mx my < 2 ^ (d + 1) /\ 53 <= d.
Proof.
  intros d. unfold div_quot. subst d. unfold div_shift.
  pose proof (Zdigits2_bounds (Zpos mx) ltac:(lia)) as [Hx1 Hx2].
  pose proof (Zdigits2_bounds (Zpos my) ltac:(lia)) as [Hy1 Hy2].
  pose proof (Zdigits2_pos (Zpos mx) ltac:(lia)) as Hd1.
  pose proof (Zdigits2_pos (Zpos my) ltac:(lia)) as Hd2.
  set (d1 := Zdigits2 (Zpos mx)) in *. set (d2 := Zdigits2 (Zpos my)) in *.
  set (s := Z.max 0 (53 + d2 - d1)).
  assert (Hs : 0 <= s) by lia.
  assert (Hps : 0 < 2 ^ s) by (apply Z.pow_pos_nonneg; lia).
  split; [|lia]. split.
  - apply Z.div_le_lower_bound; [lia|].
    (* my * 2^(d1+s-d2-1) <= 2^d2 * 2^(d1+s-d2-1) = 2^(d1-1) * 2^s <= mx * 2^s *)
    assert (E : 2 ^ d2 * 2 ^ (d1 + s - d2 - 1) = 2 ^ (d1 - 1) * 2 ^ s).
    { rewrite <- !Z.pow_add_r by lia. f_equal. lia. }
    assert (0 < 2 ^ (d1 + s - d2 - 1)) by (apply Z.pow_pos_nonneg; lia).
    nia.
  - apply Z.div_lt_upper_bound; [lia|].
    assert (E : 2 ^ (d2 - 1) * 2 ^ (d1 + s - d2 + 1) = 2 ^ d1 * 2 ^ s).
    { rewrite <- !Z.pow_add_r by lia. f_equal. lia. }
    assert (0 < 2 ^ (d1 + s - d2 + 1)) by (apply Z.pow_pos_nonneg; lia).
    nia.
Qed.

Lemma div_quot_digits (mx my : positive) :
  let d := Zdigits2 (Zpos mx) + div_shift mx my - Zdigits2 (Zpos my) in
  d <= Zdigits2 (div_quot mx my) <= d + 1 /\ 0 < div_quot mx my.
Proof.
  intros d. pose proof (div_quot_bounds mx my) as [[Hlo Hhi] Hd]. fold d in Hlo, Hhi, Hd.
  assert (Hq : 0 < div_quot mx my).
  { pose proof (Z.pow_pos_nonneg 2 (d - 1)). lia. }
  repeat split; [| |exact Hq].
  - apply Zdigits2_ge; lia.
  - apply Zdigits2_le; lia.
Qed.

(** The quotient of two nonzero integers of moderate size: [SFdiv] rounds
    [div_quot], truncated to the exponent [div_exp], down or up. *)
Theorem SFdiv_Z2SF (sx sy : bool) (mx my : positive) :
  Zdigits2 (Zpos my) - Zdigits2 (Zpos mx) <= 1021 ->
  exists m2,
    div_quot mx my / 2 ^ (div_exp mx my + div_shift mx my) <= m2
      <= div_quot mx my / 2 ^ (div_exp mx my + div_shift mx my) + 1 /\
    rounds_to (xorb sx sy) (div_exp mx my) m2
      (SFdiv prec emax (S754_finite sx mx 0) (S754_finite sy my 0)).
Proof.
  intros Hd. cbn [SFdiv].
  destruct (SFdiv_core_Z2SF mx my Hd) as (l & ->).
  pose proof (div_quot_digits mx my) as [[Hd1 Hd2] Hq]. cbv zeta in Hd1, Hd2.
  pose proof (div_quot_bounds mx my) as [_ H53]. cbv zeta in H53.
  assert (Hpre : - div_shift mx my
                 <= fexp (Zdigits2 (div_quot mx my) + - div_shift mx my)).
  { rewrite fexp_eq. lia. }
  destruct (binary_round_aux_spec (xorb sx sy) (div_quot mx my)
              (- div_shift mx my) l Hq Hpre) as (m2 & Hm2 & Hr).
  exists m2. unfold div_exp.
  replace (Zdigits2 (div_quot mx my) - div_shift mx my)
    with (Zdigits2 (div_quot mx my) + - div_shift mx my) by lia.
  split; [|exact Hr].
  replace (fexp (Zdigits2 (div_quot mx my) + - div_shift mx my) + div_shift mx my)
    with (fexp (Zdigits2 (div_quot mx my) + - div_shift mx my) - - div_shift mx my)
    by lia.
  exact Hm2.
Qed.

Lemma rounds_to_nonneg e1 m2 r : rounds_to false e1 m2 r -> nonneg r.
Proof. intros [ | | ]; exact I. Qed.

Lemma rounds_to_not_nan s e1 m2 r : rounds_to s e1 m2 r -> not_nan r.
Proof. intros [ | | ]; discriminate. Qed.

Lemma rounds_to_valid s e1 m2 r : rounds_to s e1 m2 r -> valid_binary r = true.
Proof. intros [ |m3 e3 Hb _ _| ]; [reflexivity|exact Hb|reflexivity]. Qed.

(** The value of what [rounds_to] describes, when it is finite. *)
Lemma rounds_to_value e1 m2 r :
  rounds_to false e1 m2 r -> -1074 <= e1 -> 0 <= m2 ->
  (BV r = scaled m2 e1 \/ r = S754_infinity false).
Proof.
  intros [H0|m3 e3 Hb He Hm|Hinf] He1 Hm2.
  - left. subst m2. unfold scaled. cbn [BV]. lia.
  - left. cbn [BV]. unfold scaled. rewrite <- Hm.
    rewrite <- Z.mul_assoc, <- Z.pow_add_r by lia. do 2 f_equal. lia.
  - now right.
Qed.

Lemma Z2SF_nonzero (x : Z) :
  x <> 0 -> Z2SF x = S754_finite (x <? 0) (Z.to_pos (Z.abs x)) 0.
Proof. destruct x; [congruence| |]; reflexivity. Qed.

(** The truncated quotient has at most 53 digits. *)
Lemma div_quot_truncated (mx my : positive) :
  div_quot mx my / 2 ^ (div_exp mx my + div_shift mx my) < 2 ^ 53.
Proof.
  pose proof (div_quot_digits mx my) as [[Hd1 Hd2] Hq]. cbv zeta in Hd1, Hd2.
  pose proof (div_quot_bounds mx my) as [_ H53]. cbv zeta in H53.
  pose proof (Zdigits2_bounds _ Hq) as [_ Hhi].
  unfold div_exp. rewrite fexp_eq.
  set (dq := Zdigits2 (div_quot mx my)) in *.
  set (s := div_shift mx my) in *.
  set (n := Z.max (dq - s - 53) (-1074) + s).
  assert (Hn : 0 <= n) by (unfold div_shift in s; lia).
  apply Z.div_lt_upper_bound; [apply Z.pow_pos_nonneg; lia|].
  rewrite <- Z.pow_add_r by lia.
  assert (2 ^ dq <= 2 ^ (n + 53)) by (apply Z.pow_le_mono_r; lia). lia.
Qed.

(** No overflow for a dividend of at most 1023 binary digits. *)
Lemma SFdiv_Z2SF_finite (sx sy : bool) (mx my : positive) :
  Zdigits2 (Zpos mx) <= 1023 -> Zdigits2 (Zpos my) <= 1022 ->
  forall s, SFdiv prec emax (S754_finite sx mx 0) (S754_finite sy my 0)
            <> S754_infinity s.
Proof.
  intros Hd1' Hd2' s Hinf.
  pose proof (Zdigits2_pos (Zpos mx) eq_refl) as Hd1.
  pose proof (Zdigits2_pos (Zpos my) eq_refl) as Hd2.
  destruct (SFdiv_Z2SF sx sy mx my ltac:(lia)) as (m2 & Hm2 & Hr).
  rewrite Hinf in Hr. inversion Hr as [ | |Hbig]. subst.
  pose proof (div_quot_truncated mx my) as Htr.
  pose proof (div_quot_digits mx my) as [[Hq1 Hq2] Hq]. cbv zeta in Hq1, Hq2.
  assert (He : div_exp mx my < 971).
  { unfold div_exp. rewrite fexp_eq. unfold div_shift in *. lia. }
  assert (2 ^ 54 <= 2 ^ (1024 - div_exp mx my))
    by (apply Z.pow_le_mono_r; lia).
  change (2 ^ 54) with (2 * 2 ^ 53) in *. lia.
Qed.

Lemma Zdigits2_abs_le (x d : Z) :
  x <> 0 -> Z.abs x < 2 ^ d -> 0 <= d ->
  Zdigits2 (Zpos (Z.to_pos (Z.abs x))) <= d.
Proof.
  intros Hx Hlt Hd.
  assert (Hpos : 0 < Z.abs x) by (clear - Hx; lia).
  rewrite Z2Pos.id by exact Hpos.
  now apply Zdigits2_le.
Qed.

(** True division of integers of moderate size does not raise, and the
    float it returns is the value that [SFdiv] specifies. *)
Theorem int_truediv_ok (x y : Z) :
  y <> 0 -> Z.abs x < 2 ^ 1023 -> Z.abs y < 2 ^ 1022 ->
  exists u, int_truediv x y = Ok u /\
            Prim2SF u = SFdiv prec emax (Z2SF x) (Z2SF y).
Proof.
  intros Hy Hbx Hby. unfold int_truediv.
  destruct (Z.eqb_spec y 0) as [|_]; [contradiction|].
  rewrite (Z2SF_nonzero y Hy).
  destruct (Z.eq_dec x 0) as [->|Hx].
  - cbn [Z2SF SFdiv]. eexists. split; [reflexivity|].
    now apply Prim2SF_SF2Prim.
  - rewrite (Z2SF_nonzero x Hx).
    pose proof (Zdigits2_abs_le x 1023 Hx Hbx ltac:(clear; lia)) as Hd1.
    pose proof (Zdigits2_abs_le y 1022 Hy Hby ltac:(clear; lia)) as Hd2.
    clear Hbx Hby.
    pose proof (SFdiv_Z2SF_finite (x <? 0) (y <? 0) (Z.to_pos (Z.abs x))
                  (Z.to_pos (Z.abs y)) Hd1 Hd2) as Hfin.
    pose proof (Zdigits2_pos (Zpos (Z.to_pos (Z.abs x))) eq_refl) as Hd1'.
    destruct (SFdiv_Z2SF (x <? 0) (y <? 0) (Z.to_pos (Z.abs x))
                (Z.to_pos (Z.abs y)) ltac:(lia)) as (m2 & _ & Hr).
    pose proof (rounds_to_valid _ _ _ _ Hr) as Hv.
    destruct (SFdiv prec emax _ _) as [s|s| |s m e] eqn:E.
    + eexists. split; [reflexivity|]. now apply Prim2SF_SF2Prim.
    + exfalso. now apply (Hfin s).
    + eexists. split; [reflexivity|]. now apply Prim2SF_SF2Prim.
    + eexists. split; [reflexivity|]. now apply Prim2SF_SF2Prim.
Qed.

Lemma pow2_1074_split (e1 : Z) :
  -1074 <= e1 <= 0 -> 2 ^ 1074 = 2 ^ (- e1) * 2 ^ (e1 + 1074).
Proof. intros H. rewrite <- Z.pow_add_r by lia. f_equal. lia. Qed.

(** The quotient of a proper fraction with a denominator below [2^53], as
    [SFdiv] rounds it: the result is [m2 * 2^e1] with [e1 <= -53], where
    [m2] is the floor [m1] of [mx * 2^(-e1) / my] or that plus one. *)
Lemma SFdiv_proper_data (mx my : positive) :
  Zpos mx < Zpos my -> Zpos my < 2 ^ 53 ->
  exists e1 m1 m2,
    -1074 <= e1 <= -53 /\
    m1 = Zpos mx * 2 ^ (- e1) / Zpos my /\
    m1 <= m2 <= m1 + 1 /\
    BV (SFdiv prec emax (S754_finite false mx 0) (S754_finite false my 0))
    = m2 * 2 ^ (e1 + 1074) /\
    valid_binary
      (SFdiv prec emax (S754_finite false mx 0) (S754_finite false my 0))
    = true /\
    nonneg (SFdiv prec emax (S754_finite false mx 0) (S754_finite false my 0)).
Proof.
  intros Hlt Hy.
  pose proof (Zdigits2_pos (Zpos mx) eq_refl) as Hd1.
  pose proof (Zdigits2_pos (Zpos my) eq_refl) as Hd2.
  pose proof (Zdigits2_le (Zpos my) 53 eq_refl Hy ltac:(clear; lia)) as Hd2'.
  pose proof (Zdigits2_mono (Zpos mx) (Zpos my) eq_refl (Z.lt_le_incl _ _ Hlt))
    as Hd12.
  destruct (SFdiv_Z2SF false false mx my ltac:(lia)) as (m2 & Hm2 & Hr).
  cbn [xorb] in Hr.
  pose proof (SFdiv_Z2SF_finite false false mx my ltac:(lia) ltac:(lia))
    as Hfin.
  pose proof (div_quot_digits mx my) as [[Hq1 Hq2] Hq]. cbv zeta in Hq1, Hq2.
  set (s := div_shift mx my) in *.
  set (q := div_quot mx my) in *.
  set (e1 := div_exp mx my) in *.
  assert (Hs : s = 53 + Zdigits2 (Zpos my) - Zdigits2 (Zpos mx))
    by (unfold s, div_shift; lia).
  assert (Hps : 0 < 2 ^ s) by (apply Z.pow_pos_nonneg; lia).
  (* the quotient is below 2^s *)
  assert (Hqs : q < 2 ^ s).
  { unfold q, div_quot. fold s. apply Z.div_lt_upper_bound; [lia|]. nia. }
  assert (Hdq : Zdigits2 q <= s) by (apply Zdigits2_le; lia).
  assert (He1 : -1074 <= e1 <= -53).
  { unfold e1, div_exp. fold q s. rewrite fexp_eq. lia. }
  assert (Hn : 0 <= e1 + s).
  { unfold e1, div_exp. fold q s. rewrite fexp_eq. lia. }
  assert (Hm1 : 0 <= q / 2 ^ (e1 + s)) by (apply div_pow2_nonneg; lia).
  exists e1, (q / 2 ^ (e1 + s)), m2.
  split; [exact He1|]. split.
  - (* the two floors are one *)
    unfold q, div_quot. fold s.
    rewrite Z.div_div by (try apply Z.pow_pos_nonneg; lia).
    replace (2 ^ s) with (2 ^ (- e1) * 2 ^ (e1 + s))
      by (rewrite <- Z.pow_add_r by lia; f_equal; lia).
    rewrite Z.mul_assoc.
    apply Z.div_mul_cancel_r; [lia|]. apply Z.pow_nonzero; lia.
  - split; [exact Hm2|].
    split; [|split; [eapply rounds_to_valid, Hr|eapply rounds_to_nonneg, Hr]].
    destruct (rounds_to_value e1 m2 _ Hr ltac:(lia) ltac:(lia)) as [Hv|Hinf];
      [exact Hv|exfalso; now apply (Hfin false)].
Qed.

(** Such a fraction rounds to a float below 1. *)
Lemma SFdiv_proper_fraction (mx my : positive) :
  Zpos mx < Zpos my -> Zpos my < 2 ^ 53 ->
  0 <= BV (SFdiv prec emax (S754_finite false mx 0) (S754_finite false my 0))
    < 2 ^ 1074.
Proof.
  intros Hlt Hy.
  destruct (SFdiv_proper_data mx my Hlt Hy)
    as (e1 & m1 & m2 & He1 & Hm1 & Hm2 & Hv & _ & _).
  rewrite Hv, (pow2_1074_split e1) by lia.
  assert (HU : 0 < 2 ^ (e1 + 1074)) by (apply Z.pow_pos_nonneg; lia).
  assert (HA : 2 ^ 53 <= 2 ^ (- e1)) by (apply Z.pow_le_mono_r; lia).
  assert (Hfl : Zpos my * m1 <= Zpos mx * 2 ^ (- e1))
    by (rewrite Hm1; apply Z.mul_div_le; lia).
  assert (H0 : 0 <= m1).
  { rewrite Hm1. apply Z.div_pos; [|lia].
    apply Z.mul_nonneg_nonneg; [lia|]. apply Z.pow_nonneg. lia. }
  split; [apply Z.mul_nonneg_nonneg; lia|].
  apply Z.mul_lt_mono_pos_r; [exact HU|].
  clear Hv Hm1 HU. set (A := 2 ^ (- e1)) in *. clearbody A. nia.
Qed.

(** It is within one unit [2^e1 <= 2^-53] of the exact quotient:
    [my * B] is within [my * 2^1021] of [mx * 2^1074]. *)
Lemma SFdiv_proper_bracket (mx my : positive) :
  Zpos mx < Zpos my -> Zpos my < 2 ^ 53 ->
  let B := BV (SFdiv prec emax (S754_finite false mx 0)
                 (S754_finite false my 0)) in
  Zpos mx * 2 ^ 1074 - Zpos my * 2 ^ 1021 < Zpos my * B
  /\ Zpos my * B <= Zpos mx * 2 ^ 1074 + Zpos my * 2 ^ 1021.
Proof.
  intros Hlt Hy B. subst B.
  destruct (SFdiv_proper_data mx my Hlt Hy)
    as (e1 & m1 & m2 & He1 & Hm1 & Hm2 & Hv & _ & _).
  rewrite Hv, (pow2_1074_split e1) by lia.
  assert (HU : 0 < 2 ^ (e1 + 1074)) by (apply Z.pow_pos_nonneg; lia).
  assert (HW : 2 ^ (e1 + 1074) <= 2 ^ 1021) by (apply Z.pow_le_mono_r; lia).
  assert (HA : 0 < 2 ^ (- e1)) by (apply Z.pow_pos_nonneg; lia).
  assert (Hfl : Zpos my * m1 <= Zpos mx * 2 ^ (- e1))
    by (rewrite Hm1; apply Z.mul_div_le; lia).
  assert (Hce : Zpos mx * 2 ^ (- e1) < Zpos my * (m1 + 1)).
  { rewrite Hm1, Z.add_1_r. apply Z.mul_succ_div_gt. lia. }
  assert (H0 : 0 <= m1).
  { rewrite Hm1. apply Z.div_pos; [|lia].
    apply Z.mul_nonneg_nonneg; lia. }
  clear Hv Hm1.
  set (A := 2 ^ (- e1)) in *. set (U := 2 ^ (e1 + 1074)) in *.
  set (W := 2 ^ 1021) in *. clearbody A U W.
  split.
  - (* my * m2 * U >= my * m1 * U > (mx * A - my) * U *)
    assert (H1 : (Zpos mx * A - Zpos my) * U < Zpos my * m1 * U)
      by (apply Z.mul_lt_mono_pos_r; lia).
    assert (H2 : Zpos my * m1 * U <= Zpos my * m2 * U)
      by (apply Z.mul_le_mono_nonneg_r; nia).
    assert (H3 : Zpos my * U <= Zpos my * W)
      by (apply Z.mul_le_mono_nonneg_l; lia).
    lia.
  - assert (H1 : Zpos my * m2 * U <= Zpos my * (m1 + 1) * U)
      by (apply Z.mul_le_mono_nonneg_r; nia).
    assert (H2 : Zpos my * m1 * U <= Zpos mx * A * U)
      by (apply Z.mul_le_mono_nonneg_r; lia).
    assert (H3 : Zpos my * U <= Zpos my * W)
      by (apply Z.mul_le_mono_nonneg_l; lia).
    lia.
Qed.

Lemma lt_pow2_mono (x a b : Z) : x < 2 ^ a -> a <= b -> x < 2 ^ b.
Proof.
  intros Hx Hab. apply Z.lt_le_trans with (2 ^ a); [exact Hx|].
  apply Z.pow_le_mono_r; lia.
Qed.

Theorem int_truediv_unit_interval (x m : Z) :
  0 <= x < m -> m < 2 ^ 53 ->
  exists u, int_truediv x m = Ok u /\
            PrimFloat.leb 0 u = true /\ PrimFloat.ltb u 1 = true.
Proof.
  intros Hx Hm.
  assert (Hax : Z.abs x < 2 ^ 53) by lia.
  assert (Ham : Z.abs m < 2 ^ 53) by lia.
  destruct (int_truediv_ok x m ltac:(lia)
              (lt_pow2_mono _ 53 1023 Hax ltac:(clear; lia))
              (lt_pow2_mono _ 53 1022 Ham ltac:(clear; lia)))
    as (u & Hu & Hsf).
  exists u. split; [exact Hu|].
  rewrite leb_spec, ltb_spec, Hsf.
  assert (Hb : 0 <= BV (SFdiv prec emax (Z2SF x) (Z2SF m)) < 2 ^ 1074).
  { destruct (Z.eq_dec x 0) as [->|Hx0].
    - rewrite (Z2SF_nonzero m) by lia. cbn [Z2SF SFdiv BV].
      split; [apply Z.le_refl|]. apply Z.pow_pos_nonneg; clear; lia.
    - rewrite (Z2SF_nonzero x), (Z2SF_nonzero m) by lia.
      replace (x <? 0) with false by (symmetry; apply Z.ltb_ge; lia).
      replace (m <? 0) with false by (symmetry; apply Z.ltb_ge; lia).
      apply SFdiv_proper_fraction; lia. }
  assert (Hv : valid_binary (SFdiv prec emax (Z2SF x) (Z2SF m)) = true)
    by (rewrite <- Hsf; apply Prim2SF_valid).
  assert (Hn : not_nan (SFdiv prec emax (Z2SF x) (Z2SF m))).
  { destruct (Z.eq_dec x 0) as [->|Hx0].
    - rewrite (Z2SF_nonzero m) by lia. discriminate.
    - rewrite (Z2SF_nonzero x), (Z2SF_nonzero m) by lia.
      pose proof (Zdigits2_pos (Zpos (Z.to_pos (Z.abs x))) eq_refl).
      pose proof (Zdigits2_abs_le m 53 ltac:(lia) Ham ltac:(clear; lia)).
      destruct (SFdiv_Z2SF (x <? 0) (m <? 0) (Z.to_pos (Z.abs x))
                  (Z.to_pos (Z.abs m)) ltac:(lia)) as (m2 & _ & Hr).
      eapply rounds_to_not_nan, Hr. }
  unfold SFleb, SFltb.
  rewrite (SFcompare_BV (Prim2SF 0) _ eq_refl Hv ltac:(discriminate) Hn).
  rewrite (SFcompare_BV _ (Prim2SF 1) Hv eq_refl Hn ltac:(discriminate)).
  change (BV (Prim2SF 0)) with 0.
  change (Prim2SF 1) with SFone. rewrite BV_SFone.
  destruct Hb as [Hb0 Hb1]. split.
  - destruct (Z.compare_spec 0 (BV (SFdiv prec emax (Z2SF x) (Z2SF m))))
      as [E|L|G]; try reflexivity.
    exfalso. exact (Z.lt_irrefl _ (Z.le_lt_trans _ _ _ Hb0 G)).
  - now apply Z.compare_lt_iff in Hb1 as ->.
Qed.

(** ** Rounding an exact value *)

Lemma iter_xO_mul (m d : positive) :
  Zpos (Pos.iter xO m d) = Zpos m * 2 ^ Zpos d.
Proof.
  change (Pos.iter xO m d) with (shift_pos d m).
  rewrite shift_pos_correct. change (Z.pow_pos 2 d) with (2 ^ Zpos d). lia.
Qed.

Lemma shl_align_spec (mx : positive) (ex ex' : Z) :
  Zpos (fst (shl_align mx ex ex')) = Zpos mx * 2 ^ (ex - Z.min ex ex') /\
  snd (shl_align mx ex ex') = Z.min ex ex'.
Proof.
  unfold shl_align. destruct (ex' - ex) as [|d|d] eqn:E; cbn [fst snd].
  - rewrite Z.min_l by lia. rewrite Z.sub_diag. cbn. split; lia.
  - rewrite Z.min_l by lia. rewrite Z.sub_diag. cbn. split; lia.
  - rewrite Z.min_r by lia. rewrite iter_xO_mul. split; [|reflexivity].
    do 2 f_equal. lia.
Qed.

Lemma Zdigits2_mul_pow2 (m k : Z) :
  0 < m -> 0 <= k -> Zdigits2 (m * 2 ^ k) = Zdigits2 m + k.
Proof.
  intros Hm Hk.
  pose proof (Zdigits2_bounds m Hm) as [Hlo Hhi].
  pose proof (Zdigits2_pos m Hm) as Hd.
  assert (Hp : 0 < 2 ^ k) by (apply Z.pow_pos_nonneg; lia).
  apply Zdigits2_unique; [|lia]. split.
  - replace (Zdigits2 m + k - 1) with (Zdigits2 m - 1 + k) by lia.
    rewrite Z.pow_add_r by lia. nia.
  - rewrite Z.pow_add_r by lia. nia.
Qed.

Theorem binary_round_spec (s : bool) (m : positive) (e : Z) :
  let e1 := fexp (Zdigits2 (Zpos m) + e) in
  exists m2,
    at_exponent (Zpos m) e e1 <= m2 <= at_exponent (Zpos m) e e1 + 1 /\
    rounds_to s e1 m2 (binary_round prec emax s m e).
Proof.
  intros e1. unfold binary_round.
  pose proof (shl_align_spec m e e1) as [Hmz Hez].
  change (Zpos (digits2_pos m)) with (Zdigits2 (Zpos m)). fold e1.
  destruct (shl_align m e e1) as [mz ez]. cbn [fst snd] in Hmz, Hez.
  unfold at_exponent.
  destruct (Z.leb_spec e1 e) as [Hle|Hgt].
  - (* the mantissa is shifted left to the exponent e1: nothing is lost *)
    rewrite Z.min_r in Hmz, Hez by lia. subst ez.
    assert (Hd : Zdigits2 (Zpos mz) + e1 = Zdigits2 (Zpos m) + e).
    { rewrite Hmz, Zdigits2_mul_pow2 by lia. lia. }
    assert (Hpre : e1 <= fexp (Zdigits2 (Zpos mz) + e1))
      by (rewrite Hd; fold e1; lia).
    destruct (binary_round_aux_spec s (Zpos mz) e1 loc_Exact ltac:(lia) Hpre)
      as (m2 & Hm2 & Hr).
    rewrite Hd in Hm2, Hr. fold e1 in Hm2, Hr.
    rewrite Z.sub_diag in Hm2. cbn [Z.pow] in Hm2. rewrite Z.div_1_r in Hm2.
    exists m2. rewrite <- Hmz. split; assumption.
  - rewrite Z.min_l in Hmz, Hez by lia. subst ez.
    rewrite Z.sub_diag in Hmz. cbn [Z.pow] in Hmz.
    assert (mz = m) by lia. subst mz.
    apply binary_round_aux_spec; [lia|fold e1; lia].
Qed.

(** The scaled value of the mantissa at the exponent of the result is at
    most the exact value, and it is not below any canonical number that
    the exact value is not below. *)
Lemma at_exponent_le (m e : Z) :
  0 < m -> -1074 <= e ->
  scaled (at_exponent m e (fexp (Zdigits2 m + e))) (fexp (Zdigits2 m + e))
  <= scaled m e.
Proof.
  intros Hm He. unfold at_exponent, scaled.
  set (e1 := fexp (Zdigits2 m + e)).
  assert (He1 : -1074 <= e1) by (unfold e1; rewrite fexp_eq; lia).
  destruct (Z.leb_spec e1 e) as [Hle|Hgt].
  - rewrite <- Z.mul_assoc, <- Z.pow_add_r by lia.
    replace (e - e1 + (e1 + 1074)) with (e + 1074) by lia. lia.
  - replace (e1 + 1074) with (e1 - e + (e + 1074)) by lia.
    rewrite Z.pow_add_r by lia.
    assert (0 < 2 ^ (e1 - e)) by (apply Z.pow_pos_nonneg; lia).
    assert (0 < 2 ^ (e + 1074)) by (apply Z.pow_pos_nonneg; lia).
    pose proof (Z.mul_div_le m (2 ^ (e1 - e)) ltac:(lia)). nia.
Qed.

Lemma at_exponent_ge_canonical (m e mx ex : Z) :
  0 < m -> -1074 <= e -> 0 < mx -> canonical mx ex ->
  scaled mx ex <= scaled m e ->
  scaled mx ex
  <= scaled (at_exponent m e (fexp (Zdigits2 m + e))) (fexp (Zdigits2 m + e)).
Proof.
  intros Hm He Hmx Hc Hle. unfold at_exponent.
  set (e1 := fexp (Zdigits2 m + e)).
  assert (He1 : -1074 <= e1) by (unfold e1; rewrite fexp_eq; lia).
  pose proof (canonical_emin mx ex Hc) as Hex.
  destruct (Z.leb_spec e1 e) as [Hle1|Hgt].
  - unfold scaled in *. rewrite <- Z.mul_assoc, <- Z.pow_add_r by lia.
    replace (e - e1 + (e1 + 1074)) with (e + 1074) by lia. exact Hle.
  - unfold scaled in *.
    assert (Hpn : 0 < 2 ^ (e1 - e)) by (apply Z.pow_pos_nonneg; lia).
    assert (Hpe : 0 < 2 ^ (e + 1074)) by (apply Z.pow_pos_nonneg; lia).
    assert (Hp1 : 2 ^ (e1 + 1074) = 2 ^ (e1 - e) * 2 ^ (e + 1074)).
    { rewrite <- Z.pow_add_r by lia. f_equal. lia. }
    destruct (Z.le_gt_cases e1 ex) as [Hlow|Hhigh].
    + (* the canonical number is a multiple of the unit of the result *)
      assert (Hpx : 2 ^ (ex + 1074) = 2 ^ (ex - e1) * 2 ^ (e1 + 1074)).
      { rewrite <- Z.pow_add_r by lia. f_equal. lia. }
      assert (Hpp : 0 < 2 ^ (ex - e1)) by (apply Z.pow_pos_nonneg; lia).
      assert (Hq : mx * 2 ^ (ex - e1) <= m / 2 ^ (e1 - e)).
      { apply Z.div_le_lower_bound; [exact Hpn|]. nia. }
      rewrite Hpx. rewrite Hp1 in *. nia.
    + (* the result has all its 53 digits and a larger exponent *)
      pose proof (canonical_upper mx ex Hmx Hc) as Hup.
      assert (Hd : Zdigits2 m + e - 53 = e1)
        by (unfold e1 in *; rewrite fexp_eq in *; lia).
      assert (Hdig : Zdigits2 (m / 2 ^ (e1 - e)) = 53).
      { rewrite Zdigits2_div_pow2; lia. }
      assert (Hm1 : 2 ^ 52 <= m / 2 ^ (e1 - e)).
      { assert (Hpos : 0 < m / 2 ^ (e1 - e)).
        { destruct (Z.le_gt_cases (m / 2 ^ (e1 - e)) 0) as [H0|H0]; [|exact H0].
          assert (m / 2 ^ (e1 - e) = 0)
            by (pose proof (div_pow2_nonneg m (e1 - e) ltac:(lia)); lia).
          rewrite H in Hdig. discriminate. }
        pose proof (Zdigits2_bounds _ Hpos) as [Hlo _]. rewrite Hdig in Hlo.
        exact Hlo. }
      assert (Hpx : 2 * 2 ^ (ex + 1074) <= 2 ^ (e1 + 1074)).
      { rewrite <- Z.pow_succ_r by lia. apply Z.pow_le_mono_r; lia. }
      assert (0 < 2 ^ (ex + 1074)) by (apply Z.pow_pos_nonneg; lia).
      change (2 ^ 53) with (2 * 2 ^ 52) in Hup. nia.
Qed.

(** ** Addition of non-negative numbers *)

Lemma scaled_mono (m m' e : Z) :
  -1074 <= e -> m <= m' -> scaled m e <= scaled m' e.
Proof.
  intros He Hm. unfold scaled.
  assert (0 < 2 ^ (e + 1074)) by (apply Z.pow_pos_nonneg; lia). nia.
Qed.

Lemma rounds_to_lower (e1 m2 lower : Z) (r : spec_float) :
  rounds_to false e1 m2 r -> -1074 <= e1 -> 0 <= lower <= m2 ->
  scaled lower e1 < huge ->
  scaled lower e1 <= BV r.
Proof.
  intros Hr He Hl Hh.
  destruct (rounds_to_value e1 m2 r Hr He ltac:(lia)) as [Hv| ->].
  - rewrite Hv. apply scaled_mono; lia.
  - cbn [BV]. lia.
Qed.

Lemma two_2098_lt_huge : 2 * 2 ^ 2098 < huge.
Proof.
  unfold huge. rewrite <- Z.pow_succ_r by lia. apply Z.pow_lt_mono_r; lia.
Qed.

(** The exact sum of two aligned mantissas. *)
Lemma aligned_sum (mx my : positive) (ex ey : Z) :
  -1074 <= ex -> -1074 <= ey ->
  scaled (Zpos (fst (shl_align mx ex (Z.min ex ey))) +
          Zpos (fst (shl_align my ey (Z.min ex ey)))) (Z.min ex ey)
  = scaled (Zpos mx) ex + scaled (Zpos my) ey.
Proof.
  intros Hx Hy.
  pose proof (shl_align_spec mx ex (Z.min ex ey)) as [Ha _].
  pose proof (shl_align_spec my ey (Z.min ex ey)) as [Hb _].
  rewrite Ha, Hb. unfold scaled.
  set (ez := Z.min ex ey).
  replace (Z.min ex ez) with ez by lia.
  replace (Z.min ey ez) with ez by lia.
  rewrite Z.mul_add_distr_r, <- !Z.mul_assoc, <- !Z.pow_add_r by lia.
  replace (ex - ez + (ez + 1074)) with (ex + 1074) by lia.
  replace (ey - ez + (ez + 1074)) with (ey + 1074) by lia.
  reflexivity.
Qed.

Lemma SFadd_finite_ge (mx my : positive) (ex ey : Z) :
  bounded prec emax mx ex = true -> bounded prec emax my ey = true ->
  nonneg (SFadd prec emax (S754_finite false mx ex) (S754_finite false my ey)) /\
  scaled (Zpos mx) ex
  <= BV (SFadd prec emax (S754_finite false mx ex) (S754_finite false my ey)).
Proof.
  intros Bx By.
  apply bounded_canonical in Bx as [Cx Hx].
  apply bounded_canonical in By as [Cy Hy].
  pose proof (canonical_emin _ _ Cx) as Hex.
  pose proof (canonical_emin _ _ Cy) as Hey.
  cbn [SFadd cond_Zopp].
  pose proof (aligned_sum mx my ex ey Hex Hey) as Hsum.
  set (ez := Z.min ex ey) in *.
  set (a := fst (shl_align mx ex ez)) in *.
  set (b := fst (shl_align my ey ez)) in *.
  change (Zpos a + Zpos b) with (Zpos (a + b)) in *.
  cbn [binary_normalize].
  destruct (binary_round_spec false (a + b)%positive ez) as (m2 & Hm2 & Hr).
  cbv zeta in Hm2, Hr.
  set (e1 := fexp (Zdigits2 (Zpos (a + b)) + ez)) in *.
  assert (He1 : -1074 <= e1) by (unfold e1; rewrite fexp_eq; lia).
  split; [eapply rounds_to_nonneg, Hr|].
  pose proof (scaled_pos (Zpos my) ey ltac:(lia) Hey) as Hpy.
  pose proof (at_exponent_le (Zpos (a + b)) ez ltac:(lia) ltac:(lia)) as Hle.
  fold e1 in Hle.
  pose proof (at_exponent_ge_canonical (Zpos (a + b)) ez (Zpos mx) ex
                ltac:(lia) ltac:(lia) ltac:(lia) Cx ltac:(lia)) as Hge.
  fold e1 in Hge.
  assert (Hnn : 0 <= at_exponent (Zpos (a + b)) ez e1).
  { unfold at_exponent. destruct (e1 <=? ez).
    - apply Z.mul_nonneg_nonneg; [lia|]. apply Z.pow_nonneg. lia.
    - apply div_pow2_nonneg. lia. }
  etransitivity; [exact Hge|].
  apply (rounds_to_lower e1 m2 _ _ Hr He1); [lia|].
  pose proof (scaled_lt_2098 (Zpos mx) ex eq_refl Cx Hx) as Hbx.
  pose proof (scaled_lt_2098 (Zpos my) ey eq_refl Cy Hy) as Hby.
  pose proof two_2098_lt_huge as Hh.
  clear - Hbx Hby Hh Hle Hsum.
  set (Q := 2 ^ 2098) in *. clearbody Q. lia.
Qed.

Theorem SFadd_nonneg (x p : spec_float) :
  valid_binary x = true -> valid_binary p = true ->
  nonneg x -> nonneg p ->
  nonneg (SFadd prec emax x p) /\ BV x <= BV (SFadd prec emax x p).
Proof.
  intros Vx Vp Nx Np.
  pose proof (nonneg_BV p Vp Np) as Hp0.
  pose proof huge_pos as Hh.
  destruct x as [sx|[]| |[] mx ex]; try contradiction;
    destruct p as [sp|[]| |[] mp ep]; try contradiction;
    cbn [valid_binary] in Vx, Vp.
  - destruct sx, sp; cbn; split; (exact I || lia).
  - cbn. split; [exact I|lia].
  - cbn [SFadd]. split; [exact I|]. cbn [BV] in *. lia.
  - cbn. split; [exact I|lia].
  - cbn. split; [exact I|lia].
  - cbn [SFadd]. split; [exact I|]. cbn [BV]. lia.
  - cbn [SFadd]. split; [exact I|]. cbn [BV]. lia.
  - cbn [SFadd]. split; [exact I|]. cbn [BV].
    apply bounded_canonical in Vx as [Cx Hx].
    pose proof (scaled_lt_huge (Zpos mx) ex ltac:(lia) Cx Hx). lia.
  - cbn [BV]. now apply SFadd_finite_ge.
Qed.

(** ** The same on floats *)

Lemma leb_zero_fnonneg (p : float) : PrimFloat.leb 0 p = true -> fnonneg p.
Proof.
  rewrite leb_spec. unfold fnonneg.
  change (Prim2SF 0) with (S754_zero false).
  destruct (Prim2SF p) as [s|[]| |[] m e]; cbn; (discriminate || trivial).
Qed.

Lemma add_fnonneg (x p : float) :
  fnonneg x -> fnonneg p ->
  fnonneg (PrimFloat.add x p) /\ FV x <= FV (PrimFloat.add x p).
Proof.
  unfold fnonneg, FV. rewrite add_spec. intros Hx Hp.
  apply SFadd_nonneg; (apply Prim2SF_valid || assumption).
Qed.

Lemma leb_FV (x y : float) :
  not_nan (Prim2SF x) -> not_nan (Prim2SF y) ->
  PrimFloat.leb x y = (FV x <=? FV y).
Proof.
  intros Hx Hy. rewrite leb_spec. unfold SFleb, FV.
  rewrite (SFcompare_BV _ _ (Prim2SF_valid x) (Prim2SF_valid y) Hx Hy).
  unfold Z.leb. now destruct (BV (Prim2SF x) ?= BV (Prim2SF y)).
Qed.

Lemma fold_add_fnonneg (ps : list float) : forall s : float,
  fnonneg s -> (forall p, In p ps -> fnonneg p) ->
  fnonneg (fold_left PrimFloat.add ps s) /\
  FV s <= FV (fold_left PrimFloat.add ps s).
Proof.
  induction ps as [|p ps IH]; intros s Hs Hps.
  - cbn. split; [exact Hs|lia].
  - cbn [fold_left].
    destruct (add_fnonneg s p Hs (Hps p (or_introl eq_refl))) as [Hn Hle].
    destruct (IH (PrimFloat.add s p) Hn
                (fun q Hq => Hps q (or_intror Hq))) as [Hn' Hle'].
    split; [exact Hn'|lia].
Qed.

(** ** Distance from 1 *)

Lemma SFleb_BV (x y : spec_float) :
  valid_binary x = true -> valid_binary y = true ->
  SFleb x y = true -> BV x <= BV y.
Proof.
  intros Vx Vy H. unfold SFleb in H.
  assert (Nx : not_nan x) by (intros ->; discriminate).
  assert (Ny : not_nan y) by (intros ->; destruct x; discriminate).
  rewrite (SFcompare_BV x y Vx Vy Nx Ny) in H.
  destruct (Z.compare_spec (BV x) (BV y)); (lia || discriminate).
Qed.

Lemma rounds_to_abs (s : bool) (e1 m2 : Z) (r : spec_float) :
  rounds_to s e1 m2 r -> rounds_to false e1 m2 (SFabs r).
Proof.
  intros [H0|m3 e3 Hb He Hm|Hinf]; cbn [SFabs].
  - now apply rounds_zero.
  - now apply rounds_finite.
  - now apply rounds_infinity.
Qed.

(** Rounding loses at most half of the value. *)
Lemma binary_round_abs_lower (s : bool) (m : positive) (e : Z) :
  -1074 <= e ->
  BV (SFabs (binary_round prec emax s m e)) = huge \/
  scaled (Zpos m) e <= 2 * BV (SFabs (binary_round prec emax s m e)).
Proof.
  intros He.
  destruct (binary_round_spec s m e) as (m2 & Hm2 & Hr). cbv zeta in Hm2, Hr.
  set (e1 := fexp (Zdigits2 (Zpos m) + e)) in *.
  assert (He1 : -1074 <= e1) by (unfold e1; rewrite fexp_eq; lia).
  apply rounds_to_abs in Hr.
  assert (Hnn : 0 <= at_exponent (Zpos m) e e1).
  { unfold at_exponent. destruct (e1 <=? e).
    - apply Z.mul_nonneg_nonneg; [lia|]. apply Z.pow_nonneg. lia.
    - apply div_pow2_nonneg. lia. }
  destruct (rounds_to_value e1 m2 _ Hr He1 ltac:(lia)) as [Hv|Hinf];
    [right|left; now rewrite Hinf].
  rewrite Hv. unfold at_exponent in Hm2, Hnn. unfold scaled.
  assert (Hpe : 0 < 2 ^ (e + 1074)) by (apply Z.pow_pos_nonneg; lia).
  destruct (Z.leb_spec e1 e) as [Hle|Hgt].
  - replace (e + 1074) with (e - e1 + (e1 + 1074)) by lia.
    rewrite Z.pow_add_r by lia.
    assert (HB : 0 < 2 ^ (e1 + 1074)) by (apply Z.pow_pos_nonneg; lia).
    assert (HA : 0 < 2 ^ (e - e1)) by (apply Z.pow_pos_nonneg; lia).
    rewrite Z.mul_assoc.
    assert (Hs : Zpos m * 2 ^ (e - e1) * 2 ^ (e1 + 1074)
                 <= m2 * 2 ^ (e1 + 1074))
      by (apply Z.mul_le_mono_nonneg_r; lia).
    assert (0 <= m2 * 2 ^ (e1 + 1074)) by (apply Z.mul_nonneg_nonneg; lia).
    lia.
  - assert (Hpn : 0 < 2 ^ (e1 - e)) by (apply Z.pow_pos_nonneg; lia).
    replace (e1 + 1074) with (e1 - e + (e + 1074)) by lia.
    rewrite (Z.pow_add_r 2 (e1 - e) (e + 1074)) by lia.
    (* at least one unit is left after the truncation *)
    assert (Hone : 1 <= Zpos m / 2 ^ (e1 - e)).
    { destruct (Z.eq_dec (Zpos m / 2 ^ (e1 - e)) 0) as [H0|H0]; [|lia].
      exfalso. unfold e1 in H0, Hgt.
      pose proof (truncate_to_zero (Zpos m) e ltac:(lia) H0 ltac:(lia)). lia. }
    assert (Hlt : Zpos m < (Zpos m / 2 ^ (e1 - e) + 1) * 2 ^ (e1 - e)).
    { pose proof (Z.mod_pos_bound (Zpos m) (2 ^ (e1 - e)) Hpn).
      pose proof (Z.div_mod (Zpos m) (2 ^ (e1 - e)) ltac:(lia)). nia. }
    set (l := Zpos m / 2 ^ (e1 - e)) in *.
    assert (Hl2 : (l + 1) * 2 ^ (e1 - e) <= 2 * m2 * 2 ^ (e1 - e))
      by (apply Z.mul_le_mono_nonneg_r; lia).
    assert (Hfin : Zpos m * 2 ^ (e + 1074)
                   <= 2 * m2 * 2 ^ (e1 - e) * 2 ^ (e + 1074))
      by (apply Z.mul_le_mono_nonneg_r; lia).
    lia.
Qed.

(** The exact difference of two aligned mantissas. *)
Lemma aligned_diff (mx my : positive) (ex ey : Z) :
  -1074 <= ex -> -1074 <= ey ->
  scaled (Zpos (fst (shl_align mx ex (Z.min ex ey))) -
          Zpos (fst (shl_align my ey (Z.min ex ey)))) (Z.min ex ey)
  = scaled (Zpos mx) ex - scaled (Zpos my) ey.
Proof.
  intros Hx Hy.
  pose proof (shl_align_spec mx ex (Z.min ex ey)) as [Ha _].
  pose proof (shl_align_spec my ey (Z.min ex ey)) as [Hb _].
  rewrite Ha, Hb. unfold scaled.
  set (ez := Z.min ex ey).
  replace (Z.min ex ez) with ez by lia.
  replace (Z.min ey ez) with ez by lia.
  rewrite Z.mul_sub_distr_r, <- !Z.mul_assoc, <- !Z.pow_add_r by lia.
  replace (ex - ez + (ez + 1074)) with (ex + 1074) by lia.
  replace (ey - ez + (ez + 1074)) with (ey + 1074) by lia.
  reflexivity.
Qed.

Lemma BV_SFone_bounds : 0 < BV SFone < huge.
Proof.
  rewrite BV_SFone. unfold huge. split.
  - apply Z.pow_pos_nonneg; lia.
  - apply Z.pow_lt_mono_r; lia.
Qed.

Lemma SFsub_SFone_bound (x c : spec_float) :
  valid_binary x = true -> nonneg x -> valid_binary c = true ->
  valid_binary (SFabs (SFsub prec emax x SFone)) = true ->
  SFleb (SFabs (SFsub prec emax x SFone)) c = true ->
  Z.abs (BV x - BV SFone) <= 2 * BV c.
Proof.
  intros Vx Nx Vc Vr Hle.
  pose proof (SFleb_BV _ _ Vr Vc Hle) as Hbv. clear Hle.
  pose proof huge_pos as Hh.
  pose proof BV_SFone_bounds as [HP HPh].
  destruct x as [sx|[]| |[] mx ex]; try contradiction; cbn [valid_binary] in Vx.
  - change (SFabs (SFsub prec emax (S754_zero sx) SFone)) with SFone in Hbv.
    change (BV (S754_zero sx)) with 0. lia.
  - change (BV (SFabs (SFsub prec emax (S754_infinity false) SFone)))
      with huge in Hbv.
    change (BV (S754_infinity false)) with huge. lia.
  - apply bounded_canonical in Vx as [Cx Hx].
    pose proof (canonical_emin _ _ Cx) as Hex.
    pose proof (scaled_pos (Zpos mx) ex eq_refl Hex) as Hpx.
    pose proof (aligned_diff mx 4503599627370496 ex (-52) Hex ltac:(lia))
      as Hdiff.
    change (scaled (Zpos 4503599627370496) (-52)) with (BV SFone) in Hdiff.
    change (SFsub prec emax (S754_finite false mx ex) SFone)
      with (binary_normalize prec emax
              (Zpos (fst (shl_align mx ex (Z.min ex (-52)))) -
               Zpos (fst (shl_align 4503599627370496 (-52) (Z.min ex (-52)))))
              (Z.min ex (-52)) false) in Hbv.
    set (ez := Z.min ex (-52)) in *.
    assert (Hez : -1074 <= ez) by (unfold ez; lia).
    set (a := fst (shl_align mx ex ez)) in *.
    set (b := fst (shl_align 4503599627370496 (-52) ez)) in *.
    change (BV (S754_finite false mx ex)) with (scaled (Zpos mx) ex).
    pose proof (scaled_lt_2098 (Zpos mx) ex eq_refl Cx Hx) as Hbx.
    pose proof two_2098_lt_huge as H98.
    destruct (Zpos a - Zpos b) as [|d|d] eqn:Ed.
    + unfold scaled in Hdiff at 1. rewrite Z.mul_0_l in Hdiff.
      change (BV (SFabs (binary_normalize prec emax 0 ez false))) with 0 in Hbv.
      clear - Hdiff Hbv. lia.
    + change (binary_normalize prec emax (Zpos d) ez false)
        with (binary_round prec emax false d ez) in Hbv.
      pose proof (scaled_pos (Zpos d) ez eq_refl Hez) as Hpd.
      destruct (binary_round_abs_lower false d ez Hez) as [Hlow|Hlow];
        clear - Hbv Hlow Hdiff Hh HP HPh Hbx Hpx H98 Hpd;
        set (Q := 2 ^ 2098) in *; clearbody Q; lia.
    + change (binary_normalize prec emax (Zneg d) ez false)
        with (binary_round prec emax true d ez) in Hbv.
      assert (Hneg : scaled (Zpos d) ez = - (scaled (Zpos mx) ex - BV SFone)).
      { rewrite <- Hdiff. unfold scaled. clear. lia. }
      pose proof (scaled_pos (Zpos d) ez eq_refl Hez) as Hpd.
      destruct (binary_round_abs_lower true d ez Hez) as [Hlow|Hlow];
        clear - Hbv Hlow Hneg Hh HP HPh Hbx Hpx H98 Hpd;
        set (Q := 2 ^ 2098) in *; clearbody Q; lia.
Qed.

Theorem SFsub_one_bound (x c : spec_float) :
  valid_binary x = true -> nonneg x -> valid_binary c = true ->
  valid_binary (SFabs (SFsub prec emax x SFone)) = true ->
  SFleb (SFabs (SFsub prec emax x SFone)) c = true ->
  Z.abs (BV x - 2 ^ 1074) <= 2 * BV c.
Proof. rewrite <- BV_SFone. apply SFsub_SFone_bound. Qed.

Lemma sub_one_bound (s c : float) :
  fnonneg s ->
  PrimFloat.leb (abs (PrimFloat.sub s 1)) c = true ->
  Z.abs (FV s - 2 ^ 1074) <= 2 * FV c.
Proof.
  intros Hs Hle. unfold FV.
  rewrite leb_spec in Hle.
  pose proof (Prim2SF_valid (abs (PrimFloat.sub s 1))) as Vr.
  rewrite abs_spec, sub_spec in Hle, Vr.
  change (Prim2SF 1) with SFone in Hle, Vr.
  apply SFsub_one_bound; (apply Prim2SF_valid || assumption).
Qed.

(** ** Rounding to the nearest integer, ties to even *)

Lemma compare_mul_r (a b c : Z) : 0 < c -> (a * c ?= b * c) = (a ?= b).
Proof.
  intros Hc. destruct (Z.compare_spec a b) as [->|H|H].
  - apply Z.compare_refl.
  - apply Z.compare_lt_iff. nia.
  - apply Z.compare_gt_iff. nia.
Qed.

Lemma div_half_even_scale (n d c : Z) :
  0 < d -> 0 < c -> div_half_even (n * c) (d * c) = div_half_even n d.
Proof.
  intros Hd Hc. unfold div_half_even.
  rewrite Z.div_mul_cancel_r by lia.
  rewrite Z.mul_mod_distr_r by lia.
  replace (2 * (n mod d * c)) with (2 * (n mod d) * c) by lia.
  rewrite (compare_mul_r (2 * (n mod d)) d c Hc). reflexivity.
Qed.

Lemma div_half_even_bounds (n d : Z) :
  n / d <= div_half_even n d <= n / d + 1.
Proof.
  unfold div_half_even.
  destruct (2 * (n mod d) ?= d); try destruct (Z.even (n / d)); lia.
Qed.

Lemma div_half_even_mono (n1 n2 d : Z) :
  0 < d -> n1 <= n2 -> div_half_even n1 d <= div_half_even n2 d.
Proof.
  intros Hd Hn.
  pose proof (Z.div_le_mono n1 n2 d Hd Hn) as Hq.
  destruct (Z.eq_dec (n1 / d) (n2 / d)) as [E|E].
  - assert (Hr : n1 mod d <= n2 mod d).
    { pose proof (Z.div_mod n1 d ltac:(lia)).
      pose proof (Z.div_mod n2 d ltac:(lia)). nia. }
    unfold div_half_even. rewrite E.
    destruct (Z.compare_spec (2 * (n1 mod d)) d);
      destruct (Z.compare_spec (2 * (n2 mod d)) d);
      try destruct (Z.even (n2 / d)); lia.
  - pose proof (div_half_even_bounds n1 d).
    pose proof (div_half_even_bounds n2 d). lia.
Qed.

Lemma div_half_even_near (n d q : Z) :
  0 < d -> 2 * Z.abs (n - q * d) < d -> div_half_even n d = q.
Proof.
  intros Hd Hnear. unfold div_half_even.
  destruct (Z.le_gt_cases (q * d) n) as [Hge|Hlt].
  - assert (Hq : n / d = q).
    { symmetry. apply Z.div_unique with (r := n - q * d); lia. }
    assert (Hr : n mod d = n - q * d).
    { symmetry. apply Z.mod_unique with (q := q); lia. }
    rewrite Hq, Hr.
    destruct (Z.compare_spec (2 * (n - q * d)) d); lia.
  - assert (Hq : n / d = q - 1).
    { symmetry. apply Z.div_unique with (r := n - (q - 1) * d); lia. }
    assert (Hr : n mod d = n - (q - 1) * d).
    { symmetry. apply Z.mod_unique with (q := q - 1); lia. }
    rewrite Hq, Hr.
    destruct (Z.compare_spec (2 * (n - (q - 1) * d)) d); lia.
Qed.

(** ** Rounding a float in the unit interval to four decimals *)

Lemma k4_mono (V1 V2 : Z) : V1 <= V2 -> k4 V1 <= k4 V2.
Proof.
  intros H. unfold k4. apply div_half_even_mono; [|lia].
  apply Z.pow_pos_nonneg; lia.
Qed.

Lemma k4_nonneg (V : Z) : 0 <= V -> 0 <= k4 V.
Proof.
  intros H. unfold k4.
  pose proof (div_half_even_bounds (V * 10000) (2 ^ 1074)).
  assert (0 <= V * 10000 / 2 ^ 1074).
  { apply Z.div_pos; [lia|]. apply Z.pow_pos_nonneg; lia. }
  lia.
Qed.

Lemma k4_near_one (V : Z) :
  20000 * Z.abs (V - 2 ^ 1074) < 2 ^ 1074 -> k4 V = 10000.
Proof.
  intros H. unfold k4. apply div_half_even_near.
  - apply Z.pow_pos_nonneg; clear; lia.
  - set (P := 2 ^ 1074) in *. clearbody P. lia.
Qed.

Lemma rounded4_zero : rounded4 0 = S754_zero false.
Proof. reflexivity. Qed.

Lemma rounded4_pos (p : positive) :
  rounded4 (Zpos p)
  = SFdiv prec emax (S754_finite false p 0) (S754_finite false 10000 0).
Proof. reflexivity. Qed.

Lemma rounded4_top : rounded4 10000 = SFone.
Proof. vm_compute. reflexivity. Qed.

Lemma ten_thousand_small : 10000 < 2 ^ 53.
Proof. reflexivity. Qed.

(** The floats that a value of the unit interval can round to are valid
    and non-negative, and they increase with the number of
    ten-thousandths: two consecutive exact quotients are [2^1074 / 10000]
    apart, far more than the two roundings can move them. *)
Lemma rounded4_valid (k : Z) :
  0 <= k <= 10000 ->
  valid_binary (rounded4 k) = true /\ nonneg (rounded4 k).
Proof.
  intros Hk. destruct k as [|p|p]; [| |lia].
  - rewrite rounded4_zero. split; [reflexivity|exact I].
  - destruct (Z.eq_dec (Zpos p) 10000) as [E|E].
    + rewrite E, rounded4_top. split; [reflexivity|exact I].
    + rewrite rounded4_pos.
      destruct (SFdiv_proper_data p 10000 ltac:(lia) ten_thousand_small)
        as (e1 & m1 & m2 & _ & _ & _ & _ & Hv & Hn).
      split; assumption.
Qed.

Lemma rounded4_below_one (k : Z) :
  0 <= k < 10000 -> BV (rounded4 k) < 2 ^ 1074.
Proof.
  intros Hk. destruct k as [|p|p]; [| |lia].
  - rewrite rounded4_zero. apply Z.pow_pos_nonneg; clear; lia.
  - rewrite rounded4_pos.
    apply (SFdiv_proper_fraction p 10000 ltac:(lia) ten_thousand_small).
Qed.

Lemma rounded4_mono (k1 k2 : Z) :
  0 <= k1 -> k1 <= k2 -> k2 <= 10000 ->
  BV (rounded4 k1) <= BV (rounded4 k2).
Proof.
  intros H0 Hle H1.
  destruct (Z.eq_dec k1 k2) as [->|Hne]; [apply Z.le_refl|].
  destruct (Z.eq_dec k2 10000) as [->|Htop].
  - rewrite rounded4_top, BV_SFone.
    apply Z.lt_le_incl, rounded4_below_one. lia.
  - destruct k1 as [|p1|p1]; [| |lia].
    + rewrite rounded4_zero. cbn [BV].
      destruct (rounded4_valid k2 ltac:(lia)) as [Hv Hn].
      now apply nonneg_BV.
    + destruct k2 as [|p2|p2]; try lia.
      rewrite !rounded4_pos.
      pose proof (SFdiv_proper_bracket p1 10000 ltac:(lia) ten_thousand_small)
        as [_ Hup].
      pose proof (SFdiv_proper_bracket p2 10000 ltac:(lia) ten_thousand_small)
        as [Hlo _].
      cbv zeta in Hup, Hlo.
      set (B1 := BV (SFdiv prec emax (S754_finite false p1 0)
                       (S754_finite false 10000 0))) in *.
      set (B2 := BV (SFdiv prec emax (S754_finite false p2 0)
                       (S754_finite false 10000 0))) in *.
      clearbody B1 B2.
      replace (2 ^ 1074) with (9007199254740992 * 2 ^ 1021) in *
        by (change 9007199254740992 with (2 ^ 53);
            rewrite <- Z.pow_add_r by (clear; lia); reflexivity).
      assert (HW : 0 < 2 ^ 1021) by (apply Z.pow_pos_nonneg; clear; lia).
      set (W := 2 ^ 1021) in *. clearbody W.
      clear - Hup Hlo HW Hle Hne. nia.
Qed.

Lemma rounded4_one : SF2Prim (rounded4 10000) = 1%float.
Proof. rewrite rounded4_top. reflexivity. Qed.

(** [round(s, 4)] for a non-negative [s] below 2. *)
Lemma float_round4_unit (s : float) :
  fnonneg s -> FV s < 2 ^ 1075 -> k4 (FV s) <= 10000 ->
  fnonneg (float_round s 4) /\
  FV (float_round s 4) = BV (rounded4 (k4 (FV s))) /\
  (0 < FV s -> float_round s 4 = SF2Prim (rounded4 (k4 (FV s)))).
Proof.
  unfold fnonneg, FV. intros Hs Hlt Hk.
  pose proof (Prim2SF_valid s) as Hv.
  unfold float_round.
  destruct (Prim2SF s) as [sg|sg| |sg m e] eqn:E; try contradiction.
  - (* a zero is returned as it is *)
    rewrite E. cbn [BV]. split; [exact I|]. split; [reflexivity|lia].
  - exfalso. destruct sg; [contradiction|]. cbn [BV] in Hlt.
    assert (H : 2 ^ 1075 < huge) by (unfold huge; apply Z.pow_lt_mono_r; lia).
    exact (Z.lt_irrefl _ (Z.lt_trans _ _ _ Hlt H)).
  - destruct sg; [contradiction|].
    cbn [valid_binary] in Hv. apply bounded_canonical in Hv as [Hc He].
    pose proof (canonical_emin _ _ Hc) as Hmin.
    cbn [BV] in Hlt, Hk |- *.
    assert (Hneg : e < 0).
    { destruct (Z.lt_ge_cases e 0) as [H|H]; [exact H|exfalso].
      pose proof (canonical_normal (Zpos m) e eq_refl Hc
                    ltac:(clear - H; lia)) as [Hlo _].
      unfold scaled in Hlt.
      assert (HP : 2 ^ 1074 <= 2 ^ (e + 1074))
        by (apply Z.pow_le_mono_r; clear - H; lia).
      assert (HP0 : 0 < 2 ^ 1074) by (apply Z.pow_pos_nonneg; clear; lia).
      replace (2 ^ 1075) with (2 * 2 ^ 1074) in Hlt
        by (rewrite <- Z.pow_succ_r by (clear; lia); reflexivity).
      change (2 ^ 52) with 4503599627370496 in Hlo.
      clear - Hlt Hlo HP HP0.
      set (P := 2 ^ 1074) in *. set (E := 2 ^ (e + 1074)) in *.
      clearbody P E. nia. }
    clear Hlt.
    change (10 ^ Z.of_nat 4) with 10000.
    destruct (Z.leb_spec 0 e) as [H|_]; [lia|].
    assert (Ek : div_half_even (Zpos m * 10000) (2 ^ (- e))
                 = k4 (scaled (Zpos m) e)).
    { unfold k4, scaled.
      rewrite <- (div_half_even_scale (Zpos m * 10000) (2 ^ (- e))
                    (2 ^ (e + 1074)))
        by (apply Z.pow_pos_nonneg; lia).
      f_equal; [lia|]. rewrite <- Z.pow_add_r by lia. f_equal. lia. }
    cbv zeta. rewrite Ek. fold (rounded4 (k4 (scaled (Zpos m) e))).
    pose proof (scaled_pos (Zpos m) e ltac:(lia) Hmin) as Hpos.
    pose proof (k4_nonneg (scaled (Zpos m) e) ltac:(lia)) as Hk0.
    destruct (rounded4_valid (k4 (scaled (Zpos m) e)) ltac:(lia)) as [Hrv Hrn].
    rewrite (Prim2SF_SF2Prim _ Hrv).
    split; [exact Hrn|]. split; reflexivity.
Qed.

(** ** The cumulative table of a normalized distribution *)

Lemma running_sum_app (l1 l2 : list float) :
  running_sum (l1 ++ l2) = fold_left PrimFloat.add l2 (running_sum l1).
Proof. unfold running_sum. apply fold_left_app. Qed.

Lemma In_firstn_1 {A : Type} (n : nat) (l : list A) (x : A) :
  In x (firstn n l) -> In x l.
Proof.
  intros H. rewrite <- (firstn_skipn n l). apply in_or_app. now left.
Qed.

Lemma In_skipn_1 {A : Type} (n : nat) (l : list A) (x : A) :
  In x (skipn n l) -> In x l.
Proof.
  intros H. rewrite <- (firstn_skipn n l). apply in_or_app. now right.
Qed.

Section NormalizedTable.

Variable ps : list float.
Hypothesis ps_nonneg : forall p, In p ps -> PrimFloat.leb 0 p = true.

Lemma prefix_sum_fnonneg (i : nat) : fnonneg (running_sum (firstn i ps)).
Proof.
  apply fold_add_fnonneg; [exact I|].
  intros p Hp. apply leb_zero_fnonneg, ps_nonneg.
  eapply In_firstn_1, Hp.
Qed.

Lemma prefix_sum_mono (i j : nat) :
  (i <= j)%nat ->
  FV (running_sum (firstn i ps)) <= FV (running_sum (firstn j ps)).
Proof.
  intros Hij.
  rewrite <- (firstn_skipn i (firstn j ps)).
  rewrite firstn_firstn, Nat.min_l by exact Hij.
  rewrite running_sum_app.
  apply fold_add_fnonneg; [apply prefix_sum_fnonneg|].
  intros p Hp. apply leb_zero_fnonneg, ps_nonneg.
  eapply In_firstn_1, In_skipn_1, Hp.
Qed.

Hypothesis ps_sum :
  PrimFloat.leb (abs (PrimFloat.sub (running_sum ps) 1)) 1e-6 = true.

Lemma FV_tolerance : FV 1e-6 = 4722366482869645 * 2 ^ 1002.
Proof. reflexivity. Qed.

Lemma total_near_one :
  20000 * Z.abs (FV (running_sum ps) - 2 ^ 1074) < 2 ^ 1074.
Proof.
  assert (Hn : fnonneg (running_sum ps)).
  { rewrite <- (firstn_all ps). apply prefix_sum_fnonneg. }
  pose proof (sub_one_bound (running_sum ps) 1e-6 Hn ps_sum) as H.
  rewrite FV_tolerance in H.
  replace (2 ^ 1074) with (4722366482869645213696 * 2 ^ 1002) in *
    by (change 4722366482869645213696 with (2 ^ 72);
        rewrite <- Z.pow_add_r by lia; reflexivity).
  assert (0 < 2 ^ 1002) by (apply Z.pow_pos_nonneg; lia).
  set (u := 2 ^ 1002) in *. clearbody u.
  generalize dependent (FV (running_sum ps)). intros V HV. nia.
Qed.

Lemma total_rounds_to_one : k4 (FV (running_sum ps)) = 10000.
Proof. apply k4_near_one, total_near_one. Qed.

Lemma total_below_two : FV (running_sum ps) < 2 ^ 1075.
Proof.
  pose proof total_near_one as H.
  change (2 ^ 1075) with (2 * 2 ^ 1074).
  assert (0 < 2 ^ 1074) by (apply Z.pow_pos_nonneg; lia).
  set (P := 2 ^ 1074) in *. clearbody P.
  generalize dependent (FV (running_sum ps)). intros V HV. lia.
Qed.

Lemma total_positive : 0 < FV (running_sum ps).
Proof.
  pose proof total_near_one as H.
  assert (0 < 2 ^ 1074) by (apply Z.pow_pos_nonneg; lia).
  set (P := 2 ^ 1074) in *. clearbody P.
  generalize dependent (FV (running_sum ps)). intros V HV. lia.
Qed.

(** Every entry of the table is the float of a number of ten-thousandths
    between 0 and 10000. *)
Lemma table_entry (i : nat) :
  (i <= length ps)%nat ->
  let V := FV (running_sum (firstn i ps)) in
  0 <= k4 V <= 10000 /\
  fnonneg (float_round (running_sum (firstn i ps)) 4) /\
  FV (float_round (running_sum (firstn i ps)) 4) = BV (rounded4 (k4 V)).
Proof.
  intros Hi V.
  pose proof (prefix_sum_fnonneg i) as Hn.
  pose proof (prefix_sum_mono i (length ps) Hi) as Hle.
  rewrite firstn_all in Hle. fold V in Hle.
  assert (H2 : V < 2 ^ 1075)
    by (apply Z.le_lt_trans with (1 := Hle), total_below_two).
  assert (H0 : 0 <= V) by (apply nonneg_BV; [apply Prim2SF_valid|exact Hn]).
  assert (Hk : 0 <= k4 V <= 10000).
  { split; [now apply k4_nonneg|].
    rewrite <- total_rounds_to_one. now apply k4_mono. }
  split; [exact Hk|].
  destruct (float_round4_unit (running_sum (firstn i ps)) Hn H2 (proj2 Hk))
    as (Hf & Hv & _).
  split; assumption.
Qed.

Theorem table_non_decreasing (i j : nat) (x y : float) :
  (i <= j)%nat ->
  nth_error (build_cum_probs ps) i = Some x ->
  nth_error (build_cum_probs ps) j = Some y ->
  PrimFloat.leb x y = true.
Proof.
  intros Hij Hx Hy.
  assert (Hj : (j < length ps)%nat).
  { rewrite <- build_cum_probs_length. apply nth_error_Some. now rewrite Hy. }
  rewrite build_cum_probs_nth in Hx, Hy by lia.
  assert (Ex : x = float_round (running_sum (firstn (S i) ps)) 4)
    by congruence.
  assert (Ey : y = float_round (running_sum (firstn (S j) ps)) 4)
    by congruence.
  subst x y. clear Hx Hy.
  destruct (table_entry (S i) ltac:(lia)) as (Hki & Hni & Hvi).
  destruct (table_entry (S j) ltac:(lia)) as (Hkj & Hnj & Hvj).
  cbv zeta in *.
  rewrite leb_FV by (apply nonneg_not_nan; assumption).
  apply Z.leb_le. rewrite Hvi, Hvj.
  apply rounded4_mono; [lia| |lia].
  apply k4_mono, prefix_sum_mono. lia.
Qed.

Theorem table_ends_at_one :
  ps <> [] /\
  nth_error (build_cum_probs ps) (length ps - 1) = Some 1%float.
Proof.
  assert (Hne : ps <> []).
  { intros E. pose proof ps_sum as H. rewrite E in H. vm_compute in H.
    discriminate. }
  split; [exact Hne|].
  assert (Hlen : (0 < length ps)%nat).
  { destruct ps; [congruence|cbn; lia]. }
  rewrite build_cum_probs_nth by lia.
  replace (S (length ps - 1)) with (length ps) by lia.
  rewrite firstn_all. f_equal.
  pose proof (prefix_sum_fnonneg (length ps)) as Hn. rewrite firstn_all in Hn.
  destruct (float_round4_unit (running_sum ps) Hn) as (_ & _ & Hf).
  - apply total_below_two.
  - rewrite total_rounds_to_one. lia.
  - rewrite (Hf total_positive), total_rounds_to_one. apply rounded4_one.
Qed.

End NormalizedTable.

(** ** The normalizer on non-negative probabilities *)

(** ** Rounding what needs no rounding *)

Lemma shr_fexp_canonical (m e : Z) (l : location) :
  canonical m e -> shr_fexp prec emax m e l = (shr_record_of_loc m l, e).
Proof.
  unfold canonical, shr_fexp. intros ->. now rewrite Z.sub_diag.
Qed.

(** A canonical mantissa with nothing behind it is returned as it is. *)
Lemma binary_round_aux_exact (s : bool) (mz : positive) (e1 : Z) :
  canonical (Zpos mz) e1 ->
  rounds_to s e1 (Zpos mz)
    (binary_round_aux prec emax s (Zpos mz) e1 loc_Exact).
Proof.
  intros Hc. unfold binary_round_aux.
  rewrite (shr_fexp_canonical _ _ _ Hc).
  cbn [shr_record_of_loc shr_m loc_of_shr_record round_nearest_even].
  rewrite (shr_fexp_canonical _ _ _ Hc). cbn [shr_record_of_loc shr_m].
  destruct (Z.leb_spec e1 (emax - prec)) as [Hfin|Hinf].
  - apply rounds_finite.
    + unfold bounded. apply andb_true_intro. split.
      * now apply canonical_mantissa_iff.
      * now apply Z.leb_le.
    + apply Z.le_refl.
    + rewrite Z.sub_diag. apply Z.mul_1_r.
  - apply rounds_infinity.
    change (emax - prec) with 971 in Hinf.
    pose proof (canonical_normal (Zpos mz) e1 eq_refl Hc ltac:(lia))
      as [Hlo _].
    apply Z.le_trans with (2 := Hlo). apply Z.pow_le_mono_r; lia.
Qed.

Lemma binary_round_exact (s : bool) (m : positive) (e : Z) :
  fexp (Zdigits2 (Zpos m) + e) <= e ->
  rounds_to s (fexp (Zdigits2 (Zpos m) + e))
    (Zpos m * 2 ^ (e - fexp (Zdigits2 (Zpos m) + e)))
    (binary_round prec emax s m e).
Proof.
  intros Hle. unfold binary_round.
  set (e1 := fexp (Zdigits2 (Zpos m) + e)) in *.
  pose proof (shl_align_spec m e e1) as [Hmz Hez].
  change (Zpos (digits2_pos m)) with (Zdigits2 (Zpos m)). fold e1.
  destruct (shl_align m e e1) as [mz ez]. cbn [fst snd] in Hmz, Hez.
  rewrite Z.min_r in Hmz, Hez by lia. subst ez. rewrite <- Hmz.
  apply binary_round_aux_exact. unfold canonical.
  rewrite Hmz, Zdigits2_mul_pow2 by lia.
  replace (Zdigits2 (Zpos m) + (e - e1) + e1) with (Zdigits2 (Zpos m) + e)
    by lia.
  reflexivity.
Qed.

(** ** The error of an addition of non-negative numbers *)

(** A truncated mantissa above the smallest exponent has its 53 digits. *)
Lemma truncated_digits (m e : Z) :
  0 < m -> e <= fexp (Zdigits2 m + e) -> -1074 < fexp (Zdigits2 m + e) ->
  2 ^ 52 <= m / 2 ^ (fexp (Zdigits2 m + e) - e).
Proof.
  intros Hm Hle Hmin. set (e1 := fexp (Zdigits2 m + e)) in *.
  pose proof (Zdigits2_pos m Hm) as Hdp.
  assert (Hd53 : Zdigits2 m + e - 53 = e1)
    by (unfold e1 in *; rewrite fexp_eq in *; lia).
  assert (Hdig : Zdigits2 (m / 2 ^ (e1 - e)) = 53)
    by (rewrite Zdigits2_div_pow2; lia).
  assert (Hpos : 0 < m / 2 ^ (e1 - e)).
  { destruct (Z.le_gt_cases (m / 2 ^ (e1 - e)) 0) as [H0|H0]; [|exact H0].
    assert (H : m / 2 ^ (e1 - e) = 0)
      by (pose proof (div_pow2_nonneg m (e1 - e) ltac:(lia)); lia).
    rewrite H in Hdig. discriminate. }
  pose proof (Zdigits2_bounds _ Hpos) as [Hlo _]. rewrite Hdig in Hlo.
  exact Hlo.
Qed.

Lemma scaled_shift (m e e1 : Z) :
  -1074 <= e1 -> e1 <= e -> scaled (m * 2 ^ (e - e1)) e1 = scaled m e.
Proof.
  intros H1 H2. unfold scaled.
  rewrite <- Z.mul_assoc, <- Z.pow_add_r by lia. do 2 f_equal. lia.
Qed.

(** The float sum of two positive numbers, when it is finite, is within
    [2^-52] of itself from the exact sum, and not below the second
    number. *)
Lemma SFadd_finite_error (mx my : positive) (ex ey : Z) :
  bounded prec emax mx ex = true -> bounded prec emax my ey = true ->
  BV (SFadd prec emax (S754_finite false mx ex) (S754_finite false my ey))
  < huge ->
  Z.abs (BV (SFadd prec emax (S754_finite false mx ex)
               (S754_finite false my ey))
         - (scaled (Zpos mx) ex + scaled (Zpos my) ey)) * 2 ^ 52
  <= BV (SFadd prec emax (S754_finite false mx ex) (S754_finite false my ey))
  /\
  scaled (Zpos my) ey
  <= BV (SFadd prec emax (S754_finite false mx ex) (S754_finite false my ey)).
Proof.
  intros Bx By.
  apply bounded_canonical in Bx as [Cx Hx].
  apply bounded_canonical in By as [Cy Hy].
  pose proof (canonical_emin _ _ Cx) as Hex.
  pose proof (canonical_emin _ _ Cy) as Hey.
  cbn [SFadd cond_Zopp].
  pose proof (aligned_sum mx my ex ey Hex Hey) as Hsum.
  set (ez := Z.min ex ey) in *.
  set (a := fst (shl_align mx ex ez)) in *.
  set (b := fst (shl_align my ey ez)) in *.
  change (Zpos a + Zpos b) with (Zpos (a + b)) in *.
  cbn [binary_normalize].
  assert (Hez : -1074 <= ez) by (unfold ez; lia).
  pose proof (scaled_pos (Zpos mx) ex eq_refl Hex) as Hpx.
  pose proof (scaled_pos (Zpos my) ey eq_refl Hey) as Hpy.
  set (e1 := fexp (Zdigits2 (Zpos (a + b)) + ez)).
  assert (He1 : -1074 <= e1) by (unfold e1; rewrite fexp_eq; lia).
  intros Hfin.
  destruct (Z.le_gt_cases e1 ez) as [Hle|Hgt].
  - (* nothing is rounded off *)
    pose proof (binary_round_exact false (a + b) ez Hle) as Hr. fold e1 in Hr.
    destruct (rounds_to_value _ _ _ Hr He1) as [Hv|Hinf].
    { apply Z.mul_nonneg_nonneg; [lia|]. apply Z.pow_nonneg. lia. }
    2:{ rewrite Hinf in Hfin. cbn [BV] in Hfin.
        exfalso. exact (Z.lt_irrefl _ Hfin). }
    rewrite scaled_shift in Hv by assumption.
    rewrite Hv, Hsum. split; [|lia].
    rewrite Z.sub_diag. cbn [Z.abs Z.mul]. lia.
  - destruct (binary_round_spec false (a + b)%positive ez) as (m2 & Hm2 & Hr).
    cbv zeta in Hm2, Hr. fold e1 in Hm2, Hr.
    assert (Hnorm : 2 ^ 52 <= Zpos (a + b) / 2 ^ (e1 - ez))
      by (apply truncated_digits; [reflexivity|fold e1; lia|fold e1; lia]).
    pose proof (at_exponent_ge_canonical (Zpos (a + b)) ez (Zpos my) ey
                  eq_refl Hez eq_refl Cy ltac:(lia)) as Hge.
    fold e1 in Hge.
    unfold at_exponent in Hm2, Hge.
    destruct (Z.leb_spec e1 ez) as [H|_]; [lia|].
    set (t := Zpos (a + b) / 2 ^ (e1 - ez)) in *.
    destruct (rounds_to_value _ _ _ Hr He1 ltac:(lia)) as [Hv|Hinf].
    2:{ rewrite Hinf in Hfin. cbn [BV] in Hfin.
        exfalso. exact (Z.lt_irrefl _ Hfin). }
    rewrite Hv. clear Hfin Hv Hr.
    split.
    2:{ apply Z.le_trans with (1 := Hge). apply scaled_mono; lia. }
    rewrite <- Hsum. unfold scaled.
    assert (Hw : 0 < 2 ^ (e1 - ez)) by (apply Z.pow_pos_nonneg; lia).
    assert (Hv : 0 < 2 ^ (ez + 1074)) by (apply Z.pow_pos_nonneg; lia).
    assert (Hp : 2 ^ (e1 + 1074) = 2 ^ (e1 - ez) * 2 ^ (ez + 1074)).
    { rewrite <- Z.pow_add_r by lia. f_equal. lia. }
    rewrite Hp.
    pose proof (Z.mul_div_le (Zpos (a + b)) (2 ^ (e1 - ez)) Hw) as Hlo.
    pose proof (Z.mul_succ_div_gt (Zpos (a + b)) (2 ^ (e1 - ez)) Hw) as Hhi.
    fold t in Hlo, Hhi.
    change (2 ^ 52) with 4503599627370496 in *.
    clear - Hm2 Hnorm Hw Hv Hlo Hhi.
    set (w := 2 ^ (e1 - ez)) in *. set (v := 2 ^ (ez + 1074)) in *.
    set (m := Zpos (a + b)) in *. clearbody w v m t.
    assert (HD : Z.abs (m2 * w - m) <= w) by nia.
    assert (HD2 : Z.abs (m2 * w - m) * 4503599627370496 <= m2 * w) by nia.
    replace (m2 * (w * v) - m * v) with ((m2 * w - m) * v) by ring.
    rewrite Z.abs_mul, (Z.abs_eq v) by lia.
    nia.
Qed.

Lemma SFadd_error (x p : spec_float) :
  valid_binary x = true -> valid_binary p = true ->
  nonneg x -> nonneg p ->
  BV (SFadd prec emax x p) < huge ->
  Z.abs (BV (SFadd prec emax x p) - (BV x + BV p)) * 2 ^ 52
  <= BV (SFadd prec emax x p) /\
  BV p <= BV (SFadd prec emax x p).
Proof.
  intros Vx Vp Nx Np.
  pose proof (nonneg_BV p Vp Np) as Hp0.
  pose proof (nonneg_BV x Vx Nx) as Hx0.
  destruct x as [sx|[]| |[] mx ex]; try contradiction;
    destruct p as [sp|[]| |[] mp ep]; try contradiction;
    cbn [valid_binary] in Vx, Vp;
    try (cbn [SFadd BV]; intros Hfin; exfalso; exact (Z.lt_irrefl _ Hfin)).
  - intros _. destruct sx, sp; cbn; lia.
  - intros _. cbn [SFadd BV] in *.
    replace (scaled (Zpos mp) ep - (0 + scaled (Zpos mp) ep)) with 0 by lia.
    cbn [Z.abs Z.mul]. lia.
  - intros _. cbn [SFadd BV] in *.
    replace (scaled (Zpos mx) ex - (scaled (Zpos mx) ex + 0)) with 0 by lia.
    cbn [Z.abs Z.mul]. lia.
  - cbn [BV]. now apply SFadd_finite_error.
Qed.

Lemma add_error (x p : float) :
  fnonneg x -> fnonneg p -> FV (PrimFloat.add x p) < huge ->
  Z.abs (FV (PrimFloat.add x p) - (FV x + FV p)) * 2 ^ 52
  <= FV (PrimFloat.add x p) /\
  FV p <= FV (PrimFloat.add x p).
Proof.
  unfold fnonneg, FV. rewrite add_spec. intros Hx Hp.
  apply SFadd_error; (apply Prim2SF_valid || assumption).
Qed.

(** ** Rounding a sum or a difference of any sign *)

(** What [binary_round] returns is within one unit of the last place of
    the exact value, and within [2^-52] of itself. *)
Lemma binary_round_near (s : bool) (m : positive) (e : Z) :
  -1074 <= e ->
  exists e1 m2,
    -1074 <= e1 /\ 0 < m2 /\
    rounds_to s e1 m2 (binary_round prec emax s m e) /\
    Z.abs (scaled m2 e1 - scaled (Zpos m) e) * 2 ^ 52 <= scaled m2 e1 /\
    Z.abs (scaled m2 e1 - scaled (Zpos m) e) <= 2 ^ (e1 + 1074) /\
    (scaled (Zpos m) e < 2 ^ 2098 -> e1 <= 971).
Proof.
  intros He.
  set (e1 := fexp (Zdigits2 (Zpos m) + e)).
  assert (He1 : -1074 <= e1) by (unfold e1; rewrite fexp_eq; lia).
  pose proof (Zdigits2_bounds (Zpos m) eq_refl) as [Hd1 Hd2].
  pose proof (Zdigits2_pos (Zpos m) eq_refl) as Hdp.
  assert (Hover : scaled (Zpos m) e < 2 ^ 2098 -> e1 <= 971).
  { intros HV. destruct (Z.le_gt_cases e1 971) as [H|H]; [exact H|exfalso].
    assert (Hd : 1025 <= Zdigits2 (Zpos m) + e)
      by (unfold e1 in H; rewrite fexp_eq in H; lia).
    assert (Hp : 2 ^ 2098 <= 2 ^ (Zdigits2 (Zpos m) - 1) * 2 ^ (e + 1074)).
    { rewrite <- Z.pow_add_r by lia. apply Z.pow_le_mono_r; lia. }
    assert (Hq : 2 ^ (Zdigits2 (Zpos m) - 1) * 2 ^ (e + 1074)
                 <= scaled (Zpos m) e).
    { unfold scaled. apply Z.mul_le_mono_nonneg_r; [|exact Hd1].
      apply Z.pow_nonneg. lia. }
    exact (Z.lt_irrefl _ (Z.lt_le_trans _ _ _ HV (Z.le_trans _ _ _ Hp Hq))). }
  assert (Hulp : 0 < 2 ^ (e1 + 1074)) by (apply Z.pow_pos_nonneg; lia).
  exists e1.
  destruct (Z.le_gt_cases e1 e) as [Hle|Hgt].
  - (* nothing is rounded off *)
    exists (Zpos m * 2 ^ (e - e1)).
    split; [exact He1|]. split.
    { apply Z.mul_pos_pos; [reflexivity|]. apply Z.pow_pos_nonneg; lia. }
    split; [now apply binary_round_exact|].
    rewrite scaled_shift by assumption. rewrite Z.sub_diag.
    cbn [Z.abs Z.mul].
    pose proof (scaled_pos (Zpos m) e eq_refl He).
    split; [lia|]. split; [lia|exact Hover].
  - destruct (binary_round_spec s m e) as (m2 & Hm2 & Hr).
    cbv zeta in Hm2, Hr. fold e1 in Hm2, Hr.
    assert (Hnorm : 2 ^ 52 <= Zpos m / 2 ^ (e1 - e))
      by (apply truncated_digits; [reflexivity|fold e1; lia|fold e1; lia]).
    unfold at_exponent in Hm2.
    destruct (Z.leb_spec e1 e) as [H|_]; [lia|].
    set (t := Zpos m / 2 ^ (e1 - e)) in *.
    exists m2. split; [exact He1|].
    change (2 ^ 52) with 4503599627370496 in *.
    split; [lia|]. split; [exact Hr|].
    assert (Hw : 0 < 2 ^ (e1 - e)) by (apply Z.pow_pos_nonneg; lia).
    assert (Hv : 0 < 2 ^ (e + 1074)) by (apply Z.pow_pos_nonneg; lia).
    assert (Hp : 2 ^ (e1 + 1074) = 2 ^ (e1 - e) * 2 ^ (e + 1074)).
    { rewrite <- Z.pow_add_r by lia. f_equal. lia. }
    pose proof (Z.mul_div_le (Zpos m) (2 ^ (e1 - e)) Hw) as Hlo.
    pose proof (Z.mul_succ_div_gt (Zpos m) (2 ^ (e1 - e)) Hw) as Hhi.
    fold t in Hlo, Hhi.
    split; [|split; [|exact Hover]]; unfold scaled; rewrite Hp;
      clear - Hm2 Hnorm Hw Hv Hlo Hhi;
      set (w := 2 ^ (e1 - e)) in *; set (v := 2 ^ (e + 1074)) in *;
      set (M := Zpos m) in *; clearbody w v M t;
      assert (HD : Z.abs (m2 * w - M) <= w) by nia;
      replace (m2 * (w * v) - M * v) with ((m2 * w - M) * v) by ring;
      rewrite Z.abs_mul, (Z.abs_eq v) by lia.
    + assert (HD2 : Z.abs (m2 * w - M) * 4503599627370496 <= m2 * w) by nia.
      nia.
    + nia.
Qed.

Lemma SFfinite_abs (r : spec_float) : SFfinite (SFabs r) <-> SFfinite r.
Proof. destruct r; cbn; tauto. Qed.

Lemma max_value_lt : max_value < 2 ^ 2098.
Proof.
  unfold max_value.
  assert (0 < 2 ^ 2045) by (apply Z.pow_pos_nonneg; lia). lia.
Qed.

(** The same in terms of values: the result is finite when the exact value
    is below the largest finite number, and a finite result is within
    [2^-52] of itself from the exact value. *)
Lemma binary_round_error (s : bool) (m : positive) (e : Z) :
  -1074 <= e ->
  (BV (binary_round prec emax s m e)
   = if s then - BV (SFabs (binary_round prec emax s m e))
     else BV (SFabs (binary_round prec emax s m e))) /\
  0 <= BV (SFabs (binary_round prec emax s m e)) /\
  (scaled (Zpos m) e < max_value ->
   SFfinite (binary_round prec emax s m e)) /\
  (SFfinite (binary_round prec emax s m e) ->
   Z.abs (BV (SFabs (binary_round prec emax s m e)) - scaled (Zpos m) e)
   * 2 ^ 52
   <= BV (SFabs (binary_round prec emax s m e))).
Proof.
  intros He.
  destruct (binary_round_near s m e He)
    as (e1 & m2 & He1 & Hm2 & Hr & Herr & Hulp & Hover).
  set (r := binary_round prec emax s m e) in *.
  assert (Hsign : BV r = if s then - BV (SFabs r) else BV (SFabs r)).
  { destruct Hr as [H0|m3 e3 Hb Hle Hm|Hinf]; cbn [SFabs BV];
      destruct s; lia. }
  pose proof (rounds_to_abs _ _ _ _ Hr) as Ha.
  split; [exact Hsign|]. split.
  { apply nonneg_BV.
    - eapply rounds_to_valid, Ha.
    - eapply rounds_to_nonneg, Ha. }
  split.
  - intros HV. apply SFfinite_abs.
    destruct Hr as [H0|m3 e3 Hb Hle Hm|Hinf]; cbn [SFabs SFfinite];
      [exact I|exact I|exfalso].
    pose proof max_value_lt as Hmax.
    specialize (Hover (Z.lt_trans _ _ _ HV Hmax)).
    assert (Hbig : 2 ^ 2098 <= scaled m2 e1).
    { unfold scaled.
      replace 2098 with (1024 - e1 + (e1 + 1074)) by lia.
      rewrite Z.pow_add_r by lia.
      apply Z.mul_le_mono_nonneg_r; [|exact Hinf].
      apply Z.pow_nonneg. lia. }
    assert (Hu : 2 ^ (e1 + 1074) <= 2 ^ 2045)
      by (apply Z.pow_le_mono_r; lia).
    unfold max_value in HV.
    clear - HV Hbig Hu Hulp.
    set (A := 2 ^ 2098) in *. set (B := 2 ^ 2045) in *.
    set (u := 2 ^ (e1 + 1074)) in *. clearbody A B u. lia.
  - intros Hfin. apply SFfinite_abs in Hfin.
    destruct (rounds_to_value _ _ _ Ha He1 ltac:(lia)) as [Hv|Hinf].
    + rewrite Hv. exact Herr.
    + rewrite Hinf in Hfin. destruct Hfin.
Qed.

Lemma scaled_opp (m e : Z) : scaled (- m) e = - scaled m e.
Proof. unfold scaled. ring. Qed.

Lemma scaled_add (a b e : Z) : scaled (a + b) e = scaled a e + scaled b e.
Proof. unfold scaled. ring. Qed.

Lemma scaled_sub (a b e : Z) : scaled (a - b) e = scaled a e - scaled b e.
Proof. unfold scaled. ring. Qed.

Lemma binary_normalize_error (M ez : Z) :
  -1074 <= ez ->
  (Z.abs (scaled M ez) < max_value ->
   SFfinite (binary_normalize prec emax M ez false)) /\
  (SFfinite (binary_normalize prec emax M ez false) ->
   Z.abs (BV (binary_normalize prec emax M ez false) - scaled M ez) * 2 ^ 52
   <= Z.abs (BV (binary_normalize prec emax M ez false))) /\
  not_nan (binary_normalize prec emax M ez false) /\
  (0 <= scaled M ez -> 0 <= BV (binary_normalize prec emax M ez false)).
Proof.
  intros Hez. destruct M as [|p|p]; cbn [binary_normalize].
  - split; [intros _; exact I|]. split; [intros _; cbn; lia|].
    split; [discriminate|intros _; cbn; lia].
  - destruct (binary_round_error false p ez Hez) as (Hs & H0 & Hfin & Herr).
    pose proof (scaled_pos (Zpos p) ez eq_refl Hez) as Hp.
    destruct (binary_round_near false p ez Hez) as (e1 & m2 & _ & _ & Hr & _).
    split; [|split; [|split; [eapply rounds_to_not_nan, Hr|]]].
    + intros HV. apply Hfin. lia.
    + intros HF. specialize (Herr HF). rewrite Hs, (Z.abs_eq _ H0).
      exact Herr.
    + intros _. rewrite Hs. exact H0.
  - destruct (binary_round_error true p ez Hez) as (Hs & H0 & Hfin & Herr).
    pose proof (scaled_pos (Zpos p) ez eq_refl Hez) as Hp.
    destruct (binary_round_near true p ez Hez) as (e1 & m2 & _ & _ & Hr & _).
    change (Zneg p) with (- Zpos p). rewrite scaled_opp.
    split; [|split; [|split; [eapply rounds_to_not_nan, Hr|intros H; lia]]].
    + intros HV. apply Hfin. lia.
    + intros HF. specialize (Herr HF). rewrite Hs.
      set (A := BV (SFabs (binary_round prec emax true p ez))) in *.
      set (V := scaled (Zpos p) ez) in *.
      replace (- A - - V) with (- (A - V)) by ring.
      rewrite !Z.abs_opp, (Z.abs_eq A H0). exact Herr.
Qed.

(** The value of a mantissa aligned to a smaller exponent. *)
Lemma aligned_value (s : bool) (m : positive) (e ez : Z) :
  -1074 <= ez -> ez <= e ->
  scaled (cond_Zopp s (Zpos (fst (shl_align m e ez)))) ez
  = BV (S754_finite s m e).
Proof.
  intros H1 H2. pose proof (shl_align_spec m e ez) as [Ha _].
  rewrite Ha. replace (Z.min e ez) with ez by lia.
  cbn [BV]. destruct s; cbn [cond_Zopp].
  - rewrite scaled_opp. f_equal. now apply scaled_shift.
  - now apply scaled_shift.
Qed.

Lemma SFfinite_BV (x : spec_float) :
  valid_binary x = true -> SFfinite x -> Z.abs (BV x) <= max_value.
Proof.
  intros Hv Hf. destruct x as [s| | |s m e]; try contradiction.
  - cbn [BV Z.abs]. unfold max_value.
    assert (2 ^ 2045 < 2 ^ 2098) by (apply Z.pow_lt_mono_r; lia). lia.
  - cbn [valid_binary] in Hv. apply bounded_canonical in Hv as [Hc He].
    pose proof (canonical_upper (Zpos m) e eq_refl Hc) as Hm.
    pose proof (canonical_emin _ _ Hc) as Hmin.
    pose proof (scaled_pos (Zpos m) e eq_refl Hmin) as Hp.
    assert (Hb : scaled (Zpos m) e <= max_value).
    { unfold scaled, max_value.
      assert (Hu : 2 ^ (e + 1074) <= 2 ^ 2045) by (apply Z.pow_le_mono_r; lia).
      assert (Hu0 : 0 < 2 ^ (e + 1074)) by (apply Z.pow_pos_nonneg; lia).
      assert (Hp2 : 2 ^ 2098 = 2 ^ 53 * 2 ^ 2045)
        by (rewrite <- Z.pow_add_r by lia; reflexivity).
      rewrite Hp2. change (2 ^ 53) with 9007199254740992 in *.
      clear - Hm Hu Hu0. set (u := 2 ^ (e + 1074)) in *.
      set (W := 2 ^ 2045) in *. set (M := Zpos m) in *.
      assert (0 < M) by reflexivity. clearbody u W M. nia. }
    cbn [BV]. destruct s; lia.
Qed.

Lemma SFfinite_lt_huge (x : spec_float) :
  valid_binary x = true -> SFfinite x -> Z.abs (BV x) < huge.
Proof.
  intros Hv Hf. pose proof (SFfinite_BV x Hv Hf) as H.
  pose proof max_value_lt. pose proof two_2098_lt_huge.
  assert (0 < 2 ^ 2098) by (apply Z.pow_pos_nonneg; lia). lia.
Qed.

(** Addition of two finite numbers of any sign. *)
Lemma SFadd_signed (x y : spec_float) :
  valid_binary x = true -> valid_binary y = true ->
  SFfinite x -> SFfinite y ->
  (BV x = 0 \/ BV y = 0 \/ Z.abs (BV x + BV y) < max_value ->
   SFfinite (SFadd prec emax x y)) /\
  (SFfinite (SFadd prec emax x y) ->
   Z.abs (BV (SFadd prec emax x y) - (BV x + BV y)) * 2 ^ 52
   <= Z.abs (BV (SFadd prec emax x y))) /\
  not_nan (SFadd prec emax x y) /\
  (0 <= BV x + BV y -> 0 <= BV (SFadd prec emax x y)).
Proof.
  intros Vx Vy Fx Fy.
  destruct x as [sx| | |sx mx ex]; try contradiction;
    destruct y as [sy| | |sy my ey]; try contradiction.
  - destruct sx, sy; cbn; (split; [intros _; exact I|]);
      (split; [intros _; lia|]); (split; [discriminate|intros _; lia]).
  - cbn [SFadd]. split; [intros _; exact I|].
    split; [|split; [discriminate|]].
    + intros _. cbn [BV].
      match goal with |- Z.abs ?a * _ <= _ =>
        replace a with 0 by (destruct sy; cbn [negb]; lia) end.
      cbn [Z.abs Z.mul]. apply Z.abs_nonneg.
    + cbn [BV]. destruct sy; cbn [negb]; lia.
  - cbn [SFadd]. split; [intros _; exact I|].
    split; [|split; [discriminate|]].
    + intros _. cbn [BV].
      match goal with |- Z.abs ?a * _ <= _ => replace a with 0 by lia end.
      cbn [Z.abs Z.mul]. apply Z.abs_nonneg.
    + cbn [BV]. lia.
  - cbn [valid_binary] in Vx, Vy.
    apply bounded_canonical in Vx as [Cx _].
    apply bounded_canonical in Vy as [Cy _].
    pose proof (canonical_emin _ _ Cx) as Hex.
    pose proof (canonical_emin _ _ Cy) as Hey.
    cbn [SFadd].
    set (ez := Z.min ex ey).
    assert (Hez : -1074 <= ez) by (unfold ez; lia).
    pose proof (aligned_value sx mx ex ez Hez ltac:(unfold ez; lia)) as Hx.
    pose proof (aligned_value sy my ey ez Hez ltac:(unfold ez; lia)) as Hy.
    destruct (binary_normalize_error
                (cond_Zopp sx (Zpos (fst (shl_align mx ex ez)))
                 + cond_Zopp sy (Zpos (fst (shl_align my ey ez)))) ez Hez)
      as (Hfin & Herr & Hnan & Hsign).
    rewrite scaled_add, Hx, Hy in Hfin, Herr, Hsign.
    split; [|split; [exact Herr|split; [exact Hnan|exact Hsign]]].
    intros [H|[H|H]]; [exfalso|exfalso|now apply Hfin].
    + cbn [BV] in H. pose proof (scaled_pos (Zpos mx) ex eq_refl Hex).
      destruct sx; lia.
    + cbn [BV] in H. pose proof (scaled_pos (Zpos my) ey eq_refl Hey).
      destruct sy; lia.
Qed.

(** Subtraction of two finite numbers of any sign. *)
Lemma SFsub_signed (x y : spec_float) :
  valid_binary x = true -> valid_binary y = true ->
  SFfinite x -> SFfinite y ->
  (BV x = 0 \/ BV y = 0 \/ Z.abs (BV x - BV y) < max_value ->
   SFfinite (SFsub prec emax x y)) /\
  (SFfinite (SFsub prec emax x y) ->
   Z.abs (BV (SFsub prec emax x y) - (BV x - BV y)) * 2 ^ 52
   <= Z.abs (BV (SFsub prec emax x y))) /\
  not_nan (SFsub prec emax x y) /\
  (0 <= BV x - BV y -> 0 <= BV (SFsub prec emax x y)).
Proof.
  intros Vx Vy Fx Fy.
  destruct x as [sx| | |sx mx ex]; try contradiction;
    destruct y as [sy| | |sy my ey]; try contradiction.
  - destruct sx, sy; cbn; (split; [intros _; exact I|]);
      (split; [intros _; lia|]); (split; [discriminate|intros _; lia]).
  - cbn [SFsub]. split; [intros _; exact I|].
    split; [|split; [discriminate|]].
    + intros _. cbn [BV].
      match goal with |- Z.abs ?a * _ <= _ =>
        replace a with 0 by (destruct sy; cbn [negb]; lia) end.
      cbn [Z.abs Z.mul]. apply Z.abs_nonneg.
    + cbn [BV]. destruct sy; cbn [negb]; lia.
  - cbn [SFsub]. split; [intros _; exact I|].
    split; [|split; [discriminate|]].
    + intros _. cbn [BV].
      match goal with |- Z.abs ?a * _ <= _ => replace a with 0 by lia end.
      cbn [Z.abs Z.mul]. apply Z.abs_nonneg.
    + cbn [BV]. lia.
  - cbn [valid_binary] in Vx, Vy.
    apply bounded_canonical in Vx as [Cx _].
    apply bounded_canonical in Vy as [Cy _].
    pose proof (canonical_emin _ _ Cx) as Hex.
    pose proof (canonical_emin _ _ Cy) as Hey.
    cbn [SFsub].
    set (ez := Z.min ex ey).
    assert (Hez : -1074 <= ez) by (unfold ez; lia).
    pose proof (aligned_value sx mx ex ez Hez ltac:(unfold ez; lia)) as Hx.
    pose proof (aligned_value sy my ey ez Hez ltac:(unfold ez; lia)) as Hy.
    destruct (binary_normalize_error
                (cond_Zopp sx (Zpos (fst (shl_align mx ex ez)))
                 - cond_Zopp sy (Zpos (fst (shl_align my ey ez)))) ez Hez)
      as (Hfin & Herr & Hnan & Hsign).
    rewrite scaled_sub, Hx, Hy in Hfin, Herr, Hsign.
    split; [|split; [exact Herr|split; [exact Hnan|exact Hsign]]].
    intros [H|[H|H]]; [exfalso|exfalso|now apply Hfin].
    + cbn [BV] in H. pose proof (scaled_pos (Zpos mx) ex eq_refl Hex).
      destruct sx; lia.
    + cbn [BV] in H. pose proof (scaled_pos (Zpos my) ey eq_refl Hey).
      destruct sy; lia.
Qed.

(** The same on floats. *)

Lemma ffinite_FV (x : float) : ffinite x -> Z.abs (FV x) <= max_value.
Proof. intros H. apply SFfinite_BV; [apply Prim2SF_valid|exact H]. Qed.

Lemma add_signed (x y : float) :
  ffinite x -> ffinite y ->
  (FV x = 0 \/ FV y = 0 \/ Z.abs (FV x + FV y) < max_value ->
   ffinite (PrimFloat.add x y)) /\
  (ffinite (PrimFloat.add x y) ->
   Z.abs (FV (PrimFloat.add x y) - (FV x + FV y)) * 2 ^ 52
   <= Z.abs (FV (PrimFloat.add x y))) /\
  not_nan (Prim2SF (PrimFloat.add x y)) /\
  (0 <= FV x + FV y -> 0 <= FV (PrimFloat.add x y)).
Proof.
  unfold ffinite, FV. rewrite add_spec. intros Hx Hy.
  apply SFadd_signed; (apply Prim2SF_valid || assumption).
Qed.

Lemma sub_signed (x y : float) :
  ffinite x -> ffinite y ->
  (FV x = 0 \/ FV y = 0 \/ Z.abs (FV x - FV y) < max_value ->
   ffinite (PrimFloat.sub x y)) /\
  (ffinite (PrimFloat.sub x y) ->
   Z.abs (FV (PrimFloat.sub x y) - (FV x - FV y)) * 2 ^ 52
   <= Z.abs (FV (PrimFloat.sub x y))) /\
  not_nan (Prim2SF (PrimFloat.sub x y)) /\
  (0 <= FV x - FV y -> 0 <= FV (PrimFloat.sub x y)).
Proof.
  unfold ffinite, FV. rewrite sub_spec. intros Hx Hy.
  apply SFsub_signed; (apply Prim2SF_valid || assumption).
Qed.

Lemma fnonneg_finite (x : float) : fnonneg x -> FV x < huge -> ffinite x.
Proof.
  unfold fnonneg, ffinite, FV.
  destruct (Prim2SF x) as [s|[]| |[] m e]; cbn; try tauto.
  intros _ H. exact (Z.lt_irrefl _ H).
Qed.

Lemma ffinite_lt_huge (x : float) : ffinite x -> FV x < huge.
Proof.
  intros H. pose proof (SFfinite_lt_huge _ (Prim2SF_valid x) H).
  unfold FV. lia.
Qed.

(** ** Division of floats *)

Lemma SFdiv_core_spec (mx my : positive) (ex ey : Z) :
  exists l,
    SFdiv_core_binary prec emax (Zpos mx) ex (Zpos my) ey
    = (fdiv_quot mx ex my ey, fdiv_exp mx ex my ey, l).
Proof.
  unfold SFdiv_core_binary, fdiv_quot, fdiv_exp.
  set (e' := Z.min (fexp (Zdigits2 (Zpos mx) + ex - (Zdigits2 (Zpos my) + ey)))
               (ex - ey)).
  assert (Hs : 0 <= ex - ey - e') by (unfold e'; lia).
  assert (Hm' : match ex - ey - e' with
                | 0 => Zpos mx
                | Zpos _ => Z.shiftl (Zpos mx) (ex - ey - e')
                | Zneg _ => 0
                end = Zpos mx * 2 ^ (ex - ey - e')).
  { destruct (ex - ey - e') as [|p|p] eqn:Es.
    - rewrite Z.pow_0_r. lia.
    - rewrite Z.shiftl_mul_pow2 by lia. reflexivity.
    - lia. }
  rewrite Hm'. unfold Z.div.
  destruct (Z.div_eucl (Zpos mx * 2 ^ (ex - ey - e')) (Zpos my)) as [q r].
  eexists. reflexivity.
Qed.

(** Rounding a quotient of which nothing is left at the smallest
    exponent: the result is 0 or the smallest positive number. *)
Lemma binary_round_aux_zero (s : bool) (ex : Z) (l : location) :
  ex <= -1074 ->
  exists m2,
    0 <= m2 <= 1 /\
    rounds_to s (-1074) m2 (binary_round_aux prec emax s 0 ex l).
Proof.
  intros Hex. unfold binary_round_aux.
  pose proof (shr_fexp_spec 0 ex l (Z.le_refl 0)) as (Hm1 & He1).
  cbv zeta in Hm1, He1. rewrite Zdigits2_0 in Hm1, He1.
  rewrite fexp_eq in Hm1, He1.
  destruct (shr_fexp prec emax 0 ex l) as [mrs' e'].
  cbn [fst snd] in Hm1, He1.
  rewrite Z.div_0_l in Hm1 by (apply Z.pow_nonzero; lia).
  assert (E : e' = -1074) by lia. clear He1. subst e'.
  pose proof (round_nearest_even_bounds (shr_m mrs') (loc_of_shr_record mrs'))
    as Hrne.
  set (m2 := round_nearest_even (shr_m mrs') (loc_of_shr_record mrs')) in *.
  rewrite Hm1 in Hrne.
  exists m2. split; [lia|].
  assert (Hm2 : m2 = 0 \/ m2 = 1) by lia.
  destruct Hm2 as [->| ->].
  - pose proof (shr_fexp_spec 0 (-1074) loc_Exact (Z.le_refl 0)) as (Hm3 & _).
    cbv zeta in Hm3.
    destruct (shr_fexp prec emax 0 (-1074) loc_Exact) as [mrs'' e''].
    cbn [fst] in Hm3.
    rewrite Z.div_0_l in Hm3 by (apply Z.pow_nonzero; lia).
    rewrite Hm3. now apply rounds_zero.
  - rewrite shr_fexp_canonical by reflexivity.
    cbn [shr_record_of_loc shr_m].
    apply rounds_finite; reflexivity.
Qed.

(** What [rounds_to] describes when the mantissa is below the overflow
    threshold. *)
Lemma rounds_to_finite_value (e1 m2 : Z) (r : spec_float) :
  rounds_to false e1 m2 r -> -1074 <= e1 -> 0 <= m2 ->
  m2 < 2 ^ (1024 - e1) ->
  BV r = scaled m2 e1 /\ BV r < huge.
Proof.
  intros [H0|m3 e3 Hb He Hm|Hinf] He1 Hm2 Hlt.
  - subst m2. unfold scaled. cbn [BV]. split; [lia|apply huge_pos].
  - cbn [BV]. split.
    + unfold scaled. rewrite <- Hm.
      rewrite <- Z.mul_assoc, <- Z.pow_add_r by lia. do 2 f_equal. lia.
    + apply bounded_canonical in Hb as [Hc Hmax].
      now apply scaled_lt_huge.
  - exfalso. exact (Z.lt_irrefl _ (Z.lt_le_trans _ _ _ Hlt Hinf)).
Qed.

(** The quotient of two positive floats, the first at most twice the
    second: the result is finite and within one unit of its last place of the
    exact quotient.  In units of [2^-1074], with [X], [S] and [R] the
    values of the operands and of the result, the exact quotient is
    [X * 2^1074 / S]. *)
Lemma SFdiv_finite_error (mx my : positive) (ex ey : Z) :
  bounded prec emax mx ex = true -> bounded prec emax my ey = true ->
  scaled (Zpos mx) ex <= 2 * scaled (Zpos my) ey ->
  nonneg (SFdiv prec emax (S754_finite false mx ex) (S754_finite false my ey))
  /\
  BV (SFdiv prec emax (S754_finite false mx ex) (S754_finite false my ey))
  < huge /\
  Z.abs (BV (SFdiv prec emax (S754_finite false mx ex)
               (S754_finite false my ey)) * scaled (Zpos my) ey
         - scaled (Zpos mx) ex * 2 ^ 1074) * 2 ^ 52
  <= scaled (Zpos my) ey
     * (BV (SFdiv prec emax (S754_finite false mx ex)
              (S754_finite false my ey)) + 2 ^ 52).
Proof.
  intros Bx By Hle.
  apply bounded_canonical in Bx as [Cx Hx].
  apply bounded_canonical in By as [Cy Hy].
  pose proof (canonical_emin _ _ Cx) as Hex.
  pose proof (canonical_emin _ _ Cy) as Hey.
  pose proof (canonical_upper (Zpos mx) ex eq_refl Cx) as Hux.
  pose proof (Zdigits2_bounds (Zpos mx) eq_refl) as [Hx1 Hx2].
  pose proof (Zdigits2_bounds (Zpos my) eq_refl) as [Hy1 Hy2].
  pose proof (Zdigits2_pos (Zpos mx) eq_refl) as Hd1.
  pose proof (Zdigits2_pos (Zpos my) eq_refl) as Hd2.
  pose proof (Zdigits2_le (Zpos mx) 53 eq_refl Hux ltac:(lia)) as Hd53.
  cbn [SFdiv xorb].
  destruct (SFdiv_core_spec mx my ex ey) as (l & ->).
  unfold fdiv_quot.
  set (e' := fdiv_exp mx ex my ey).
  set (d1 := Zdigits2 (Zpos mx)) in *. set (d2 := Zdigits2 (Zpos my)) in *.
  assert (He' : e' = Z.min (Z.max (d1 + ex - (d2 + ey) - 53) (-1074)) (ex - ey))
    by (unfold e', fdiv_exp; rewrite fexp_eq; reflexivity).
  set (s := ex - ey - e').
  assert (Hs : 0 <= s) by (unfold s; lia).
  assert (Hc0 : 0 <= e' + ey + 2148) by lia.
  set (q := Zpos mx * 2 ^ s / Zpos my).
  assert (HA : 0 < 2 ^ s) by (apply Z.pow_pos_nonneg; lia).
  assert (HC : 0 < 2 ^ (e' + ey + 2148)) by (apply Z.pow_pos_nonneg; lia).
  assert (Hq0 : 0 <= q) by (apply Z.div_pos; lia).
  (* the operands in units of 2^-1074 *)
  assert (HXU : scaled (Zpos mx) ex * 2 ^ 1074
                = Zpos mx * 2 ^ s * 2 ^ (e' + ey + 2148)).
  { unfold scaled. rewrite <- !Z.mul_assoc, <- !Z.pow_add_r by lia.
    do 2 f_equal. unfold s. lia. }
  pose proof (scaled_pos (Zpos my) ey eq_refl Hey) as HS.
  destruct (Z.eq_dec q 0) as [Hz|Hnz].
  - (* nothing is left of the quotient *)
    assert (Hsmall : Zpos mx * 2 ^ s < Zpos my).
    { apply Z.div_small_iff in Hz; lia. }
    assert (Hemin : e' <= -1074).
    { destruct (Z.le_gt_cases e' (-1074)) as [H|H]; [exact H|exfalso].
      assert (Es : s = 53 + d2 - d1) by (unfold s; lia).
      assert (Hp : 2 ^ (d1 - 1) * 2 ^ s = 2 ^ 52 * 2 ^ d2).
      { rewrite <- !Z.pow_add_r by lia. f_equal. lia. }
      assert (0 < 2 ^ 52) by (apply Z.pow_pos_nonneg; lia).
      clear - Hsmall Hp Hx1 Hy2 HA H0.
      set (A := 2 ^ s) in *. set (P := 2 ^ (d1 - 1)) in *.
      set (D := 2 ^ d2) in *. change (2 ^ 52) with 4503599627370496 in *.
      clearbody A P D. nia. }
    rewrite Hz.
    destruct (binary_round_aux_zero false e' l Hemin) as (m2 & Hm2 & Hr).
    destruct (rounds_to_finite_value _ _ _ Hr (Z.le_refl _) (proj1 Hm2))
      as [Hv Hfin].
    { apply Z.le_lt_trans with (1 := proj2 Hm2).
      apply (Z.pow_lt_mono_r 2 0); lia. }
    split; [eapply rounds_to_nonneg, Hr|]. split; [exact Hfin|].
    assert (Hm2v : scaled m2 (-1074) = m2).
    { unfold scaled. change (-1074 + 1074) with 0.
      now rewrite Z.pow_0_r, Z.mul_1_r. }
    rewrite Hv, Hm2v, HXU.
    assert (HCS : Zpos my * 2 ^ (e' + ey + 2148) <= scaled (Zpos my) ey).
    { unfold scaled. apply Z.mul_le_mono_nonneg_l; [lia|].
      apply Z.pow_le_mono_r; lia. }
    change (2 ^ 52) with 4503599627370496.
    clear - Hm2 Hsmall HA HC HCS HS.
    set (A := 2 ^ s) in *. set (C := 2 ^ (e' + ey + 2148)) in *.
    set (S := scaled (Zpos my) ey) in *. set (X := Zpos mx) in *.
    set (Y := Zpos my) in *.
    assert (HX0 : 0 < X) by reflexivity. clearbody A C S X Y.
    assert (H1 : 0 <= X * A * C) by nia.
    assert (H2 : X * A * C <= S) by nia.
    assert (Hm : m2 = 0 \/ m2 = 1) by lia.
    destruct Hm as [-> | ->]; lia.
  - assert (Hq : 0 < q) by lia.
    assert (Hpre : e' <= fexp (Zdigits2 q + e')).
    { rewrite fexp_eq.
      destruct (Z.le_gt_cases e' (-1074)) as [H|H]; [lia|].
      assert (Es : s = 53 + d2 - d1) by (unfold s; lia).
      assert (H52 : 2 ^ 52 <= q).
      { apply Z.div_le_lower_bound; [lia|].
        assert (Hp : 2 ^ (d1 - 1) * 2 ^ s = 2 ^ 52 * 2 ^ d2).
        { rewrite <- !Z.pow_add_r by lia. f_equal. lia. }
        assert (0 < 2 ^ 52) by (apply Z.pow_pos_nonneg; lia).
        clear - Hp Hx1 Hy2 HA H0.
        set (A := 2 ^ s) in *. set (P := 2 ^ (d1 - 1)) in *.
        set (D := 2 ^ d2) in *. change (2 ^ 52) with 4503599627370496 in *.
        clearbody A P D. nia. }
      pose proof (Zdigits2_ge q 53 H52 ltac:(lia)). lia. }
    destruct (binary_round_aux_spec false q e' l Hq Hpre) as (m2 & Hm2 & Hr).
    set (e1 := fexp (Zdigits2 q + e')) in *.
    assert (He1 : -1074 <= e1) by (unfold e1; rewrite fexp_eq; lia).
    set (k := e1 - e') in *.
    assert (Hk : 0 <= k) by (unfold k; lia).
    assert (HB : 0 < 2 ^ k) by (apply Z.pow_pos_nonneg; lia).
    set (t := q / 2 ^ k) in *.
    assert (Et : t = Zpos mx * 2 ^ s / (Zpos my * 2 ^ k)).
    { unfold t, q. apply Z.div_div; lia. }
    assert (Hlo : Zpos my * 2 ^ k * t <= Zpos mx * 2 ^ s).
    { rewrite Et. apply Z.mul_div_le. lia. }
    assert (Hhi : Zpos mx * 2 ^ s < Zpos my * 2 ^ k * (t + 1)).
    { rewrite Et. apply Z.mul_succ_div_gt. lia. }
    assert (Ht0 : 0 <= t) by (apply Z.div_pos; lia).
    (* one unit of the last place of the result, times the divisor *)
    assert (HG : 2 ^ (e1 + 1074) * scaled (Zpos my) ey
                 = Zpos my * 2 ^ k * 2 ^ (e' + ey + 2148)).
    { unfold scaled.
      replace (2 ^ (e1 + 1074) * (Zpos my * 2 ^ (ey + 1074)))
        with (Zpos my * (2 ^ (e1 + 1074) * 2 ^ (ey + 1074))) by ring.
      rewrite <- Z.mul_assoc, <- !Z.pow_add_r by lia.
      do 2 f_equal. unfold k. lia. }
    assert (Hulp : 0 < 2 ^ (e1 + 1074)) by (apply Z.pow_pos_nonneg; lia).
    assert (Hnorm : e1 = -1074 \/ 2 ^ 52 <= t).
    { destruct (Z.eq_dec e1 (-1074)) as [E|E]; [now left|right].
      apply truncated_digits; [exact Hq|exact Hpre|fold e1; lia]. }
    assert (HU : 0 < 2 ^ 1074) by (apply Z.pow_pos_nonneg; lia).
    (* the truncated quotient is at most 2 *)
    assert (HtU : t * 2 ^ (e1 + 1074) <= 2 * 2 ^ 1074).
    { apply (Z.mul_le_mono_pos_l _ _ (scaled (Zpos my) ey) HS).
      apply Z.le_trans with (scaled (Zpos mx) ex * 2 ^ 1074).
      - rewrite HXU.
        replace (scaled (Zpos my) ey * (t * 2 ^ (e1 + 1074)))
          with (t * (2 ^ (e1 + 1074) * scaled (Zpos my) ey)) by ring.
        rewrite HG.
        clear - Hlo HC Ht0.
        set (A := 2 ^ s) in *. set (B := 2 ^ k) in *.
        set (C := 2 ^ (e' + ey + 2148)) in *. clearbody A B C. nia.
      - replace (scaled (Zpos my) ey * (2 * 2 ^ 1074))
          with (2 * scaled (Zpos my) ey * 2 ^ 1074) by ring.
        apply Z.mul_le_mono_nonneg_r; [exact (Z.lt_le_incl _ _ HU)|exact Hle]. }
    assert (Hulp1 : 2 ^ (e1 + 1074) <= 2 ^ 1074).
    { destruct Hnorm as [E|H52].
      - apply Z.pow_le_mono_r; lia.
      - change (2 ^ 52) with 4503599627370496 in H52.
        clear - HtU H52 Hulp. set (u := 2 ^ (e1 + 1074)) in *.
        set (U := 2 ^ 1074) in *. clearbody u U. nia. }
    assert (He10 : e1 <= 0).
    { destruct (Z.le_gt_cases e1 0) as [H|H]; [exact H|exfalso].
      assert (2 ^ 1074 < 2 ^ (e1 + 1074)) by (apply Z.pow_lt_mono_r; lia).
      lia. }
    destruct (rounds_to_finite_value _ _ _ Hr He1 ltac:(lia)) as [Hv Hfin].
    { (* m2 * ulp <= 3 * 2^1074 < 2^2098 *)
      assert (Hp : 2 ^ (1024 - e1) * 2 ^ (e1 + 1074) = 2 ^ 2098).
      { rewrite <- Z.pow_add_r by lia. f_equal. lia. }
      assert (H2U : 4 * 2 ^ 1074 < 2 ^ 2098).
      { change 4 with (2 ^ 2). rewrite <- Z.pow_add_r by lia.
        apply Z.pow_lt_mono_r; lia. }
      assert (Hm2' : m2 <= t + 1) by (fold k in Hm2; fold t in Hm2; lia).
      clear - Hp H2U Hm2' HtU Hulp1 Hulp.
      set (u := 2 ^ (e1 + 1074)) in *. set (U := 2 ^ 1074) in *.
      set (W := 2 ^ 2098) in *. set (V := 2 ^ (1024 - e1)) in *.
      clearbody u U W V. nia. }
    split; [eapply rounds_to_nonneg, Hr|]. split; [exact Hfin|].
    assert (Hm2s : scaled m2 e1 = m2 * 2 ^ (e1 + 1074)) by reflexivity.
    rewrite Hv, HXU, Hm2s.
    fold k in Hm2. fold t in Hm2.
    assert (HG' : m2 * 2 ^ (e1 + 1074) * scaled (Zpos my) ey
                  = m2 * (Zpos my * 2 ^ k * 2 ^ (e' + ey + 2148)))
      by (rewrite <- HG; ring).
    rewrite HG'.
    assert (Hfinal : 2 ^ (e1 + 1074) * 2 ^ 52 <= m2 * 2 ^ (e1 + 1074) + 2 ^ 52).
    { destruct Hnorm as [E|H52].
      - assert (Hu1 : 2 ^ (e1 + 1074) = 1) by (rewrite E; reflexivity).
        rewrite Hu1. change (2 ^ 52) with 4503599627370496.
        clear - Hm2 Ht0. lia.
      - change (2 ^ 52) with 4503599627370496 in *.
        clear - H52 Hm2 Hulp. set (u := 2 ^ (e1 + 1074)) in *.
        clearbody u. nia. }
    assert (HGS : Zpos my * 2 ^ k * 2 ^ (e' + ey + 2148)
                  = 2 ^ (e1 + 1074) * scaled (Zpos my) ey) by (symmetry; exact HG).
    change (2 ^ 52) with 4503599627370496 in *.
    clear - Hlo Hhi Hm2 HC HGS Hfinal HS Hulp HB.
    set (A := 2 ^ s) in *. set (B := 2 ^ k) in *.
    set (C := 2 ^ (e' + ey + 2148)) in *.
    set (u := 2 ^ (e1 + 1074)) in *.
    set (S := scaled (Zpos my) ey) in *.
    set (X := Zpos mx) in *. set (Y := Zpos my) in *.
    assert (HY : 0 < Y) by reflexivity.
    clearbody A B C u S X Y.
    assert (Hd : Z.abs (m2 * (Y * B * C) - X * A * C) <= Y * B * C).
    { assert (Y * B * t * C <= X * A * C) by nia.
      assert (X * A * C < Y * B * (t + 1) * C) by nia.
      assert (Hm : m2 = t \/ m2 = t + 1) by lia.
      destruct Hm as [-> | ->]; lia. }
    rewrite HGS in Hd |- *.
    assert (u * S * 4503599627370496 <= S * (m2 * u + 4503599627370496)) by nia.
    lia.
Qed.

Lemma SFdiv_error (x y : spec_float) :
  valid_binary x = true -> valid_binary y = true ->
  nonneg x -> nonneg y ->
  0 < BV y -> BV y < huge -> BV x <= 2 * BV y ->
  nonneg (SFdiv prec emax x y) /\
  BV (SFdiv prec emax x y) < huge /\
  Z.abs (BV (SFdiv prec emax x y) * BV y - BV x * 2 ^ 1074) * 2 ^ 52
  <= BV y * (BV (SFdiv prec emax x y) + 2 ^ 52).
Proof.
  intros Vx Vy Nx Ny Hy0 Hyh Hxy.
  destruct y as [sy|[]| |[] my ey]; try contradiction; cbn [BV] in Hy0, Hyh.
  - exfalso. exact (Z.lt_irrefl _ Hy0).
  - exfalso. exact (Z.lt_irrefl _ Hyh).
  - destruct x as [sx|[]| |[] mx ex]; try contradiction.
    + cbn [SFdiv BV]. split; [exact I|]. split; [apply huge_pos|].
      cbn [Z.mul Z.sub Z.abs Z.add].
      apply Z.mul_nonneg_nonneg; [exact (Z.lt_le_incl _ _ Hy0)|].
      apply Z.pow_nonneg. discriminate.
    + cbn [BV] in Hxy. exfalso. cbn [valid_binary] in Vy.
      apply bounded_canonical in Vy as [Cy Hey].
      pose proof (scaled_lt_2098 (Zpos my) ey eq_refl Cy Hey) as Hlt.
      pose proof two_2098_lt_huge as Hh.
      clear - Hxy Hlt Hh. set (W := 2 ^ 2098) in *. clearbody W. lia.
    + cbn [valid_binary] in Vx, Vy. cbn [BV] in Hxy |- *.
      now apply SFdiv_finite_error.
Qed.

Lemma div_error (p s : float) :
  fnonneg p -> fnonneg s -> 0 < FV s -> FV s < huge -> FV p <= 2 * FV s ->
  fnonneg (PrimFloat.div p s) /\
  FV (PrimFloat.div p s) < huge /\
  Z.abs (FV (PrimFloat.div p s) * FV s - FV p * 2 ^ 1074) * 2 ^ 52
  <= FV s * (FV (PrimFloat.div p s) + 2 ^ 52).
Proof.
  unfold fnonneg, FV. rewrite div_spec. intros Hp Hs.
  apply SFdiv_error; (apply Prim2SF_valid || assumption).
Qed.

(** The left-to-right float sum of non-negative numbers, when it is
    finite, differs from the exact sum by at most [n * 2^-52] times
    itself, and no term is above it. *)
Lemma fold_add_error (ps : list float) : forall t : float,
  fnonneg t -> (forall p, In p ps -> fnonneg p) ->
  FV (fold_left PrimFloat.add ps t) < huge ->
  Z.abs (FV (fold_left PrimFloat.add ps t) - (FV t + exact_total ps)) * 2 ^ 52
  <= Z.of_nat (length ps) * FV (fold_left PrimFloat.add ps t) /\
  (forall p, In p ps -> FV p <= FV (fold_left PrimFloat.add ps t)).
Proof.
  induction ps as [|p ps IH]; intros t Ht Hps Hfin.
  - cbn. split; [|intros p []].
    replace (FV t - (FV t + 0)) with 0 by lia. reflexivity.
  - cbn [fold_left] in *.
    pose proof (Hps p (or_introl eq_refl)) as Hp.
    destruct (add_fnonneg t p Ht Hp) as [Hn _].
    destruct (fold_add_fnonneg ps (PrimFloat.add t p) Hn
                (fun q Hq => Hps q (or_intror Hq))) as [_ Hmono].
    destruct (add_error t p Ht Hp (Z.le_lt_trans _ _ _ Hmono Hfin))
      as [Herr Hpt].
    destruct (IH (PrimFloat.add t p) Hn (fun q Hq => Hps q (or_intror Hq)) Hfin)
      as [IHerr IHle].
    split.
    + unfold exact_total in *. cbn [map fold_right length].
      rewrite Nat2Z.inj_succ, Z.mul_succ_l.
      change (2 ^ 52) with 4503599627370496 in *.
      clear - Herr IHerr Hmono. lia.
    + intros q [<-|Hq]; [lia|now apply IHle].
Qed.

(** The quotients of the terms by the sum: their exact total against the
    exact total of the terms. *)
Lemma rescale_error (s : float) (ps : list float) :
  fnonneg s -> 0 < FV s -> FV s < huge ->
  (forall p, In p ps -> fnonneg p /\ FV p <= 2 * FV s) ->
  Z.abs (exact_total (map (fun p => PrimFloat.div p s) ps) * FV s
         - exact_total ps * 2 ^ 1074) * 2 ^ 52
  <= FV s * (exact_total (map (fun p => PrimFloat.div p s) ps)
             + Z.of_nat (length ps) * 2 ^ 52).
Proof.
  intros Hs Hs0 Hsh. induction ps as [|p ps IH]; intros Hps.
  - cbn. lia.
  - destruct (Hps p (or_introl eq_refl)) as [Hp Hle].
    destruct (div_error p s Hp Hs Hs0 Hsh Hle) as (_ & _ & Herr).
    specialize (IH (fun q Hq => Hps q (or_intror Hq))).
    unfold exact_total in *. cbn [map fold_right length].
    rewrite Nat2Z.inj_succ.
    change (2 ^ 52) with 4503599627370496 in *.
    clear - Herr IH Hs0.
    set (U := 2 ^ 1074) in *. clearbody U.
    set (Qh := FV (PrimFloat.div p s)) in *.
    set (Qt := fold_right Z.add 0
                 (map FV (map (fun p => PrimFloat.div p s) ps))) in *.
    set (Pt := fold_right Z.add 0 (map FV ps)) in *.
    set (n := Z.of_nat (length ps)) in *.
    set (S := FV s) in *. set (Ph := FV p) in *.
    clearbody Qh Qt Pt n S Ph.
    replace ((Qh + Qt) * S - (Ph + Pt) * U)
      with ((Qh * S - Ph * U) + (Qt * S - Pt * U)) by ring.
    replace (S * (Qh + Qt + Z.succ n * 4503599627370496))
      with (S * (Qh + 4503599627370496) + S * (Qt + n * 4503599627370496))
      by ring.
    lia.
Qed.

(** Rescaling non-negative numbers by a finite positive number [s] that
    is their sum within [k * 2^-52] of itself, none of them above twice
    [s]: the exact total of the quotients is within
    [(n + k + 1) * 2^-51] of 1. *)
Lemma rescaled_total_by (s : float) (ps : list float) (k : Z) :
  fnonneg s -> 0 < FV s -> FV s < huge ->
  (forall p, In p ps -> fnonneg p /\ FV p <= 2 * FV s) ->
  Z.abs (FV s - exact_total ps) * 2 ^ 52 <= k * FV s ->
  Z.abs (exact_total (map (fun p => PrimFloat.div p s) ps) - 2 ^ 1074)
  * 2 ^ 51
  <= (Z.of_nat (length ps) + k + 1) * 2 ^ 1074.
Proof.
  intros Hs Hs0 Hsh Hps HA.
  pose proof (rescale_error s ps Hs Hs0 Hsh Hps) as HB.
  assert (HU : 2 ^ 1074 = 4503599627370496 * 2 ^ 1022)
    by (change 4503599627370496 with (2 ^ 52);
        rewrite <- Z.pow_add_r by lia; reflexivity).
  assert (HV : 0 < 2 ^ 1022) by (apply Z.pow_pos_nonneg; lia).
  change (2 ^ 52) with 4503599627370496 in *.
  change (2 ^ 51) with 2251799813685248.
  pose proof (Nat2Z.is_nonneg (length ps)) as Hn0.
  rewrite HU in *. clear HU Hsh Hs Hps.
  set (V := 2 ^ 1022) in *.
  set (Q := exact_total (map (fun p => PrimFloat.div p s) ps)) in *.
  set (P := exact_total ps) in *. set (S := FV s) in *.
  set (n := Z.of_nat (length ps)) in *.
  clearbody V Q P S n.
  assert (Hk : 0 <= k) by nia.
  assert (H1 : Z.abs (P * (4503599627370496 * V) - S * (4503599627370496 * V))
               * 4503599627370496
               <= k * S * (4503599627370496 * V)).
  { replace (P * (4503599627370496 * V) - S * (4503599627370496 * V))
      with (- (S - P) * (4503599627370496 * V)) by ring.
    rewrite Z.abs_mul, Z.abs_opp, (Z.abs_eq (4503599627370496 * V)) by lia.
    nia. }
  assert (H2 : S * (Z.abs (Q - 4503599627370496 * V) * 4503599627370496)
               <= S * (Q + n * 4503599627370496 + k * (4503599627370496 * V))).
  { replace (S * (Z.abs (Q - 4503599627370496 * V) * 4503599627370496))
      with (Z.abs (Q * S - S * (4503599627370496 * V)) * 4503599627370496).
    - lia.
    - replace (Q * S - S * (4503599627370496 * V))
        with (S * (Q - 4503599627370496 * V)) by ring.
      rewrite Z.abs_mul, (Z.abs_eq S) by lia. ring. }
  apply Z.mul_le_mono_pos_l in H2; [|exact Hs0].
  clear - H2 HV Hn0 Hk. nia.
Qed.

Lemma fnonneg_eqb_zero (s : float) :
  fnonneg s -> PrimFloat.eqb s zero = false -> 0 < FV s.
Proof.
  unfold fnonneg, FV. rewrite eqb_spec. pose proof (Prim2SF_valid s) as Hv.
  change (Prim2SF zero) with (S754_zero false).
  destruct (Prim2SF s) as [sg|[]| |[] m e]; try contradiction; intros _.
  - now destruct sg.
  - intros _. apply huge_pos.
  - intros _. cbn [valid_binary] in Hv.
    apply bounded_canonical in Hv as [Hc _]. cbn [BV].
    apply scaled_pos; [reflexivity|]. now apply canonical_emin in Hc.
Qed.

Lemma ltb_infinity_finite (s : float) :
  PrimFloat.ltb s infinity = true -> FV s < huge.
Proof.
  rewrite ltb_spec. unfold FV, SFltb. pose proof (Prim2SF_valid s) as Hv.
  change (Prim2SF infinity) with (S754_infinity false).
  destruct (Prim2SF s) as [sg|sg| |sg m e]; cbn [SFcompare BV].
  - intros _. apply huge_pos.
  - destruct sg; [|discriminate]. intros _.
    pose proof huge_pos. lia.
  - discriminate.
  - intros _. cbn [valid_binary] in Hv.
    apply bounded_canonical in Hv as [Hc He].
    pose proof (scaled_lt_huge (Zpos m) e eq_refl Hc He) as H.
    pose proof (scaled_pos (Zpos m) e eq_refl (canonical_emin _ _ Hc)).
    destruct sg; lia.
Qed.

(** Rescaling non-negative numbers by their finite, nonzero left-to-right
    sum gives numbers whose exact total is within [(2n + 1) * 2^-51]
    of 1. *)
Lemma rescaled_total (ps : list float) :
  (forall p, In p ps -> PrimFloat.leb 0 p = true) ->
  PrimFloat.ltb (running_sum ps) infinity = true ->
  PrimFloat.eqb (running_sum ps) zero = false ->
  Z.abs (exact_total (map (fun p => PrimFloat.div p (running_sum ps)) ps)
         - 2 ^ 1074) * 2 ^ 51
  <= (2 * Z.of_nat (length ps) + 1) * 2 ^ 1074.
Proof.
  intros Hps Hfin Hnz.
  assert (Hn : forall p, In p ps -> fnonneg p)
    by (intros p Hp; apply leb_zero_fnonneg, Hps, Hp).
  assert (Hs : fnonneg (running_sum ps)).
  { unfold running_sum. apply fold_add_fnonneg; [exact I|exact Hn]. }
  pose proof (fnonneg_eqb_zero _ Hs Hnz) as Hs0.
  pose proof (ltb_infinity_finite _ Hfin) as Hsh.
  destruct (fold_add_error ps zero I Hn Hsh) as [HA Hle].
  fold (running_sum ps) in HA, Hle.
  change (FV zero) with 0 in HA. rewrite Z.add_0_l in HA.
  replace (2 * Z.of_nat (length ps) + 1)
    with (Z.of_nat (length ps) + Z.of_nat (length ps) + 1) by ring.
  apply rescaled_total_by; try assumption.
  intros p Hp. split; [now apply Hn|]. specialize (Hle p Hp). lia.
Qed.

(** ** The compensated sum of non-negative numbers *)

Lemma max_value_pos : 0 < max_value.
Proof.
  unfold max_value.
  assert (2 ^ 2045 < 2 ^ 2098) by (apply Z.pow_lt_mono_r; lia). lia.
Qed.

(** The correction term of one step: with [t] the rounded sum of [g] and
    [h], the float [(g - t) + h] is finite and at most [4 * 2^-52] times
    [t] in magnitude. *)
Lemma correction_bound (g h t : float) :
  fnonneg g -> fnonneg h -> fnonneg t -> FV t < huge ->
  FV g <= FV t -> FV h <= FV t ->
  Z.abs (FV t - (FV g + FV h)) * 2 ^ 52 <= FV t ->
  ffinite (PrimFloat.add (PrimFloat.sub g t) h) /\
  Z.abs (FV (PrimFloat.add (PrimFloat.sub g t) h)) * 2 ^ 52 <= 4 * FV t.
Proof.
  intros Ng Nh Nt Ht Hg Hh Herr.
  pose proof (nonneg_BV _ (Prim2SF_valid g) Ng) as Hg0. fold (FV g) in Hg0.
  pose proof (nonneg_BV _ (Prim2SF_valid h) Nh) as Hh0. fold (FV h) in Hh0.
  assert (Fg : ffinite g) by (apply fnonneg_finite; [exact Ng|lia]).
  assert (Fh : ffinite h) by (apply fnonneg_finite; [exact Nh|lia]).
  assert (Ft : ffinite t) by (apply fnonneg_finite; assumption).
  pose proof (ffinite_FV t Ft) as Htm.
  pose proof max_value_pos as Hmax.
  change (2 ^ 52) with 4503599627370496 in *.
  destruct (sub_signed g t Fg Ft) as (Hfa & Hea & _ & _).
  assert (Fa : ffinite (PrimFloat.sub g t)).
  { apply Hfa. destruct (Z.eq_dec (FV g) 0) as [E|E]; [now left|].
    right. right. clear - Hg0 E Hg Htm. lia. }
  specialize (Hea Fa). change (2 ^ 52) with 4503599627370496 in Hea.
  set (a := PrimFloat.sub g t) in *.
  destruct (add_signed a h Fa Fh) as (Hfb & Heb & _ & _).
  assert (Fb : ffinite (PrimFloat.add a h)).
  { apply Hfb. right. right. clear - Hea Herr Hg0 Hh0 Hg Hh Htm Hmax. lia. }
  specialize (Heb Fb). change (2 ^ 52) with 4503599627370496 in Heb.
  split; [exact Fb|].
  clear - Hea Heb Herr Hg0 Hh0 Hg Hh. lia.
Qed.

(** One step of the compensated sum: the new compensation is finite and
    its bound grows by [5 * 2^-52] times the new total. *)
Lemma neumaier_step (f x c : float) (i : Z) :
  fnonneg f -> fnonneg x -> ffinite c ->
  FV (PrimFloat.add f x) < huge ->
  0 <= i -> 5 * i + 5 <= 2 ^ 52 ->
  Z.abs (FV c) * 2 ^ 52 <= 5 * i * FV f ->
  ffinite (if PrimFloat.leb (abs x) (abs f)
           then PrimFloat.add c
                  (PrimFloat.add (PrimFloat.sub f (PrimFloat.add f x)) x)
           else PrimFloat.add c
                  (PrimFloat.add (PrimFloat.sub x (PrimFloat.add f x)) f)) /\
  Z.abs (FV (if PrimFloat.leb (abs x) (abs f)
             then PrimFloat.add c
                    (PrimFloat.add (PrimFloat.sub f (PrimFloat.add f x)) x)
             else PrimFloat.add c
                    (PrimFloat.add (PrimFloat.sub x (PrimFloat.add f x)) f)))
  * 2 ^ 52
  <= 5 * (i + 1) * FV (PrimFloat.add f x).
Proof.
  intros Nf Nx Fc Ht Hi Hlen Hc.
  destruct (add_fnonneg f x Nf Nx) as [Nt Hft].
  destruct (add_error f x Nf Nx Ht) as [Herr Hxt].
  set (t := PrimFloat.add f x) in *.
  pose proof (nonneg_BV _ (Prim2SF_valid f) Nf) as Hf0. fold (FV f) in Hf0.
  pose proof (nonneg_BV _ (Prim2SF_valid t) Nt) as Ht0. fold (FV t) in Ht0.
  assert (Ft : ffinite t) by (apply fnonneg_finite; assumption).
  pose proof (ffinite_FV t Ft) as Htm.
  pose proof max_value_pos as Hmax.
  assert (Hstep : forall b : float,
            ffinite b -> Z.abs (FV b) * 2 ^ 52 <= 4 * FV t ->
            ffinite (PrimFloat.add c b) /\
            Z.abs (FV (PrimFloat.add c b)) * 2 ^ 52 <= 5 * (i + 1) * FV t).
  { intros b Fb Hb.
    destruct (add_signed c b Fc Fb) as (Hfin & He & _ & _).
    change (2 ^ 52) with 4503599627370496 in *.
    assert (HiF : 5 * i * FV f <= 5 * i * FV t)
      by (apply Z.mul_le_mono_nonneg_l; lia).
    assert (HiT : (5 * i + 4) * FV t <= 4503599627370495 * FV t)
      by (apply Z.mul_le_mono_nonneg_r; lia).
    assert (Fcb : ffinite (PrimFloat.add c b)).
    { apply Hfin. right. right.
      clear - Hc Hb HiF HiT Ht0 Htm Hmax.
      set (P := 5 * i * FV t) in *.
      replace ((5 * i + 4) * FV t) with (P + 4 * FV t) in HiT
        by (unfold P; ring).
      clearbody P. lia. }
    split; [exact Fcb|]. specialize (He Fcb).
    clear - Hc Hb HiF HiT Ht0 He.
    replace (5 * (i + 1) * FV t) with (5 * i * FV t + 5 * FV t) by ring.
    set (P := 5 * i * FV t) in *.
    replace ((5 * i + 4) * FV t) with (P + 4 * FV t) in HiT
      by (unfold P; ring).
    clearbody P. lia. }
  destruct (PrimFloat.leb (abs x) (abs f)).
  - destruct (correction_bound f x t Nf Nx Nt Ht Hft Hxt Herr) as [Fb Hb].
    now apply Hstep.
  - assert (Herr' : Z.abs (FV t - (FV x + FV f)) * 2 ^ 52 <= FV t)
      by (rewrite (Z.add_comm (FV x)); exact Herr).
    destruct (correction_bound x f t Nx Nf Nt Ht Hxt Hft Herr') as [Fb Hb].
    now apply Hstep.
Qed.

Lemma ffinite_classify (c : float) :
  ffinite c -> is_nan c = false /\ is_infinity c = false.
Proof.
  unfold ffinite, is_nan, is_infinity.
  rewrite !eqb_spec, abs_spec. unfold SFeqb.
  change (Prim2SF infinity) with (S754_infinity false).
  destruct (Prim2SF c) as [s|s| |s m e]; try contradiction; intros _;
    cbn [SFabs SFcompare].
  - split; reflexivity.
  - rewrite Z.compare_refl, Pos.compare_cont_refl.
    split; [destruct s; reflexivity|reflexivity].
Qed.

(** The compensated sum of non-negative numbers whose left-to-right sum
    [T] is finite: the result is [T], or [T] plus a finite compensation
    of at most [5 * n * 2^-52] times [T] in magnitude. *)
Lemma neumaier_bound (l : list float) : forall (total comp : float) (i : Z),
  fnonneg total -> (forall p, In p l -> fnonneg p) -> ffinite comp ->
  0 <= i -> 5 * (i + Z.of_nat (length l)) + 5 <= 2 ^ 52 ->
  Z.abs (FV comp) * 2 ^ 52 <= 5 * i * FV total ->
  FV (fold_left PrimFloat.add l total) < huge ->
  exists c,
    ffinite c /\
    Z.abs (FV c) * 2 ^ 52
    <= 5 * (i + Z.of_nat (length l)) * FV (fold_left PrimFloat.add l total) /\
    neumaier l total comp
    = if PrimFloat.eqb c zero then fold_left PrimFloat.add l total
      else PrimFloat.add (fold_left PrimFloat.add l total) c.
Proof.
  induction l as [|x l IH]; intros total comp i Nt Nl Fc Hi Hlen Hc Hfin.
  - exists comp. cbn [fold_left neumaier length] in *.
    rewrite Z.add_0_r. split; [exact Fc|]. split; [exact Hc|].
    destruct (ffinite_classify comp Fc) as [-> ->]. reflexivity.
  - cbn [fold_left neumaier] in *.
    pose proof (Nl x (or_introl eq_refl)) as Nx.
    destruct (add_fnonneg total x Nt Nx) as [Nt' _].
    destruct (fold_add_fnonneg l (PrimFloat.add total x) Nt'
                (fun q Hq => Nl q (or_intror Hq))) as [_ Hmono].
    cbn [length] in Hlen |- *. rewrite Nat2Z.inj_succ in Hlen |- *.
    destruct (neumaier_step total x comp i Nt Nx Fc
                (Z.le_lt_trans _ _ _ Hmono Hfin) Hi ltac:(lia) Hc)
      as [Fc' Hc'].
    destruct (IH (PrimFloat.add total x) _ (i + 1) Nt'
                (fun q Hq => Nl q (or_intror Hq)) Fc' ltac:(lia) ltac:(lia)
                Hc' Hfin) as (c & Fcc & Hcc & Heq).
    exists c. split; [exact Fcc|]. split; [|exact Heq].
    replace (i + Z.succ (Z.of_nat (length l)))
      with (i + 1 + Z.of_nat (length l)) by lia.
    exact Hcc.
Qed.

(** When the left-to-right sum overflows, the compensated sum is
    infinite as well. *)
Lemma neumaier_overflow (l : list float) : forall total comp : float,
  fnonneg total -> (forall p, In p l -> fnonneg p) ->
  ~ FV (fold_left PrimFloat.add l total) < huge ->
  Prim2SF (neumaier l total comp) = S754_infinity false.
Proof.
  induction l as [|x l IH]; intros total comp Nt Nl Hinf.
  - cbn [fold_left neumaier] in *.
    assert (Ht : Prim2SF total = S754_infinity false).
    { unfold fnonneg, FV in *. pose proof (Prim2SF_valid total) as Hv.
      destruct (Prim2SF total) as [s|[]| |[] m e]; try contradiction;
        try reflexivity; exfalso; apply Hinf; cbn [BV].
      - apply huge_pos.
      - cbn [valid_binary] in Hv. apply bounded_canonical in Hv as [Hc He].
        now apply scaled_lt_huge. }
    destruct (PrimFloat.eqb comp zero); [exact Ht|].
    destruct (is_nan comp || is_infinity comp) eqn:Ec; [exact Ht|].
    apply orb_false_elim in Ec as [Hn Hi].
    rewrite add_spec, Ht.
    unfold is_nan, is_infinity in Hn, Hi.
    rewrite eqb_spec in Hn, Hi. rewrite abs_spec in Hi.
    change (Prim2SF infinity) with (S754_infinity false) in Hi.
    unfold SFeqb in Hn, Hi.
    destruct (Prim2SF comp) as [s|s| |s m e]; cbn [SFadd]; try reflexivity.
    + cbn in Hi. discriminate.
    + cbn in Hn. discriminate.
  - cbn [fold_left neumaier] in *.
    pose proof (Nl x (or_introl eq_refl)) as Nx.
    destruct (add_fnonneg total x Nt Nx) as [Nt' _].
    apply IH; [exact Nt'|intros q Hq; apply Nl; now right|exact Hinf].
Qed.

Lemma nonneg_value_finite (x : spec_float) :
  valid_binary x = true -> not_nan x -> 0 <= BV x -> BV x < huge ->
  SFfinite x /\ nonneg x.
Proof.
  intros Hv Hn H0 Hh. pose proof huge_pos as Hp.
  destruct x as [s|[]| |[] m e]; cbn [BV SFfinite nonneg] in *;
    try (split; exact I); try lia.
  - now exfalso.
  - cbn [valid_binary] in Hv. apply bounded_canonical in Hv as [Hc _].
    pose proof (scaled_pos (Zpos m) e eq_refl (canonical_emin _ _ Hc)). lia.
Qed.

(** The compensated sum of at most [2^40] non-negative numbers, when it
    is finite and not 0, is positive, within [(12n + 1) * 2^-52] of itself
    from the exact sum, and no term is above twice it. *)
Lemma compensated_sum_error (ps : list float) :
  (forall p, In p ps -> fnonneg p) ->
  Z.of_nat (length ps) <= 2 ^ 40 ->
  PrimFloat.ltb (float_sum_compensated ps) infinity = true ->
  PrimFloat.eqb (float_sum_compensated ps) zero = false ->
  fnonneg (float_sum_compensated ps) /\
  0 < FV (float_sum_compensated ps) /\
  FV (float_sum_compensated ps) < huge /\
  (forall p, In p ps ->
     fnonneg p /\ FV p <= 2 * FV (float_sum_compensated ps)) /\
  Z.abs (FV (float_sum_compensated ps) - exact_total ps) * 2 ^ 52
  <= (12 * Z.of_nat (length ps) + 1) * FV (float_sum_compensated ps).
Proof.
  intros Hn Hlen Hfin Hnz.
  destruct ps as [|x l]; [discriminate Hnz|].
  cbn [float_sum_compensated] in *.
  pose proof (Hn x (or_introl eq_refl)) as Nx.
  destruct (add_fnonneg zero x I Nx) as [N0 _].
  set (T := fold_left PrimFloat.add l (PrimFloat.add zero x)).
  assert (NT : fnonneg T).
  { apply fold_add_fnonneg; [exact N0|]. intros q Hq. apply Hn. now right. }
  pose proof (nonneg_BV _ (Prim2SF_valid T) NT) as HT0. fold (FV T) in HT0.
  destruct (Z_lt_dec (FV T) huge) as [HTh|HTh].
  2:{ exfalso.
      pose proof (neumaier_overflow l (PrimFloat.add zero x) zero N0
                    (fun q Hq => Hn q (or_intror Hq)) HTh) as Hinf.
      rewrite ltb_spec, Hinf in Hfin. discriminate Hfin. }
  assert (Hl40 : 2 ^ 40 = 1099511627776) by reflexivity.
  rewrite Hl40 in Hlen. clear Hl40.
  cbn [length] in Hlen. rewrite Nat2Z.inj_succ in Hlen.
  pose proof (Nat2Z.is_nonneg (length l)) as Hl0.
  destruct (neumaier_bound l (PrimFloat.add zero x) zero 0 N0
              (fun q Hq => Hn q (or_intror Hq)) I (Z.le_refl 0))
    as (c & Fc & Hc & Heq).
  { change (2 ^ 52) with 4503599627370496. lia. }
  { change (FV zero) with 0. cbn. lia. }
  { exact HTh. }
  fold T in Hc, Heq. rewrite Heq in Hfin, Hnz |- *. clear Heq.
  destruct (fold_add_error (x :: l) zero I Hn HTh) as [HA Hle].
  change (fold_left PrimFloat.add (x :: l) zero) with T in HA, Hle.
  change (FV zero) with 0 in HA. rewrite Z.add_0_l in HA.
  cbn [length] in HA |- *. rewrite Nat2Z.inj_succ in HA |- *.
  change (2 ^ 52) with 4503599627370496 in *.
  set (n := Z.of_nat (length l)) in *.
  rewrite Z.add_0_l in Hc.
  assert (HnT : 0 <= n * FV T) by (apply Z.mul_nonneg_nonneg; lia).
  destruct (PrimFloat.eqb c zero).
  - pose proof (fnonneg_eqb_zero T NT Hnz) as HTpos.
    split; [exact NT|]. split; [exact HTpos|]. split; [exact HTh|]. split.
    + intros p Hp. split; [now apply Hn|]. specialize (Hle p Hp). lia.
    + clear - HA HnT HT0.
      replace (Z.succ n * FV T) with (n * FV T + FV T) in HA by ring.
      replace ((12 * Z.succ n + 1) * FV T)
        with (12 * (n * FV T) + 13 * FV T) by ring.
      set (P := n * FV T) in *. clearbody P. lia.
  - assert (FT : ffinite T) by (apply fnonneg_finite; assumption).
    destruct (add_signed T c FT Fc) as (_ & Herr & Hnan & Hsign).
    set (R := PrimFloat.add T c) in *.
    assert (H20 : 20 * n * FV T <= 4503599627370496 * FV T)
      by (apply Z.mul_le_mono_nonneg_r; lia).
    assert (HC4 : 4 * Z.abs (FV c) <= FV T).
    { clear - Hc H20 HnT.
      replace (20 * n * FV T) with (20 * (n * FV T)) in H20 by ring.
      replace (5 * n * FV T) with (5 * (n * FV T)) in Hc by ring.
      set (P := n * FV T) in *. clearbody P. lia. }
    assert (HR0 : 0 <= FV R) by (apply Hsign; clear - HC4 HT0; lia).
    pose proof (ltb_infinity_finite R Hfin) as HRh.
    destruct (nonneg_value_finite _ (Prim2SF_valid R) Hnan HR0 HRh)
      as [FR NR].
    specialize (Herr FR).
    change (2 ^ 52) with 4503599627370496 in Herr.
    pose proof (fnonneg_eqb_zero R NR Hnz) as HRpos.
    assert (HT2 : FV T <= 2 * FV R)
      by (clear - Herr HC4 HR0 HT0; lia).
    split; [exact NR|]. split; [exact HRpos|]. split; [exact HRh|]. split.
    + intros p Hp. split; [now apply Hn|]. specialize (Hle p Hp). lia.
    + assert (HnR : n * FV T <= 2 * (n * FV R)).
      { replace (2 * (n * FV R)) with (n * (2 * FV R)) by ring.
        apply Z.mul_le_mono_nonneg_l; lia. }
      clear - Herr Hc HA HnR HnT HR0 HT0 HT2.
      replace (Z.succ n * FV T) with (n * FV T + FV T) in HA by ring.
      replace (5 * n * FV T) with (5 * (n * FV T)) in Hc by ring.
      replace ((12 * Z.succ n + 1) * FV R)
        with (12 * (n * FV R) + 13 * FV R) by ring.
      set (P := n * FV T) in *. set (Q := n * FV R) in *.
      clearbody P Q. lia.
Qed.

(** Rescaling at most [2^40] non-negative numbers by their compensated
    sum. *)
Lemma rescaled_total_compensated (ps : list float) :
  (forall p, In p ps -> PrimFloat.leb 0 p = true) ->
  Z.of_nat (length ps) <= 2 ^ 40 ->
  PrimFloat.ltb (float_sum_compensated ps) infinity = true ->
  PrimFloat.eqb (float_sum_compensated ps) zero = false ->
  Z.abs (exact_total (map (fun p => PrimFloat.div p (float_sum_compensated ps))
                        ps) - 2 ^ 1074) * 2 ^ 51
  <= (13 * Z.of_nat (length ps) + 2) * 2 ^ 1074.
Proof.
  intros Hps Hlen Hfin Hnz.
  assert (Hn : forall p, In p ps -> fnonneg p)
    by (intros p Hp; apply leb_zero_fnonneg, Hps, Hp).
  destruct (compensated_sum_error ps Hn Hlen Hfin Hnz)
    as (NR & HR0 & HRh & Hle & HA).
  pose proof (rescaled_total_by _ ps _ NR HR0 HRh Hle HA) as H.
  replace (13 * Z.of_nat (length ps) + 2)
    with (Z.of_nat (length ps) + (12 * Z.of_nat (length ps) + 1) + 1) by ring.
  exact H.
Qed.

(** ** The float sum of the rescaled list *)

Lemma FV_abs (x : float) : FV (abs x) = Z.abs (FV x).
Proof.
  unfold FV. rewrite abs_spec. pose proof (Prim2SF_valid x) as Hv.
  pose proof huge_pos as Hh.
  destruct (Prim2SF x) as [s|s| |s m e]; cbn [SFabs BV].
  - reflexivity.
  - destruct s; lia.
  - reflexivity.
  - cbn [valid_binary] in Hv. apply bounded_canonical in Hv as [Hc _].
    pose proof (scaled_pos (Zpos m) e eq_refl (canonical_emin _ _ Hc)).
    destruct s; lia.
Qed.

Lemma fnonneg_leb_zero (q : float) : fnonneg q -> PrimFloat.leb 0 q = true.
Proof.
  intros Hq. rewrite leb_FV.
  - apply Z.leb_le. change (FV 0) with 0.
    exact (nonneg_BV _ (Prim2SF_valid q) Hq).
  - discriminate.
  - now apply nonneg_not_nan.
Qed.

Lemma finite_ltb_infinity (q : float) :
  ffinite q -> PrimFloat.ltb q infinity = true.
Proof.
  intros Hq. rewrite ltb_spec. unfold SFltb.
  rewrite (SFcompare_BV _ _ (Prim2SF_valid q) (Prim2SF_valid infinity)).
  - pose proof (ffinite_lt_huge q Hq) as H. unfold FV in H.
    change (BV (Prim2SF infinity)) with huge.
    now apply Z.compare_lt_iff in H as ->.
  - unfold ffinite in Hq. intros E. rewrite E in Hq. exact Hq.
  - discriminate.
Qed.

Lemma positive_eqb_zero (s : float) :
  0 < FV s -> PrimFloat.eqb s zero = false.
Proof.
  intros Hs. rewrite eqb_spec. unfold SFeqb.
  rewrite (SFcompare_BV _ _ (Prim2SF_valid s) (Prim2SF_valid zero)).
  - change (BV (Prim2SF zero)) with 0. fold (FV s).
    now apply Z.compare_gt_iff in Hs as ->.
  - intros E. unfold FV in Hs. rewrite E in Hs. cbn in Hs. lia.
  - discriminate.
Qed.

Lemma pow2_1082_lt_max : 2 ^ 1082 < max_value.
Proof.
  unfold max_value.
  assert (H1 : 2 ^ 1082 < 2 ^ 2045) by (apply Z.pow_lt_mono_r; lia).
  assert (H2 : 2 * 2 ^ 2045 <= 2 ^ 2098).
  { rewrite <- Z.pow_succ_r by lia. apply Z.pow_le_mono_r; lia. }
  lia.
Qed.

Lemma pow2_1082_lt_huge : 2 ^ 1082 < huge.
Proof. unfold huge. apply Z.pow_lt_mono_r; lia. Qed.

Lemma exact_total_nonneg (qs : list float) :
  (forall q, In q qs -> fnonneg q) -> 0 <= exact_total qs.
Proof.
  induction qs as [|q qs IH]; intros H; [cbn; lia|].
  unfold exact_total in *. cbn [map fold_right].
  pose proof (nonneg_BV _ (Prim2SF_valid q) (H q (or_introl eq_refl))) as Hq.
  fold (FV q) in Hq.
  specialize (IH (fun p Hp => H p (or_intror Hp))). lia.
Qed.

(** The left-to-right sum of at most [2^20] non-negative numbers whose
    exact total is at most [2^1080] units is finite, and within
    [n * 2^-52] of itself from the exact total. *)
Lemma fold_add_bounded (qs : list float) : forall (t : float) (A i : Z),
  fnonneg t -> FV t < huge -> 0 <= A ->
  (forall q, In q qs -> fnonneg q) ->
  0 <= i -> i + Z.of_nat (length qs) <= 2 ^ 20 ->
  Z.abs (FV t - A) * 2 ^ 52 <= i * FV t ->
  A + exact_total qs <= 2 ^ 1080 ->
  FV (fold_left PrimFloat.add qs t) < huge /\
  Z.abs (FV (fold_left PrimFloat.add qs t) - (A + exact_total qs)) * 2 ^ 52
  <= (i + Z.of_nat (length qs)) * FV (fold_left PrimFloat.add qs t).
Proof.
  induction qs as [|q qs IH]; intros t A i Nt Ht HA Nq Hi Hlen Hinv Hsum.
  - cbn [fold_left length exact_total map fold_right] in *.
    rewrite !Z.add_0_r. split; assumption.
  - cbn [fold_left].
    pose proof (Nq q (or_introl eq_refl)) as Nq0.
    pose proof (nonneg_BV _ (Prim2SF_valid q) Nq0) as Hq0. fold (FV q) in Hq0.
    pose proof (nonneg_BV _ (Prim2SF_valid t) Nt) as Ht0. fold (FV t) in Ht0.
    pose proof (exact_total_nonneg qs (fun p Hp => Nq p (or_intror Hp)))
      as Hrest.
    assert (Eq : exact_total (q :: qs) = FV q + exact_total qs) by reflexivity.
    rewrite Eq in Hsum |- *.
    cbn [length] in Hlen |- *. rewrite Nat2Z.inj_succ in Hlen |- *.
    pose proof (Nat2Z.is_nonneg (length qs)) as Hl0.
    pose proof pow2_1082_lt_max as Hmax. pose proof pow2_1082_lt_huge as Hhuge.
    assert (Hp : 2 ^ 1082 = 4 * 2 ^ 1080)
      by (change 4 with (2 ^ 2); rewrite <- Z.pow_add_r by lia; reflexivity).
    change (2 ^ 20) with 1048576 in *.
    change (2 ^ 52) with 4503599627370496 in *.
    assert (Hit : i * FV t <= 1048576 * FV t)
      by (apply Z.mul_le_mono_nonneg_r; lia).
    assert (Ht2 : FV t <= 2 * A) by (clear - Hinv Hit Ht0 HA; lia).
    assert (Fq : ffinite q).
    { apply fnonneg_finite; [exact Nq0|].
      clear - Hsum Hrest HA Hq0 Hhuge Hp. set (W := 2 ^ 1080) in *.
      rewrite Hp in Hhuge. clearbody W. lia. }
    assert (Ft : ffinite t) by (apply fnonneg_finite; assumption).
    destruct (add_signed t q Ft Fq) as (Hfin & _ & _ & _).
    assert (Ft' : ffinite (PrimFloat.add t q)).
    { apply Hfin. right. right.
      clear - Hsum Hrest HA Hq0 Ht0 Ht2 Hmax Hp. set (W := 2 ^ 1080) in *.
      rewrite Hp in Hmax. clearbody W. lia. }
    pose proof (ffinite_lt_huge _ Ft') as Ht'.
    destruct (add_fnonneg t q Nt Nq0) as [Nt' Hmono].
    destruct (add_error t q Nt Nq0 Ht') as [Herr _].
    change (2 ^ 52) with 4503599627370496 in Herr.
    replace (A + (FV q + exact_total qs)) with (A + FV q + exact_total qs)
      in Hsum |- * by ring.
    replace (i + Z.succ (Z.of_nat (length qs)))
      with (i + 1 + Z.of_nat (length qs)) by lia.
    apply IH; try assumption; try lia.
    + intros p Hp'. apply Nq. now right.
    + assert (Hit' : i * FV t <= i * FV (PrimFloat.add t q))
        by (apply Z.mul_le_mono_nonneg_l; lia).
      replace ((i + 1) * FV (PrimFloat.add t q))
        with (i * FV (PrimFloat.add t q) + FV (PrimFloat.add t q)) by ring.
      clear - Herr Hinv Hit'. lia.
Qed.

Lemma ffinite_one : ffinite 1.
Proof. exact I. Qed.

Lemma FV_one : FV 1 = 2 ^ 1074.
Proof. unfold FV. change (Prim2SF 1) with SFone. apply BV_SFone. Qed.

Lemma ffinite_not_nan (x : float) : ffinite x -> not_nan (Prim2SF x).
Proof. unfold ffinite. intros H E. rewrite E in H. exact H. Qed.

Lemma ffinite_abs (x : float) : ffinite x -> ffinite (abs x).
Proof. unfold ffinite. rewrite abs_spec. apply SFfinite_abs. Qed.

(** A finite number within [2^-21] of 1 passes the test of the
    normalizer: the float [abs (s - 1)] is at most [1e-6]. *)
Lemma near_one_leb (s : float) :
  ffinite s -> Z.abs (FV s - 2 ^ 1074) * 2 ^ 21 <= 2 ^ 1074 ->
  PrimFloat.leb (abs (PrimFloat.sub s 1)) 1e-6 = true.
Proof.
  intros Fs Hs.
  destruct (sub_signed s 1 Fs ffinite_one) as (Hfin & Herr & _ & _).
  rewrite FV_one in Hfin, Herr.
  pose proof pow2_1082_lt_max as Hmax.
  assert (HU : 2 ^ 1074 = 4722366482869645213696 * 2 ^ 1002)
    by (change 4722366482869645213696 with (2 ^ 72);
        rewrite <- Z.pow_add_r by lia; reflexivity).
  assert (HM : 2 ^ 1082 = 256 * 2 ^ 1074)
    by (change 256 with (2 ^ 8); rewrite <- Z.pow_add_r by lia; reflexivity).
  assert (HW : 0 < 2 ^ 1002) by (apply Z.pow_pos_nonneg; lia).
  rewrite HM in Hmax. rewrite HU in *.
  change (2 ^ 21) with 2097152 in Hs.
  change (2 ^ 52) with 4503599627370496 in Herr.
  assert (Fd : ffinite (PrimFloat.sub s 1)).
  { apply Hfin. right. right. clear - Hs Hmax HW.
    set (W := 2 ^ 1002) in *. clearbody W. lia. }
  specialize (Herr Fd).
  rewrite leb_FV.
  - apply Z.leb_le. rewrite FV_abs, FV_tolerance.
    clear - Hs Herr HW. set (W := 2 ^ 1002) in *. clearbody W. lia.
  - apply ffinite_not_nan, ffinite_abs, Fd.
  - discriminate.
Qed.

(** The entries of the rescaled list are non-negative and finite. *)
Lemma rescaled_entries (s : float) (ps : list float) :
  fnonneg s -> 0 < FV s -> FV s < huge ->
  (forall p, In p ps -> fnonneg p /\ FV p <= 2 * FV s) ->
  forall q, In q (map (fun p => PrimFloat.div p s) ps) ->
            fnonneg q /\ ffinite q.
Proof.
  intros Hs Hs0 Hsh Hps q Hq. apply in_map_iff in Hq as (p & <- & Hp).
  destruct (Hps p Hp) as [Np Hle].
  destruct (div_error p s Np Hs Hs0 Hsh Hle) as (Nq & Hqh & _).
  split; [exact Nq|]. now apply fnonneg_finite.
Qed.

(** The left-to-right float sum of a list of at most [2^20] non-negative
    numbers whose exact total is within [2^-27] of 1 is finite and within
    [2^-26] of 1. *)
Lemma plain_sum_near_one (qs : list float) :
  (forall q, In q qs -> fnonneg q) ->
  Z.of_nat (length qs) <= 2 ^ 20 ->
  Z.abs (exact_total qs - 2 ^ 1074) * 2 ^ 27 <= 2 ^ 1074 ->
  fnonneg (running_sum qs) /\ ffinite (running_sum qs) /\
  Z.abs (FV (running_sum qs) - 2 ^ 1074) * 2 ^ 26 <= 2 ^ 1074 /\
  Z.abs (FV (running_sum qs) - exact_total qs) * 2 ^ 52
  <= Z.of_nat (length qs) * FV (running_sum qs).
Proof.
  intros Nq Hlen HQ.
  assert (HU : 2 ^ 1074 = 4503599627370496 * 2 ^ 1022)
    by (change 4503599627370496 with (2 ^ 52);
        rewrite <- Z.pow_add_r by lia; reflexivity).
  assert (HM : 2 ^ 1080 = 64 * 2 ^ 1074)
    by (change 64 with (2 ^ 6); rewrite <- Z.pow_add_r by lia; reflexivity).
  assert (HV : 0 < 2 ^ 1022) by (apply Z.pow_pos_nonneg; lia).
  destruct (fold_add_bounded qs zero 0 0 I huge_pos (Z.le_refl 0) Nq
              (Z.le_refl 0)) as [Hfin Herr].
  { exact Hlen. }
  { change (FV zero) with 0. cbn. lia. }
  { rewrite Z.add_0_l, HM, HU. rewrite HU in HQ.
    change (2 ^ 27) with 134217728 in HQ.
    clear - HQ HV. set (V := 2 ^ 1022) in *. clearbody V. lia. }
  fold (running_sum qs) in Hfin, Herr.
  rewrite !Z.add_0_l in Herr.
  assert (Ns : fnonneg (running_sum qs))
    by (unfold running_sum; apply fold_add_fnonneg; [exact I|exact Nq]).
  pose proof (nonneg_BV _ (Prim2SF_valid _) Ns) as Hs0.
  fold (FV (running_sum qs)) in Hs0.
  split; [exact Ns|]. split; [now apply fnonneg_finite|].
  split; [|exact Herr].
  change (2 ^ 20) with 1048576 in Hlen.
  change (2 ^ 52) with 4503599627370496 in Herr.
  change (2 ^ 27) with 134217728 in HQ. change (2 ^ 26) with 67108864.
  assert (Hn : Z.of_nat (length qs) * FV (running_sum qs)
               <= 1048576 * FV (running_sum qs))
    by (apply Z.mul_le_mono_nonneg_r; assumption).
  rewrite HU in *.
  clear - HQ Herr Hn Hs0 HV.
  set (V := 2 ^ 1022) in *. set (S := FV (running_sum qs)) in *.
  set (Q := exact_total qs) in *.
  set (P := Z.of_nat (length qs) * S) in *. clearbody V S Q P. lia.
Qed.

(** The compensated sum in two parts: the left-to-right sum and a finite
    compensation. *)
Lemma compensated_sum_parts (ps : list float) :
  (forall p, In p ps -> fnonneg p) ->
  Z.of_nat (length ps) <= 2 ^ 40 ->
  FV (running_sum ps) < huge ->
  exists c,
    ffinite c /\
    Z.abs (FV c) * 2 ^ 52 <= 5 * Z.of_nat (length ps) * FV (running_sum ps) /\
    float_sum_compensated ps
    = if PrimFloat.eqb c zero then running_sum ps
      else PrimFloat.add (running_sum ps) c.
Proof.
  intros Hn Hlen Hfin.
  destruct ps as [|x l].
  - exists zero. split; [exact I|]. split; [cbn; lia|reflexivity].
  - pose proof (Hn x (or_introl eq_refl)) as Nx.
    destruct (add_fnonneg zero x I Nx) as [N0 _].
    change (running_sum (x :: l))
      with (fold_left PrimFloat.add l (PrimFloat.add zero x)) in *.
    assert (Hl40 : 2 ^ 40 = 1099511627776) by reflexivity.
    rewrite Hl40 in Hlen. clear Hl40.
    cbn [length] in Hlen |- *. rewrite Nat2Z.inj_succ in Hlen |- *.
    pose proof (Nat2Z.is_nonneg (length l)) as Hl0.
    assert (NT : fnonneg (fold_left PrimFloat.add l (PrimFloat.add zero x))).
    { apply fold_add_fnonneg; [exact N0|]. intros q Hq. apply Hn. now right. }
    pose proof (nonneg_BV _ (Prim2SF_valid _) NT) as HT0.
    destruct (neumaier_bound l (PrimFloat.add zero x) zero 0 N0
                (fun q Hq => Hn q (or_intror Hq)) I (Z.le_refl 0))
      as (c & Fc & Hc & Heq).
    { change (2 ^ 52) with 4503599627370496. lia. }
    { change (FV zero) with 0. cbn. lia. }
    { exact Hfin. }
    exists c. split; [exact Fc|]. split; [|exact Heq].
    rewrite Z.add_0_l in Hc.
    apply Z.le_trans with (1 := Hc).
    apply Z.mul_le_mono_nonneg_r; [exact HT0|lia].
Qed.

(** The compensated float sum of a list of at most [2^20] non-negative
    numbers whose exact total is within [2^-27] of 1 is finite and within
    [2^-21] of 1. *)
Lemma compensated_sum_near_one (qs : list float) :
  (forall q, In q qs -> fnonneg q) ->
  Z.of_nat (length qs) <= 2 ^ 20 ->
  Z.abs (exact_total qs - 2 ^ 1074) * 2 ^ 27 <= 2 ^ 1074 ->
  ffinite (float_sum_compensated qs) /\
  Z.abs (FV (float_sum_compensated qs) - 2 ^ 1074) * 2 ^ 21 <= 2 ^ 1074.
Proof.
  intros Nq Hlen HQ.
  destruct (plain_sum_near_one qs Nq Hlen HQ) as (NT & FT & HT & _).
  pose proof (nonneg_BV _ (Prim2SF_valid _) NT) as HT0.
  fold (FV (running_sum qs)) in HT0.
  assert (Hlen40 : Z.of_nat (length qs) <= 2 ^ 40).
  { apply Z.le_trans with (1 := Hlen). apply Z.pow_le_mono_r; lia. }
  destruct (compensated_sum_parts qs Nq Hlen40 (ffinite_lt_huge _ FT))
    as (c & Fc & Hc & ->).
  assert (HU : 2 ^ 1074 = 4503599627370496 * 2 ^ 1022)
    by (change 4503599627370496 with (2 ^ 52);
        rewrite <- Z.pow_add_r by lia; reflexivity).
  assert (HM : 2 ^ 1082 = 256 * 2 ^ 1074)
    by (change 256 with (2 ^ 8); rewrite <- Z.pow_add_r by lia; reflexivity).
  assert (HV : 0 < 2 ^ 1022) by (apply Z.pow_pos_nonneg; lia).
  pose proof pow2_1082_lt_max as Hmax. rewrite HM in Hmax.
  change (2 ^ 20) with 1048576 in Hlen.
  change (2 ^ 52) with 4503599627370496 in Hc.
  change (2 ^ 26) with 67108864 in HT. change (2 ^ 21) with 2097152.
  assert (Hn : 5 * Z.of_nat (length qs) * FV (running_sum qs)
               <= 5242880 * FV (running_sum qs))
    by (apply Z.mul_le_mono_nonneg_r; [assumption|lia]).
  destruct (PrimFloat.eqb c zero).
  - split; [exact FT|]. rewrite HU in *. clear - HT HV.
    set (V := 2 ^ 1022) in *. clearbody V. lia.
  - destruct (add_signed (running_sum qs) c FT Fc) as (Hfin & Herr & _ & _).
    assert (FR : ffinite (PrimFloat.add (running_sum qs) c)).
    { apply Hfin. right. right. rewrite HU in *.
      clear - HT Hc Hn HT0 HV Hmax.
      set (V := 2 ^ 1022) in *. set (T := FV (running_sum qs)) in *.
      set (P := 5 * Z.of_nat (length qs) * T) in *. clearbody V T P. lia. }
    split; [exact FR|]. specialize (Herr FR).
    change (2 ^ 52) with 4503599627370496 in Herr. rewrite HU in *.
    clear - HT Hc Hn HT0 HV Herr.
    set (V := 2 ^ 1022) in *. set (T := FV (running_sum qs)) in *.
    set (R := FV (PrimFloat.add (running_sum qs) c)) in *.
    set (P := 5 * Z.of_nat (length qs) * T) in *. clearbody V T P R. lia.
Qed.

(** After the rescaling by the left-to-right sum, the normalizer finds
    nothing to change. *)
Lemma rescaled_plain_passes (ps : list float) :
  (forall p, In p ps -> PrimFloat.leb 0 p = true) ->
  PrimFloat.ltb (running_sum ps) infinity = true ->
  PrimFloat.eqb (running_sum ps) zero = false ->
  (forall q, In q (map (fun p => PrimFloat.div p (running_sum ps)) ps) ->
     PrimFloat.leb 0 q = true /\ PrimFloat.ltb q infinity = true) /\
  (Z.of_nat (length ps) <= 2 ^ 20 ->
   PrimFloat.leb
     (abs (PrimFloat.sub
             (float_sum_plain
                (map (fun p => PrimFloat.div p (running_sum ps)) ps)) 1))
     1e-6 = true /\
   forall tr,
     normalize float_sum_plain
       (map (fun p => PrimFloat.div p (running_sum ps)) ps) tr
     = (tr, Ok (map (fun p => PrimFloat.div p (running_sum ps)) ps))).
Proof.
  intros Hps Hfin Hnz.
  pose proof (rescaled_total ps Hps Hfin Hnz) as HQ.
  assert (Hn : forall p, In p ps -> fnonneg p)
    by (intros p Hp; apply leb_zero_fnonneg, Hps, Hp).
  assert (Hs : fnonneg (running_sum ps)).
  { unfold running_sum. apply fold_add_fnonneg; [exact I|exact Hn]. }
  pose proof (fnonneg_eqb_zero _ Hs Hnz) as Hs0.
  pose proof (ltb_infinity_finite _ Hfin) as Hsh.
  destruct (fold_add_error ps zero I Hn Hsh) as [_ Hle].
  fold (running_sum ps) in Hle.
  assert (Hps2 : forall p, In p ps ->
                   fnonneg p /\ FV p <= 2 * FV (running_sum ps)).
  { intros p Hp. split; [now apply Hn|]. specialize (Hle p Hp). lia. }
  pose proof (rescaled_entries _ ps Hs Hs0 Hsh Hps2) as Hent.
  set (qs := map (fun p => PrimFloat.div p (running_sum ps)) ps) in *.
  split.
  { intros q Hq. destruct (Hent q Hq) as [Nq Fq].
    split; [now apply fnonneg_leb_zero|now apply finite_ltb_infinity]. }
  intros Hlen.
  assert (Hlq : length qs = length ps) by apply length_map.
  assert (HU0 : 0 < 2 ^ 1074) by (apply Z.pow_pos_nonneg; lia).
  assert (HQ' : Z.abs (exact_total qs - 2 ^ 1074) * 2 ^ 27 <= 2 ^ 1074).
  { change (2 ^ 20) with 1048576 in Hlen.
    change (2 ^ 51) with (134217728 * 16777216) in HQ.
    change (2 ^ 27) with 134217728.
    assert (HK : (2 * Z.of_nat (length ps) + 1) * 2 ^ 1074
                 <= 16777216 * 2 ^ 1074)
      by (apply Z.mul_le_mono_nonneg_r; lia).
    clear - HQ HK. set (U := 2 ^ 1074) in *.
    set (K := (2 * Z.of_nat (length ps) + 1) * U) in *. clearbody U K. lia. }
  destruct (plain_sum_near_one qs (fun q Hq => proj1 (Hent q Hq))
              ltac:(rewrite Hlq; exact Hlen) HQ') as (NS & FS & HS & _).
  change (float_sum_plain qs) with (running_sum qs).
  assert (Hclose : PrimFloat.leb (abs (PrimFloat.sub (running_sum qs) 1)) 1e-6
                   = true).
  { apply near_one_leb; [exact FS|].
    change (2 ^ 26) with (2097152 * 32) in HS.
    clear - HS HU0. set (U := 2 ^ 1074) in *. clearbody U. lia. }
  split; [exact Hclose|].
  intros tr. apply (normalize_pass float_sum_plain).
  - apply positive_eqb_zero. change (float_sum_plain qs) with (running_sum qs).
    change (2 ^ 26) with 67108864 in HS.
    clear - HS HU0. set (U := 2 ^ 1074) in *. clearbody U. lia.
  - now apply float_leb_not_gtb.
Qed.

(** The same after the rescaling by the compensated sum. *)
Lemma rescaled_compensated_passes (ps : list float) :
  (forall p, In p ps -> PrimFloat.leb 0 p = true) ->
  Z.of_nat (length ps) <= 2 ^ 20 ->
  PrimFloat.ltb (float_sum_compensated ps) infinity = true ->
  PrimFloat.eqb (float_sum_compensated ps) zero = false ->
  (forall q,
     In q (map (fun p => PrimFloat.div p (float_sum_compensated ps)) ps) ->
     PrimFloat.leb 0 q = true /\ PrimFloat.ltb q infinity = true) /\
  PrimFloat.leb
    (abs (PrimFloat.sub
            (float_sum_compensated
               (map (fun p => PrimFloat.div p (float_sum_compensated ps)) ps))
            1))
    1e-6 = true /\
  forall tr,
    normalize float_sum_compensated
      (map (fun p => PrimFloat.div p (float_sum_compensated ps)) ps) tr
    = (tr, Ok (map (fun p => PrimFloat.div p (float_sum_compensated ps)) ps)).
Proof.
  intros Hps Hlen Hfin Hnz.
  assert (Hlen40 : Z.of_nat (length ps) <= 2 ^ 40).
  { apply Z.le_trans with (1 := Hlen). apply Z.pow_le_mono_r; lia. }
  pose proof (rescaled_total_compensated ps Hps Hlen40 Hfin Hnz) as HQ.
  assert (Hn : forall p, In p ps -> fnonneg p)
    by (intros p Hp; apply leb_zero_fnonneg, Hps, Hp).
  destruct (compensated_sum_error ps Hn Hlen40 Hfin Hnz)
    as (NR & HR0 & HRh & Hps2 & _).
  pose proof (rescaled_entries _ ps NR HR0 HRh Hps2) as Hent.
  set (qs := map (fun p => PrimFloat.div p (float_sum_compensated ps)) ps) in *.
  split.
  { intros q Hq. destruct (Hent q Hq) as [Nq Fq].
    split; [now apply fnonneg_leb_zero|now apply finite_ltb_infinity]. }
  assert (Hlq : length qs = length ps) by apply length_map.
  assert (HU0 : 0 < 2 ^ 1074) by (apply Z.pow_pos_nonneg; lia).
  assert (HQ' : Z.abs (exact_total qs - 2 ^ 1074) * 2 ^ 27 <= 2 ^ 1074).
  { change (2 ^ 20) with 1048576 in Hlen.
    change (2 ^ 51) with (134217728 * 16777216) in HQ.
    change (2 ^ 27) with 134217728.
    assert (HK : (13 * Z.of_nat (length ps) + 2) * 2 ^ 1074
                 <= 16777216 * 2 ^ 1074)
      by (apply Z.mul_le_mono_nonneg_r; lia).
    clear - HQ HK. set (U := 2 ^ 1074) in *.
    set (K := (13 * Z.of_nat (length ps) + 2) * U) in *. clearbody U K. lia. }
  destruct (compensated_sum_near_one qs (fun q Hq => proj1 (Hent q Hq))
              ltac:(rewrite Hlq; exact Hlen) HQ') as (FS & HS).
  assert (Hclose : PrimFloat.leb
                     (abs (PrimFloat.sub (float_sum_compensated qs) 1)) 1e-6
                   = true) by now apply near_one_leb.
  split; [exact Hclose|].
  intros tr. apply (normalize_pass float_sum_compensated).
  - apply positive_eqb_zero. change (2 ^ 21) with 2097152 in HS.
    clear - HS HU0. set (U := 2 ^ 1074) in *. clearbody U. lia.
  - now apply float_leb_not_gtb.
Qed.

(** C6 (amended): when the sum [s] of the raw probabilities is nonzero,
    the normalizer, if [|s - 1| > 1e-6], shows the warning and returns the
    list with every element divided by [s], in the same order and of the
    same length, and the script goes on; if [|s - 1| <= 1e-6] it returns
    the list unchanged and shows nothing.  [0.1; 0.1] gives [0.5; 0.5].
    When moreover no entry is negative and [s] is finite, the rescaled
    list sums to 1 within floating tolerance: its entries are non-negative
    and finite; their exact sum differs from 1 by at most
    [(2n + 1) * 2^-51] when [s] is added from left to right, and by at
    most [(13n + 2) * 2^-51] when [s] is the compensated sum of at most
    [2^20] entries; and for at most [2^20] entries their float sum is
    within 1e-6 of 1, so that the normalizer, run on the rescaled list,
    returns it unchanged and shows nothing.  (With a negative entry or a
    sum that overflows the rescaled list need not sum to 1, as the lists
    [3e16, -1e16, -1e16, -1e16, 0.3] and [1e308, 1e308] show.) *)
Theorem normalize_rescales_or_passes (float_sum : list float -> float)
    (probabilities : list float) (tr : list event) :
  PrimFloat.eqb (float_sum probabilities) zero = false ->
  (PrimFloat.ltb 1e-6 (abs (PrimFloat.sub (float_sum probabilities) 1)) = true ->
   normalize float_sum probabilities tr
   = (tr ++ [EvWarning (float_sum probabilities)],
      Ok (map (fun p => PrimFloat.div p (float_sum probabilities))
            probabilities)) /\
   length (map (fun p => PrimFloat.div p (float_sum probabilities))
             probabilities) = length probabilities) /\
  (PrimFloat.leb (abs (PrimFloat.sub (float_sum probabilities) 1)) 1e-6 = true ->
   normalize float_sum probabilities tr = (tr, Ok probabilities)) /\
  normalize float_sum_plain [0.1; 0.1]%float []
  = ([EvWarning 0.2%float], Ok [0.5; 0.5]%float) /\
  normalize float_sum_compensated [0.1; 0.1]%float []
  = ([EvWarning 0.2%float], Ok [0.5; 0.5]%float) /\
  (* the sum of the rescaled list, [sum] adding from left to right *)
  ((forall p, In p probabilities -> PrimFloat.leb 0 p = true) ->
   PrimFloat.eqb (float_sum_plain probabilities) zero = false ->
   PrimFloat.ltb (float_sum_plain probabilities) infinity = true ->
   PrimFloat.ltb 1e-6 (abs (PrimFloat.sub (float_sum_plain probabilities) 1))
   = true ->
   exists rescaled,
     normalize float_sum_plain probabilities tr
     = (tr ++ [EvWarning (float_sum_plain probabilities)], Ok rescaled) /\
     (forall q, In q rescaled ->
        PrimFloat.leb 0 q = true /\ PrimFloat.ltb q infinity = true) /\
     Z.abs (exact_total rescaled - 2 ^ 1074) * 2 ^ 51
     <= (2 * Z.of_nat (length probabilities) + 1) * 2 ^ 1074 /\
     (Z.of_nat (length probabilities) <= 2 ^ 20 ->
      PrimFloat.leb (abs (PrimFloat.sub (float_sum_plain rescaled) 1)) 1e-6
      = true /\
      forall tr', normalize float_sum_plain rescaled tr' = (tr', Ok rescaled)))
  /\
  (* the same, [sum] adding with compensation *)
  ((forall p, In p probabilities -> PrimFloat.leb 0 p = true) ->
   Z.of_nat (length probabilities) <= 2 ^ 20 ->
   PrimFloat.eqb (float_sum_compensated probabilities) zero = false ->
   PrimFloat.ltb (float_sum_compensated probabilities) infinity = true ->
   PrimFloat.ltb 1e-6
     (abs (PrimFloat.sub (float_sum_compensated probabilities) 1)) = true ->
   exists rescaled,
     normalize float_sum_compensated probabilities tr
     = (tr ++ [EvWarning (float_sum_compensated probabilities)], Ok rescaled) /\
     (forall q, In q rescaled ->
        PrimFloat.leb 0 q = true /\ PrimFloat.ltb q infinity = true) /\
     Z.abs (exact_total rescaled - 2 ^ 1074) * 2 ^ 51
     <= (13 * Z.of_nat (length probabilities) + 2) * 2 ^ 1074 /\
     PrimFloat.leb (abs (PrimFloat.sub (float_sum_compensated rescaled) 1))
       1e-6 = true /\
     forall tr',
       normalize float_sum_compensated rescaled tr' = (tr', Ok rescaled)).
Proof.
  intros H0. split; [|split; [|split; [|split; [|split]]]].
  - intros H1. split; [now apply normalize_rescale|apply length_map].
  - intros H1. apply normalize_pass; [assumption|].
    now apply float_leb_not_gtb.
  - vm_compute. reflexivity.
  - vm_compute. reflexivity.
  - intros Hnonneg Hnz Hfin Hfar.
    destruct (rescaled_plain_passes probabilities Hnonneg Hfin Hnz)
      as [Hent Hpass].
    eexists. split; [now apply normalize_rescale|].
    split; [exact Hent|]. split; [now apply rescaled_total|exact Hpass].
  - intros Hnonneg Hlen Hnz Hfin Hfar.
    destruct (rescaled_compensated_passes probabilities Hnonneg Hlen Hfin Hnz)
      as (Hent & Hclose & Hpass).
    eexists. split; [now apply normalize_rescale|].
    split; [exact Hent|]. split; [|split; [exact Hclose|exact Hpass]].
    apply rescaled_total_compensated; try assumption.
    apply Z.le_trans with (1 := Hlen). apply Z.pow_le_mono_r; lia.
Qed.

Lemma normalize_rescales_or_passes_witness :
  PrimFloat.eqb (float_sum_plain [0.1; 0.1]%float) zero = false /\
  (* what the theorem gives for this list *)
  normalize float_sum_plain [0.1; 0.1]%float []
  = ([EvWarning 0.2%float], Ok [0.5; 0.5]%float) /\
  length [0.5; 0.5]%float = length [0.1; 0.1]%float /\
  (exists rescaled,
     normalize float_sum_plain [0.1; 0.1]%float []
     = ([EvWarning 0.2%float], Ok rescaled) /\
     (forall q, In q rescaled ->
        PrimFloat.leb 0 q = true /\ PrimFloat.ltb q infinity = true) /\
     Z.abs (exact_total rescaled - 2 ^ 1074) * 2 ^ 51 <= 5 * 2 ^ 1074 /\
     PrimFloat.leb (abs (PrimFloat.sub (float_sum_plain rescaled) 1)) 1e-6
     = true /\
     forall tr', normalize float_sum_plain rescaled tr' = (tr', Ok rescaled)) /\
  (exists rescaled,
     normalize float_sum_compensated [0.1; 0.1]%float []
     = ([EvWarning 0.2%float], Ok rescaled) /\
     (forall q, In q rescaled ->
        PrimFloat.leb 0 q = true /\ PrimFloat.ltb q infinity = true) /\
     Z.abs (exact_total rescaled - 2 ^ 1074) * 2 ^ 51 <= 28 * 2 ^ 1074 /\
     PrimFloat.leb (abs (PrimFloat.sub (float_sum_compensated rescaled) 1))
       1e-6 = true /\
     forall tr',
       normalize float_sum_compensated rescaled tr' = (tr', Ok rescaled)).
Proof.
  assert (Hnonneg : forall p, In p [0.1; 0.1]%float -> PrimFloat.leb 0 p = true)
    by (intros p [<-|[<-|[]]]; reflexivity).
  assert (Hlen : Z.of_nat (length [0.1; 0.1]%float) <= 2 ^ 20) by discriminate.
  split; [reflexivity|].
  destruct (normalize_rescales_or_passes float_sum_plain [0.1; 0.1]%float []
              eq_refl) as (Hrescale & _ & _ & _ & Hplain & Hcomp).
  destruct (Hrescale eq_refl) as [Hn Hl].
  split; [exact Hn|]. split; [exact Hl|]. split.
  - destruct (Hplain Hnonneg eq_refl eq_refl eq_refl)
      as (rescaled & Hr & Hent & Hsum & Hpass).
    exists rescaled. split; [exact Hr|]. split; [exact Hent|].
    split; [exact Hsum|exact (Hpass Hlen)].
  - exact (Hcomp Hnonneg Hlen eq_refl eq_refl eq_refl).
Defined.

(** ** Uniform values *)

Lemma mapM_all {A B : Type} (f : A -> result B) (P : B -> Prop) (l : list A) :
  (forall x, In x l -> exists y, f x = Ok y /\ P y) ->
  exists ys, mapM f l = Ok ys /\ length ys = length l /\
             forall y, In y ys -> P y.
Proof.
  induction l as [|x l IH]; intros H.
  - exists []. repeat split. intros y [].
  - destruct (H x (or_introl eq_refl)) as (y & Hy & Py).
    destruct (IH (fun z Hz => H z (or_intror Hz))) as (ys & Hys & Hlen & Hall).
    exists (y :: ys). cbn [mapM]. rewrite Hy, Hys.
    split; [reflexivity|]. split; [cbn; now rewrite Hlen|].
    intros z [<-|Hz]; [exact Py|now apply Hall].
Qed.

Lemma lcg_outputs_range (seed a c m : Z) (n : nat) (x : Z) :
  0 < m -> In x (lcg_outputs seed a c m n) -> 0 <= x < m.
Proof.
  intros Hm Hx. unfold lcg_outputs in Hx.
  apply in_map_iff in Hx as (k & <- & _). now apply lcg_X_range.
Qed.

(** With a modulus of [2^60] the generator can emit [2^60 - 1], and the
    uniform value derived from it is exactly 1.0, not below 1. *)
Lemma uniform_reaches_one :
  generate_lcg 0 1 (2 ^ 60 - 1) (2 ^ 60) 1 = Ok [2 ^ 60 - 1] /\
  int_truediv (2 ^ 60 - 1) (2 ^ 60) = Ok 1%float /\
  PrimFloat.ltb 1 1 = false.
Proof. split; [|split]; vm_compute; reflexivity. Qed.

(** C4 (amended): for seed >= 0, multiplier >= 1, increment >= 0 and
    modulus >= 2, every emitted value satisfies [0 <= X < modulus]; and
    when the modulus is below [2^53] (the widget allows at most 10000),
    every uniform [U = X / modulus] is a float with [0 <= U < 1]. *)
Theorem uniform_in_unit_interval (seed a c m n : Z) :
  0 <= seed -> 1 <= a -> 0 <= c -> 2 <= m ->
  exists X_values,
    generate_lcg seed a c m n = Ok X_values /\
    (forall x, In x X_values -> 0 <= x < m) /\
    (m < 2 ^ 53 ->
     exists U_values,
       mapM (fun x => int_truediv x m) X_values = Ok U_values /\
       length U_values = length X_values /\
       forall u, In u U_values ->
                 PrimFloat.leb 0 u = true /\ PrimFloat.ltb u 1 = true).
Proof.
  intros _ _ _ Hm.
  exists (lcg_outputs seed a c m (Z.to_nat n)).
  unfold generate_lcg. rewrite lcg_loop_outputs by lia. cbn [app].
  split; [reflexivity|].
  split; [intros x Hx; apply (lcg_outputs_range seed a c m (Z.to_nat n) x); [lia|exact Hx]|].
  intros H53. apply mapM_all. intros x Hx.
  apply int_truediv_unit_interval; [|exact H53].
  apply (lcg_outputs_range seed a c m (Z.to_nat n) x); [lia|exact Hx].
Qed.

Lemma uniform_in_unit_interval_witness :
  exists X_values,
    generate_lcg 35 13 7 100 3 = Ok X_values /\
    (forall x, In x X_values -> 0 <= x < 100) /\
    (100 < 2 ^ 53 ->
     exists U_values,
       mapM (fun x => int_truediv x 100) X_values = Ok U_values /\
       length U_values = length X_values /\
       forall u, In u U_values ->
                 PrimFloat.leb 0 u = true /\ PrimFloat.ltb u 1 = true).
Proof.
  apply (uniform_in_unit_interval 35 13 7 100 3); lia.
Defined.

(** ** The cumulative table of a normalized distribution, stated *)

(** C8: for a list of non-negative probabilities whose running sum (the
    elements added from left to right, as the builder adds them) is within
    1e-6 of 1, the cumulative table is non-decreasing and its final element
    is within 1e-4 of 1.0; it is in fact exactly 1.0. *)
Theorem cum_probs_non_decreasing (probabilities : list float) :
  (forall p, In p probabilities -> PrimFloat.leb 0 p = true) ->
  PrimFloat.leb (abs (PrimFloat.sub (running_sum probabilities) 1)) 1e-6
  = true ->
  (forall i j x y,
      (i <= j)%nat ->
      nth_error (build_cum_probs probabilities) i = Some x ->
      nth_error (build_cum_probs probabilities) j = Some y ->
      PrimFloat.leb x y = true) /\
  (exists final,
      nth_error (build_cum_probs probabilities) (length probabilities - 1)
      = Some final /\
      last (build_cum_probs probabilities) 0%float = final /\
      PrimFloat.leb (abs (PrimFloat.sub final 1)) 1e-4 = true /\
      final = 1%float).
Proof.
  intros Hnonneg Hsum. split.
  - intros i j x y. now apply table_non_decreasing.
  - destruct (table_ends_at_one probabilities Hnonneg Hsum) as [Hne Hlast].
    exists 1%float. split; [exact Hlast|].
    split; [|split; [vm_compute; reflexivity|reflexivity]].
    assert (Hc : build_cum_probs probabilities <> []).
    { intros E. apply Hne. apply length_zero_iff_nil.
      rewrite <- build_cum_probs_length, E. reflexivity. }
    destruct (exists_last Hc) as (l' & z & E).
    rewrite E, last_last. rewrite E in Hlast.
    assert (Hlen : length probabilities = S (length l')).
    { rewrite <- build_cum_probs_length, E, length_app. cbn. lia. }
    rewrite Hlen in Hlast.
    replace (S (length l') - 1)%nat with (length l') in Hlast by lia.
    rewrite nth_error_app2, Nat.sub_diag in Hlast by lia.
    cbn in Hlast. congruence.
Qed.

Lemma cum_probs_non_decreasing_witness :
  (forall i j x y,
      (i <= j)%nat ->
      nth_error (build_cum_probs default_probs_all) i = Some x ->
      nth_error (build_cum_probs default_probs_all) j = Some y ->
      PrimFloat.leb x y = true) /\
  (exists final,
      nth_error (build_cum_probs default_probs_all)
        (length default_probs_all - 1) = Some final /\
      last (build_cum_probs default_probs_all) 0%float = final /\
      PrimFloat.leb (abs (PrimFloat.sub final 1)) 1e-4 = true /\
      final = 1%float).
Proof.
  apply (cum_probs_non_decreasing default_probs_all).
  - intros p Hp. cbn in Hp.
    repeat (destruct Hp as [<-|Hp]; [reflexivity|]). contradiction.
  - vm_compute. reflexivity.
Defined.

(** ** The statistics *)

Lemma int_sum_acc (l : list Z) : forall acc, fold_left Z.add l acc = acc + int_sum l.
Proof.
  unfold int_sum. induction l as [|d l IH]; intros acc; cbn [fold_left].
  - lia.
  - rewrite IH, (IH (0 + d)). lia.
Qed.

Lemma int_sum_bound (B : Z) (l : list Z) :
  (forall d, In d l -> Z.abs d < B) ->
  Z.abs (int_sum l) <= Z.of_nat (length l) * B.
Proof.
  induction l as [|d l IH]; intros H.
  - cbn. lia.
  - unfold int_sum. cbn [fold_left]. rewrite int_sum_acc.
    pose proof (H d (or_introl eq_refl)).
    pose proof (IH (fun z Hz => H z (or_intror Hz))).
    cbn [length]. lia.
Qed.

Lemma int_truediv_small (x y : Z) :
  y <> 0 -> Z.abs x < 2 ^ 1000 -> Z.abs y < 2 ^ 500 ->
  exists u, int_truediv x y = Ok u.
Proof.
  intros Hy Hx Hy'.
  destruct (int_truediv_ok x y Hy
              (lt_pow2_mono _ 1000 1023 Hx ltac:(clear; lia))
              (lt_pow2_mono _ 500 1022 Hy' ltac:(clear; lia)))
    as (u & Hu & _).
  now exists u.
Qed.

Lemma demand_sum_small (n_days : Z) (ds : list Z) :
  Z.of_nat (length ds) <= n_days -> n_days < 2 ^ 500 ->
  (forall d, In d ds -> Z.abs d < 2 ^ 500) ->
  Z.abs (int_sum ds) < 2 ^ 1000.
Proof.
  intros Hlen Hn Hd.
  pose proof (int_sum_bound (2 ^ 500) ds Hd) as Hb.
  replace (2 ^ 1000) with (2 ^ 500 * 2 ^ 500)
    by (rewrite <- Z.pow_add_r by (clear; lia); reflexivity).
  assert (HP : 0 < 2 ^ 500) by (apply Z.pow_pos_nonneg; clear; lia).
  clear Hd. set (P := 2 ^ 500) in *. clearbody P.
  destruct (Z.eq_dec (Z.of_nat (length ds)) 0) as [E0|E0]; [nia|].
  assert (Z.of_nat (length ds) * P < P * P) by nia. lia.
Qed.







(** * Further properties of the code *)

(** ** The generator: restarting, reducing the parameters, periodicity *)

Lemma lcg_X_add (seed a c m : Z) (j k : nat) :
  lcg_X (lcg_X seed a c m j) a c m k = lcg_X seed a c m (j + k).
Proof.
  induction k as [|k IH]; [now rewrite Nat.add_0_r|].
  rewrite Nat.add_succ_r. cbn [lcg_X]. now rewrite IH.
Qed.

Lemma lcg_outputs_last (seed a c m : Z) (n : nat) :
  last (lcg_outputs seed a c m n) seed = lcg_X seed a c m n.
Proof.
  destruct n as [|n]; [reflexivity|].
  unfold lcg_outputs. rewrite seq_S, map_app. cbn [map].
  now rewrite last_last.
Qed.

Lemma map_seq_from {A : Type} (f : nat -> A) (n : nat) : forall s,
  map f (seq s n) = map (fun k => f (s + k)%nat) (seq 0 n).
Proof.
  induction n as [|n IH]; intros s; [reflexivity|].
  cbn [seq map]. rewrite Nat.add_0_r. f_equal.
  rewrite IH, <- (seq_shift n 0), map_map.
  apply map_ext. intros k. f_equal. lia.
Qed.

Lemma lcg_outputs_app (seed a c m : Z) (n1 n2 : nat) :
  lcg_outputs seed a c m (n1 + n2)
  = lcg_outputs seed a c m n1
    ++ lcg_outputs (lcg_X seed a c m n1) a c m n2.
Proof.
  unfold lcg_outputs. rewrite seq_app, map_app. f_equal.
  rewrite map_seq_from. apply map_ext. intros k.
  rewrite lcg_X_add. f_equal. lia.
Qed.

(** X1: a run of [n1 + n2] values is a run of [n1] values followed by a
    run of [n2] values seeded with the last value of the first run (with
    the seed itself when [n1 = 0]); an exception of either part is the
    exception of the whole. *)
Theorem generate_lcg_restart (seed a c m n1 n2 : Z) :
  0 <= n1 -> 0 <= n2 ->
  generate_lcg seed a c m (n1 + n2)
  = (xs <- generate_lcg seed a c m n1 ;;
     ys <- generate_lcg (last xs seed) a c m n2 ;;
     Ok (xs ++ ys)).
Proof.
  intros H1 H2. unfold generate_lcg.
  rewrite Z2Nat.inj_add by assumption.
  destruct (Z.eq_dec m 0) as [Hm|Hm].
  - destruct (Z.to_nat n1) as [|k1].
    + cbn [Nat.add lcg_loop bind last app].
      destruct (Z.to_nat n2) as [|k2]; [reflexivity|].
      now rewrite lcg_loop_zero_modulus.
    + now rewrite !lcg_loop_zero_modulus.
  - rewrite !lcg_loop_outputs by assumption. cbn [bind app].
    rewrite lcg_loop_outputs by assumption. cbn [bind app].
    now rewrite lcg_outputs_last, lcg_outputs_app.
Qed.

Lemma generate_lcg_restart_witness :
  generate_lcg 35 13 7 100 (2 + 3)
  = (xs <- generate_lcg 35 13 7 100 2 ;;
     ys <- generate_lcg (last xs 35) 13 7 100 3 ;;
     Ok (xs ++ ys)).
Proof. apply (generate_lcg_restart 35 13 7 100 2 3); lia. Defined.

Lemma lcg_X_mod_params (seed a c m : Z) (k : nat) :
  m <> 0 ->
  lcg_X (seed mod m) (a mod m) (c mod m) m (S k) = lcg_X seed a c m (S k).
Proof.
  intros Hm. induction k as [|k IH].
  - cbn [lcg_X].
    rewrite Z.add_mod_idemp_r, <- Z.add_mod_idemp_l, <- Z.mul_mod,
      Z.add_mod_idemp_l by assumption.
    reflexivity.
  - cbn [lcg_X] in *. rewrite IH.
    rewrite Z.add_mod_idemp_r, <- Z.add_mod_idemp_l, Z.mul_mod_idemp_l,
      Z.add_mod_idemp_l by assumption.
    reflexivity.
Qed.

(** X2: only the residues of the seed, the multiplier and the increment
    modulo [m] matter: replacing each by its remainder modulo [m] gives
    the same output. *)
Theorem generate_lcg_mod_params (seed a c m n : Z) :
  m <> 0 ->
  generate_lcg (seed mod m) (a mod m) (c mod m) m n
  = generate_lcg seed a c m n.
Proof.
  intros Hm. unfold generate_lcg.
  rewrite !lcg_loop_outputs by assumption. f_equal. f_equal.
  unfold lcg_outputs. apply map_ext. intros k. now apply lcg_X_mod_params.
Qed.

Lemma generate_lcg_mod_params_witness :
  generate_lcg (1035 mod 100) (213 mod 100) (-93 mod 100) 100 5
  = generate_lcg 1035 213 (-93) 100 5.
Proof. apply (generate_lcg_mod_params 1035 213 (-93) 100 5). lia. Defined.

Lemma repeated_entry (l : list Z) :
  ~ NoDup l ->
  exists i j x, (i < j)%nat /\ nth_error l i = Some x /\ nth_error l j = Some x.
Proof.
  induction l as [|a l IH]; intros H.
  - exfalso. apply H. constructor.
  - destruct (in_dec Z.eq_dec a l) as [Hin|Hnin].
    + apply In_nth_error in Hin as [j Hj].
      exists 0%nat, (S j), a. split; [lia|]. split; [reflexivity|exact Hj].
    + destruct IH as (i & j & x & Hij & Hi & Hj).
      { intros Hnd. apply H. now constructor. }
      exists (S i), (S j), x. split; [lia|]. split; assumption.
Qed.

(** Among the first [m + 1] outputs two are equal. *)
Lemma lcg_X_repeats (seed a c m : Z) :
  0 < m ->
  exists i j, (i < j <= Z.to_nat m)%nat /\
              lcg_X seed a c m (S i) = lcg_X seed a c m (S j).
Proof.
  intros Hm.
  set (l := lcg_outputs seed a c m (S (Z.to_nat m))).
  destruct (repeated_entry l) as (i & j & x & Hij & Hi & Hj).
  { intros Hnd.
    assert (Hincl : incl l (map Z.of_nat (seq 0 (Z.to_nat m)))).
    { intros y Hy. apply lcg_outputs_range in Hy; [|exact Hm].
      apply in_map_iff. exists (Z.to_nat y). split; [lia|].
      apply in_seq. lia. }
    pose proof (NoDup_incl_length Hnd Hincl) as Hlen.
    unfold l in Hlen.
    rewrite lcg_outputs_length, length_map, length_seq in Hlen. lia. }
  assert (Hjl : (j < S (Z.to_nat m))%nat).
  { rewrite <- (lcg_outputs_length a c m seed (S (Z.to_nat m))).
    apply nth_error_Some. fold l. congruence. }
  unfold l in Hi, Hj.
  rewrite lcg_outputs_nth in Hi, Hj by lia.
  exists i, j. split; [lia|congruence].
Qed.

(** X3: for a positive modulus the output is periodic after a
    pre-period: there are a start [i] and a period [p >= 1] with
    [i + p <= m] such that, in every run, the element at index
    [i + p + k] equals the element at index [i + k]. *)
Theorem generate_lcg_eventually_periodic (seed a c m : Z) :
  0 < m ->
  exists i p : nat,
    (0 < p)%nat /\ (i + p <= Z.to_nat m)%nat /\
    forall n xs k,
      generate_lcg seed a c m n = Ok xs ->
      (i + p + k < length xs)%nat ->
      nth_error xs (i + p + k) = nth_error xs (i + k).
Proof.
  intros Hm.
  destruct (lcg_X_repeats seed a c m Hm) as (i & j & Hij & E).
  exists i, (j - i)%nat. split; [lia|]. split; [lia|].
  intros n xs k Hgen Hk.
  unfold generate_lcg in Hgen.
  rewrite lcg_loop_outputs in Hgen by lia. cbn [app] in Hgen.
  injection Hgen as <-.
  rewrite lcg_outputs_length in Hk.
  rewrite !lcg_outputs_nth by lia. f_equal.
  replace (S (i + (j - i) + k)) with (S j + k)%nat by lia.
  replace (S (i + k)) with (S i + k)%nat by lia.
  now rewrite <- !lcg_X_add, E.
Qed.

Lemma generate_lcg_eventually_periodic_witness :
  exists i p : nat,
    (0 < p)%nat /\ (i + p <= Z.to_nat 100)%nat /\
    forall n xs k,
      generate_lcg 35 13 7 100 n = Ok xs ->
      (i + p + k < length xs)%nat ->
      nth_error xs (i + p + k) = nth_error xs (i + k).
Proof. apply (generate_lcg_eventually_periodic 35 13 7 100). lia. Defined.

(** ** The demand mapper: results, order, the fallback *)

Lemma getitem_last_nth {A : Type} (l : list A) (d : A) :
  getitem l (-1) = Ok d -> nth_error l (length l - 1) = Some d.
Proof.
  destruct l as [|a l]; [discriminate|].
  destruct (@exists_last _ (a :: l) ltac:(discriminate)) as (l' & z & ->).
  intros H. rewrite (getitem_last (l' ++ [z]) d) in H
    by (intros E; apply app_eq_nil in E as [_ E]; discriminate).
  rewrite last_last in H. injection H as ->.
  rewrite length_app. cbn [length].
  replace (length l' + 1 - 1)%nat with (length l') by lia.
  now rewrite nth_error_app2, Nat.sub_diag by lia.
Qed.

Section MapToDemandOrder.

Context {T D : Type}.
Variable le : T -> T -> bool.
Hypothesis le_trans : forall x y z, le x y = true -> le y z = true -> le x z = true.

Lemma map_scan_In (u : T) (demands : list D) (d : D) : forall rest i,
  map_scan le u demands i rest = Ok d -> In d demands.
Proof.
  induction rest as [|cp rest IH]; intros i; cbn [map_scan].
  - apply getitem_In.
  - destruct (le u cp); [apply getitem_In|apply IH].
Qed.

Lemma first_index_mono (u1 u2 : T) (cum_probs : list T) (i1 i2 : nat) :
  le u1 u2 = true ->
  first_index le u1 cum_probs i1 -> first_index le u2 cum_probs i2 ->
  (i1 <= i2)%nat.
Proof.
  intros Hu (_ & Hbefore) ((cp & Hcp & Hle) & _).
  destruct (Nat.le_gt_cases i1 i2) as [H|H]; [exact H|].
  pose proof (Hbefore i2 cp H Hcp) as F.
  rewrite (le_trans _ _ _ Hu Hle) in F. discriminate.
Qed.

Lemma no_index_mono (u1 u2 : T) (cum_probs : list T) :
  le u1 u2 = true -> no_index le u1 cum_probs -> no_index le u2 cum_probs.
Proof.
  intros Hu Hno j cp Hcp.
  destruct (le u2 cp) eqn:E; [|reflexivity].
  pose proof (Hno j cp Hcp) as F.
  rewrite (le_trans _ _ _ Hu E) in F. discriminate.
Qed.

End MapToDemandOrder.

Lemma leb_not_nan (x y : float) :
  PrimFloat.leb x y = true -> not_nan (Prim2SF x) /\ not_nan (Prim2SF y).
Proof.
  rewrite leb_spec. unfold SFleb, not_nan.
  destruct (Prim2SF x), (Prim2SF y); cbn [SFcompare]; try discriminate;
    intros _; split; discriminate.
Qed.

Lemma float_leb_trans (x y z : float) :
  PrimFloat.leb x y = true -> PrimFloat.leb y z = true ->
  PrimFloat.leb x z = true.
Proof.
  intros Hxy Hyz.
  destruct (leb_not_nan x y Hxy) as [Nx Ny].
  destruct (leb_not_nan y z Hyz) as [_ Nz].
  rewrite leb_FV in * by assumption.
  apply Z.leb_le. apply Z.leb_le in Hxy, Hyz. lia.
Qed.

Lemma ltb_leb (x y : float) :
  PrimFloat.ltb x y = true -> PrimFloat.leb x y = true.
Proof.
  rewrite ltb_spec, leb_spec. unfold SFltb, SFleb.
  now destruct (SFcompare (Prim2SF x) (Prim2SF y)) as [[]|].
Qed.

(** Whatever [map_to_demand] returns is an element of the demand list. *)
Lemma map_to_demand_In {T D : Type} (le : T -> T -> bool) (u : T)
    (demands : list D) (cum_probs : list T) (d : D) :
  map_to_demand le u demands cum_probs = Ok d -> In d demands.
Proof. apply map_scan_In. Qed.

(** X4: the mapper is monotone.  For [u1 <= u2] the first index reached
    by [u1] is at most the one reached by [u2], and when [u1] reaches no
    threshold neither does [u2]; hence, when the demand values are listed
    in non-decreasing order, the demand returned for [u1] is at most the
    demand returned for [u2]. *)
Theorem map_to_demand_monotone (u1 u2 : float) (demands : list Z)
    (cum_probs : list float) (d1 d2 : Z) :
  length demands = length cum_probs ->
  (forall i j di dj, (i <= j)%nat ->
     nth_error demands i = Some di -> nth_error demands j = Some dj ->
     di <= dj) ->
  PrimFloat.leb u1 u2 = true ->
  map_to_demand PrimFloat.leb u1 demands cum_probs = Ok d1 ->
  map_to_demand PrimFloat.leb u2 demands cum_probs = Ok d2 ->
  d1 <= d2 /\
  (forall i1 i2,
      first_index PrimFloat.leb u1 cum_probs i1 ->
      first_index PrimFloat.leb u2 cum_probs i2 -> (i1 <= i2)%nat) /\
  (no_index PrimFloat.leb u1 cum_probs -> no_index PrimFloat.leb u2 cum_probs).
Proof.
  intros Hlen Hsorted Hu H1 H2.
  split; [|split].
  2:{ intros i1 i2. now apply first_index_mono with (1 := float_leb_trans). }
  2:{ now apply no_index_mono with (1 := float_leb_trans). }
  unfold map_to_demand in H1, H2.
  destruct (first_index_or_none PrimFloat.leb u1 cum_probs)
    as [(i1 & Hf1)|Hno1].
  - pose proof (first_index_bound _ _ _ _ Hf1) as Hb1.
    assert (Hd1 : nth_error demands i1 = Some d1).
    { destruct Hf1 as ((cp & Hcp & Hle) & Hbefore).
      rewrite (map_scan_hit _ _ _ _ 0 i1 cp Hcp Hle Hbefore) in H1.
      cbn [Nat.add] in H1.
      destruct (nth_error demands i1) as [d|] eqn:E.
      - rewrite (getitem_of_nat _ _ _ E) in H1. congruence.
      - apply nth_error_None in E. lia. }
    destruct (first_index_or_none PrimFloat.leb u2 cum_probs)
      as [(i2 & Hf2)|Hno2].
    + pose proof (first_index_bound _ _ _ _ Hf2) as Hb2.
      pose proof (first_index_mono _ float_leb_trans _ _ _ _ _ Hu Hf1 Hf2)
        as Hi.
      destruct Hf2 as ((cp & Hcp & Hle) & Hbefore).
      rewrite (map_scan_hit _ _ _ _ 0 i2 cp Hcp Hle Hbefore) in H2.
      cbn [Nat.add] in H2.
      destruct (nth_error demands i2) as [d|] eqn:E.
      * rewrite (getitem_of_nat _ _ _ E) in H2.
        injection H2 as ->. exact (Hsorted i1 i2 d1 d2 Hi Hd1 E).
      * apply nth_error_None in E. lia.
    + rewrite map_scan_miss in H2 by assumption.
      apply getitem_last_nth in H2.
      apply (Hsorted i1 (length demands - 1)%nat d1 d2); [lia| |]; assumption.
  - pose proof (no_index_mono _ float_leb_trans _ _ _ Hu Hno1) as Hno2.
    rewrite map_scan_miss in H1, H2 by assumption.
    assert (d1 = d2) by congruence. lia.
Qed.

Lemma map_to_demand_monotone_witness :
  30 <= 40 /\
  (forall i1 i2,
      first_index PrimFloat.leb 0.62%float
        [0.01; 0.21; 0.36; 0.86; 0.98; 1.0]%float i1 ->
      first_index PrimFloat.leb 0.9%float
        [0.01; 0.21; 0.36; 0.86; 0.98; 1.0]%float i2 -> (i1 <= i2)%nat) /\
  (no_index PrimFloat.leb 0.62%float [0.01; 0.21; 0.36; 0.86; 0.98; 1.0]%float ->
   no_index PrimFloat.leb 0.9%float [0.01; 0.21; 0.36; 0.86; 0.98; 1.0]%float).
Proof.
  apply (map_to_demand_monotone 0.62%float 0.9%float default_demands_all
           [0.01; 0.21; 0.36; 0.86; 0.98; 1.0]%float 30 40).
  - reflexivity.
  - intros i j di dj Hij Hi Hj.
    do 6 (destruct i as [|i]; [
      do 6 (destruct j as [|j]; [
        cbn in Hi, Hj; injection Hi as <-; injection Hj as <-; lia|]);
      destruct j; discriminate|]).
    destruct i; discriminate.
  - reflexivity.
  - reflexivity.
  - reflexivity.
Defined.

(** X5: with non-negative probabilities whose running sum is within 1e-6
    of 1, the fallback [demands[-1]] is never taken for a value
    [u <= 1]: some threshold is reached, and the demand at the first such
    index is returned.  This covers every uniform value [x / m] of a
    generator value [0 <= x < m] with [m < 2^53]. *)
Theorem map_to_demand_no_fallback (probabilities : list float)
    (demands : list Z) :
  (forall p, In p probabilities -> PrimFloat.leb 0 p = true) ->
  PrimFloat.leb (abs (PrimFloat.sub (running_sum probabilities) 1)) 1e-6
  = true ->
  length demands = length probabilities ->
  (forall u, PrimFloat.leb u 1 = true ->
     exists i d,
       first_index PrimFloat.leb u (build_cum_probs probabilities) i /\
       nth_error demands i = Some d /\
       map_to_demand PrimFloat.leb u demands (build_cum_probs probabilities)
       = Ok d) /\
  (forall x m, 0 <= x < m -> m < 2 ^ 53 ->
     exists u i d,
       int_truediv x m = Ok u /\
       first_index PrimFloat.leb u (build_cum_probs probabilities) i /\
       nth_error demands i = Some d /\
       map_to_demand PrimFloat.leb u demands (build_cum_probs probabilities)
       = Ok d).
Proof.
  intros Hnonneg Hsum Hlen.
  assert (Hu : forall u, PrimFloat.leb u 1 = true ->
     exists i d,
       first_index PrimFloat.leb u (build_cum_probs probabilities) i /\
       nth_error demands i = Some d /\
       map_to_demand PrimFloat.leb u demands (build_cum_probs probabilities)
       = Ok d).
  { intros u Hu.
    destruct (table_ends_at_one probabilities Hnonneg Hsum) as [Hne Hlast].
    destruct (first_index_or_none PrimFloat.leb u
                (build_cum_probs probabilities)) as [(i & Hf)|Hno].
    - pose proof (first_index_bound _ _ _ _ Hf) as Hi.
      rewrite build_cum_probs_length, <- Hlen in Hi.
      destruct (nth_error demands i) as [d|] eqn:Hd.
      2:{ apply nth_error_None in Hd. lia. }
      exists i, d. split; [exact Hf|]. split; [exact Hd|].
      destruct Hf as ((cp & Hcp & Hle) & Hbefore).
      unfold map_to_demand.
      rewrite (map_scan_hit _ _ _ _ 0 i cp Hcp Hle Hbefore).
      now apply getitem_of_nat.
    - rewrite (Hno _ _ Hlast) in Hu. discriminate. }
  split; [exact Hu|].
  intros x m Hx Hm.
  destruct (int_truediv_unit_interval x m Hx Hm) as (u & Hdiv & _ & Hlt).
  destruct (Hu u (ltb_leb _ _ Hlt)) as (i & d & H).
  now exists u, i, d.
Qed.

Lemma map_to_demand_no_fallback_witness :
  (forall u, PrimFloat.leb u 1 = true ->
     exists i d,
       first_index PrimFloat.leb u (build_cum_probs default_probs_all) i /\
       nth_error default_demands_all i = Some d /\
       map_to_demand PrimFloat.leb u default_demands_all
         (build_cum_probs default_probs_all) = Ok d) /\
  (forall x m, 0 <= x < m -> m < 2 ^ 53 ->
     exists u i d,
       int_truediv x m = Ok u /\
       first_index PrimFloat.leb u (build_cum_probs default_probs_all) i /\
       nth_error default_demands_all i = Some d /\
       map_to_demand PrimFloat.leb u default_demands_all
         (build_cum_probs default_probs_all) = Ok d).
Proof.
  apply (map_to_demand_no_fallback default_probs_all default_demands_all).
  - intros p Hp. cbn in Hp.
    repeat (destruct Hp as [<-|Hp]; [reflexivity|]). contradiction.
  - vm_compute. reflexivity.
  - reflexivity.
Defined.

(** ** All probabilities zero *)

Lemma eqb_zero_is_zero (p : float) : PrimFloat.eqb p 0 = true -> is_zero p.
Proof.
  rewrite eqb_spec. unfold is_zero, SFeqb.
  change (Prim2SF 0) with (S754_zero false).
  destruct (Prim2SF p) as [s|s| |s m e]; cbn; try discriminate.
  - intros _. now exists s.
  - destruct s; discriminate.
  - destruct s; discriminate.
Qed.

Lemma add_is_zero (x y : float) :
  is_zero x -> is_zero y -> is_zero (PrimFloat.add x y).
Proof.
  intros [sx Hx] [sy Hy]. unfold is_zero.
  rewrite add_spec, Hx, Hy. unfold SF64add. cbn [SFadd].
  destruct sx, sy; eauto.
Qed.

Lemma fold_add_is_zero (ps : list float) : forall s,
  is_zero s -> (forall p, In p ps -> is_zero p) ->
  is_zero (fold_left PrimFloat.add ps s).
Proof.
  induction ps as [|p ps IH]; intros s Hs Hps; [exact Hs|].
  cbn [fold_left]. apply IH.
  - apply add_is_zero; [exact Hs|]. apply Hps. now left.
  - intros q Hq. apply Hps. now right.
Qed.

Lemma float_round_is_zero (x : float) (n : nat) :
  is_zero x -> float_round x n = x.
Proof. intros [s Hs]. unfold float_round. now rewrite Hs. Qed.

Lemma leb_is_zero (u z : float) :
  is_zero z ->
  (PrimFloat.ltb 0 u = true -> PrimFloat.leb u z = false) /\
  (is_zero u -> PrimFloat.leb u z = true).
Proof.
  intros [s Hz]. rewrite ltb_spec, !leb_spec, Hz. unfold SFltb, SFleb.
  change (Prim2SF 0) with (S754_zero false). split.
  - destruct (Prim2SF u) as [su|[]| |[] m e]; cbn; congruence.
  - intros [su ->]. reflexivity.
Qed.

Lemma zero_table_entries (ps : list float) :
  (forall p, In p ps -> PrimFloat.eqb p 0 = true) ->
  forall i cp, nth_error (build_cum_probs ps) i = Some cp -> is_zero cp.
Proof.
  intros Hps i cp Hcp.
  assert (Hi : (i < length ps)%nat).
  { rewrite <- build_cum_probs_length. apply nth_error_Some. congruence. }
  rewrite build_cum_probs_nth in Hcp by exact Hi.
  assert (Hz : is_zero (running_sum (firstn (S i) ps))).
  { apply fold_add_is_zero; [now exists false|].
    intros p Hp. apply eqb_zero_is_zero, Hps. eapply In_firstn_1, Hp. }
  rewrite float_round_is_zero in Hcp by exact Hz. congruence.
Qed.

Lemma int_truediv_positive (x m : Z) :
  0 < x < m -> m < 2 ^ 53 ->
  exists u, int_truediv x m = Ok u /\ PrimFloat.ltb 0 u = true.
Proof.
  intros Hx Hm.
  assert (Hax : Z.abs x < 2 ^ 53) by lia.
  assert (Ham : Z.abs m < 2 ^ 53) by lia.
  destruct (int_truediv_ok x m ltac:(lia)
              (lt_pow2_mono _ 53 1023 Hax ltac:(clear; lia))
              (lt_pow2_mono _ 53 1022 Ham ltac:(clear; lia)))
    as (u & Hu & Hsf).
  exists u. split; [exact Hu|].
  rewrite ltb_spec, Hsf.
  rewrite (Z2SF_nonzero x), (Z2SF_nonzero m) by lia.
  replace (x <? 0) with false by (symmetry; apply Z.ltb_ge; lia).
  replace (m <? 0) with false by (symmetry; apply Z.ltb_ge; lia).
  assert (Hxm : Zpos (Z.to_pos (Z.abs x)) < Zpos (Z.to_pos (Z.abs m))) by lia.
  assert (Hm53 : Zpos (Z.to_pos (Z.abs m)) < 2 ^ 53) by lia.
  destruct (SFdiv_proper_data _ _ Hxm Hm53)
    as (e1 & m1 & m2 & _ & _ & _ & _ & Hv & Hn).
  pose proof (SFdiv_proper_bracket _ _ Hxm Hm53) as [Hlo _].
  cbv zeta in Hlo.
  set (q := SFdiv prec emax (S754_finite false (Z.to_pos (Z.abs x)) 0)
              (S754_finite false (Z.to_pos (Z.abs m)) 0)) in *.
  unfold SFltb.
  rewrite (SFcompare_BV (Prim2SF 0) q eq_refl Hv ltac:(discriminate)
             (nonneg_not_nan _ Hn)).
  change (BV (Prim2SF 0)) with 0.
  assert (Hpos : 0 < BV q).
  { replace (2 ^ 1074) with (2 ^ 53 * 2 ^ 1021) in Hlo
      by (rewrite <- Z.pow_add_r by (clear; lia); reflexivity).
    assert (HP : 0 < 2 ^ 1021) by (apply Z.pow_pos_nonneg; clear; lia).
    change (2 ^ 53) with 9007199254740992 in Hlo, Hm53.
    assert (H1 : 1 <= Zpos (Z.to_pos (Z.abs x))) by (clear; lia).
    set (B := BV q) in *. set (X := Zpos (Z.to_pos (Z.abs x))) in *.
    set (M := Zpos (Z.to_pos (Z.abs m))) in *. set (P := 2 ^ 1021) in *.
    clearbody B X M P. clear - Hlo Hm53 HP H1 Hxm.
    destruct (Z.lt_ge_cases 0 B) as [H|H]; [exact H|exfalso].
    assert (H2 : M * B <= 0) by nia.
    assert (H3 : (X * 9007199254740992 - M) * P < 0) by lia.
    nia. }
  now apply Z.compare_lt_iff in Hpos as ->.
Qed.

(** X6: when every probability is zero (the case in which the script
    shows its error and goes on), every threshold of the cumulative table
    is a zero.  A day whose generator value is positive then gets the last
    demand value, and a day whose generator value is 0 gets the first. *)
Theorem zero_probabilities_degenerate (probabilities : list float)
    (demands : list Z) (m : Z) (d0 : Z) :
  (forall p, In p probabilities -> PrimFloat.eqb p 0 = true) ->
  probabilities <> [] ->
  length demands = length probabilities ->
  2 <= m < 2 ^ 53 ->
  PrimFloat.eqb (float_sum_plain probabilities) 0 = true /\
  (forall cp, In cp (build_cum_probs probabilities) ->
              PrimFloat.eqb cp 0 = true) /\
  (forall x, 0 < x < m ->
     exists u, int_truediv x m = Ok u /\
               map_to_demand PrimFloat.leb u demands
                 (build_cum_probs probabilities) = Ok (last demands d0)) /\
  (exists u, int_truediv 0 m = Ok u /\
             map_to_demand PrimFloat.leb u demands
               (build_cum_probs probabilities) = Ok (hd d0 demands)).
Proof.
  intros Hps Hne Hlen Hm.
  pose proof (zero_table_entries probabilities Hps) as Hz.
  assert (Hzb : forall z, is_zero z -> PrimFloat.eqb z 0 = true).
  { intros z [s Hs]. rewrite eqb_spec, Hs. reflexivity. }
  split; [|split; [|split]].
  - apply Hzb. apply fold_add_is_zero; [now exists false|].
    intros p Hp. now apply eqb_zero_is_zero, Hps.
  - intros cp Hcp. apply In_nth_error in Hcp as [i Hi].
    apply Hzb. exact (Hz i cp Hi).
  - intros x Hx.
    destruct (int_truediv_positive x m Hx (proj2 Hm)) as (u & Hu & Hpos).
    exists u. split; [exact Hu|].
    unfold map_to_demand. rewrite map_scan_miss.
    + apply getitem_last. destruct demands; [|discriminate].
      destruct probabilities; [congruence|discriminate].
    + intros j cp Hcp. exact (proj1 (leb_is_zero u cp (Hz j cp Hcp)) Hpos).
  - exists 0%float. split.
    + unfold int_truediv.
      destruct (Z.eqb_spec m 0) as [E|_]; [lia|].
      rewrite (Z2SF_nonzero m) by lia.
      replace (m <? 0) with false by (symmetry; apply Z.ltb_ge; lia).
      reflexivity.
    + destruct probabilities as [|p ps]; [congruence|].
      destruct demands as [|d ds]; [discriminate|].
      destruct (build_cum_probs (p :: ps)) as [|cp cps] eqn:E.
      { pose proof (build_cum_probs_length (p :: ps)) as L.
        rewrite E in L. discriminate. }
      unfold map_to_demand. cbn [map_scan hd].
      rewrite (proj2 (leb_is_zero 0 cp (Hz 0%nat cp eq_refl)))
        by (now exists false).
      reflexivity.
Qed.

Lemma zero_probabilities_degenerate_witness :
  PrimFloat.eqb (float_sum_plain [0; 0; 0]%float) 0 = true /\
  (forall cp, In cp (build_cum_probs [0; 0; 0]%float) ->
              PrimFloat.eqb cp 0 = true) /\
  (forall x, 0 < x < 100 ->
     exists u, int_truediv x 100 = Ok u /\
               map_to_demand PrimFloat.leb u [5; 10; 20]
                 (build_cum_probs [0; 0; 0]%float)
               = Ok (last [5; 10; 20] 0)) /\
  (exists u, int_truediv 0 100 = Ok u /\
             map_to_demand PrimFloat.leb u [5; 10; 20]
               (build_cum_probs [0; 0; 0]%float) = Ok (hd 0 [5; 10; 20])).
Proof.
  apply (zero_probabilities_degenerate [0; 0; 0]%float [5; 10; 20] 100 0).
  - intros p Hp. cbn in Hp.
    repeat (destruct Hp as [<-|Hp]; [reflexivity|]). contradiction.
  - discriminate.
  - reflexivity.
  - split; [lia|reflexivity].
Defined.

(** ** The normalization block as a whole *)

Lemma is_nan_Prim2SF (x : float) :
  is_nan x = true -> Prim2SF x = S754_nan.
Proof.
  unfold is_nan. rewrite eqb_spec. unfold SFeqb.
  destruct (Prim2SF x) as [s|s| |s m e]; cbn [SFcompare];
    try reflexivity; try (destruct s; discriminate).
  rewrite Z.compare_refl, Pos.compare_cont_refl.
  destruct s; discriminate.
Qed.

(** A NaN is neither equal to 0 nor farther than 1e-6 from 1. *)
Lemma nan_comparisons (s : float) :
  is_nan s = true ->
  PrimFloat.eqb s zero = false /\
  PrimFloat.ltb 1e-6 (abs (PrimFloat.sub s 1)) = false.
Proof.
  intros H. apply is_nan_Prim2SF in H.
  rewrite eqb_spec, ltb_spec, abs_spec, sub_spec, H. split; reflexivity.
Qed.

Lemma normalize_length (float_sum : list float -> float) ps tr tr' ps' :
  normalize float_sum ps tr = (tr', Ok ps') -> length ps' = length ps.
Proof.
  destruct (PrimFloat.eqb (float_sum ps) zero) eqn:H0.
  - rewrite normalize_zero_sum by assumption. now intros [= _ <-].
  - destruct (PrimFloat.ltb 1e-6 (abs (PrimFloat.sub (float_sum ps) 1)))
      eqn:H1.
    + rewrite normalize_rescale by assumption. intros [= _ <-].
      apply length_map.
    + rewrite normalize_pass by assumption. now intros [= _ <-].
Qed.

(** X7: the normalization block never raises (the division is only
    reached with a nonzero sum), keeps the number of probabilities, and
    shows at most one message.  When the sum is NaN it shows nothing and
    leaves the probabilities as they are. *)
Theorem normalize_total (float_sum : list float -> float)
    (probabilities : list float) (tr : list event) :
  exists tr' ps',
    normalize float_sum probabilities tr = (tr', Ok ps') /\
    length ps' = length probabilities /\
    (tr' = tr \/ tr' = tr ++ [EvError] \/
     tr' = tr ++ [EvWarning (float_sum probabilities)]) /\
    (is_nan (float_sum probabilities) = true ->
     tr' = tr /\ ps' = probabilities).
Proof.
  destruct (PrimFloat.eqb (float_sum probabilities) zero) eqn:H0.
  - exists (tr ++ [EvError]), probabilities.
    split; [now apply normalize_zero_sum|]. split; [reflexivity|].
    split; [auto|]. intros Hn.
    destruct (nan_comparisons _ Hn) as [E _]. congruence.
  - destruct (PrimFloat.ltb 1e-6
                (abs (PrimFloat.sub (float_sum probabilities) 1))) eqn:H1.
    + eexists _, _. split; [now apply normalize_rescale|].
      split; [apply length_map|]. split; [auto|]. intros Hn.
      destruct (nan_comparisons _ Hn) as [_ E]. congruence.
    + exists tr, probabilities. split; [now apply normalize_pass|]. auto.
Qed.

(** ** The whole script *)

Lemma data_frame_equal (n : nat) (lengths : list nat) :
  (forall k, In k lengths -> k = n) -> data_frame (n :: lengths) = Ok tt.
Proof.
  intros H. unfold data_frame.
  replace (forallb (Nat.eqb n) lengths) with true; [reflexivity|].
  symmetry. apply forallb_forall. intros k Hk.
  rewrite (H k Hk). apply Nat.eqb_refl.
Qed.

Lemma range_length (lo hi : Z) : length (range lo hi) = Z.to_nat (hi - lo).
Proof. unfold range. now rewrite length_map, length_seq. Qed.

Lemma map_to_demand_ok {T D : Type} (le : T -> T -> bool) (u : T)
    (demands : list D) (cum_probs : list T) :
  demands <> [] -> (length cum_probs <= length demands)%nat ->
  exists d, map_to_demand le u demands cum_probs = Ok d /\ In d demands.
Proof.
  intros Hne Hlen. unfold map_to_demand.
  assert (H : exists d, map_scan le u demands 0 cum_probs = Ok d).
  { destruct (first_index_or_none le u cum_probs) as [(i & Hfirst)|Hno].
    - pose proof (first_index_bound le u cum_probs i Hfirst) as Hi.
      destruct Hfirst as ((cp & Hcp & Hle) & Hbefore).
      rewrite (map_scan_hit le u demands cum_probs 0 i cp Hcp Hle Hbefore).
      destruct (nth_error demands i) as [d|] eqn:Hd.
      + exists d. now apply getitem_of_nat.
      + apply nth_error_None in Hd. lia.
    - rewrite map_scan_miss by assumption.
      destruct demands as [|d1 demands']; [congruence|].
      eexists. now apply (getitem_last _ d1). }
  destruct H as [d Hd]. exists d. split; [exact Hd|].
  eapply map_to_demand_In, Hd.
Qed.

Lemma statistics_ok (n_days : Z) (demands_generated : list Z)
    (tr : list event) :
  Z.of_nat (length demands_generated) = n_days ->
  1 <= n_days < 2 ^ 500 ->
  (forall d, In d demands_generated -> Z.abs d < 2 ^ 500) ->
  exists tr', statistics n_days demands_generated tr = (tr', Ok tt).
Proof.
  intros Hlen Hn Hd.
  assert (H1 : 1 <= n_days) by (clear - Hn; apply Hn).
  assert (H500 : Z.abs 6 < 2 ^ 500)
    by (apply (lt_pow2_mono _ 3 500); [reflexivity|clear; lia]).
  assert (Hn500 : Z.abs n_days < 2 ^ 500)
    by (rewrite Z.abs_eq by exact (Z.le_trans _ _ _ Z.le_0_1 H1); apply Hn).
  destruct (int_truediv_small (int_sum demands_generated) n_days)
    as (avg_n & Havg);
    [clear - H1; lia
    |apply (demand_sum_small n_days);
     [rewrite Hlen; apply Z.le_refl|apply Hn|exact Hd]
    |exact Hn500|].
  destruct (int_truediv_small (int_sum (firstn 6 demands_generated)) 6)
    as (avg_6 & Havg6); [discriminate| |exact H500|].
  { apply (demand_sum_small n_days); [|apply Hn|].
    - rewrite length_firstn. clear - Hlen. lia.
    - intros d Hin. apply Hd. eapply In_firstn_1, Hin. }
  clear Hn Hd H500 Hn500.
  unfold statistics, slice_to, sbind, lift, show, ret.
  rewrite Havg6, Havg.
  destruct (Z.leb_spec 6 n_days) as [H6|H6];
    (destruct (Z.leb_spec 5 n_days) as [H5|H5]; [|eauto; lia]);
    (destruct (nth_error demands_generated 4) as [d5|] eqn:E5;
     [|apply nth_error_None in E5; lia]);
    pose proof (getitem_of_nat demands_generated 4 d5 E5) as G;
    change (Z.of_nat 4) with 4 in G; rewrite G; eauto.
Qed.

Lemma simulate_ok (a c m X0 n_days : Z) (demand_values : list Z)
    (ps : list float) (tr : list event) :
  2 <= m < 2 ^ 53 ->
  1 <= n_days < 2 ^ 500 ->
  demand_values <> [] ->
  length demand_values = length ps ->
  (forall d, In d demand_values -> Z.abs d < 2 ^ 500) ->
  exists tr' g,
    simulate a c m X0 n_days demand_values ps tr = (tr', Ok g) /\
    Z.of_nat (length (Globals.X_values g)) = n_days /\
    length (Globals.U_values g) = length (Globals.X_values g) /\
    length (Globals.demands_generated g) = length (Globals.X_values g) /\
    (forall x, In x (Globals.X_values g) -> 0 <= x < m) /\
    (forall u, In u (Globals.U_values g) ->
               PrimFloat.leb 0 u = true /\ PrimFloat.ltb u 1 = true) /\
    (forall d, In d (Globals.demands_generated g) -> In d demand_values).
Proof.
  intros Hm Hn Hne Hlen Hd.
  assert (Hm0 : 0 < m) by (clear - Hm; lia).
  assert (Hm53 : m < 2 ^ 53) by apply Hm.
  assert (Hn1 : 1 <= n_days) by apply Hn.
  set (X := lcg_outputs X0 a c m (Z.to_nat n_days)).
  assert (HX : generate_lcg X0 a c m n_days = Ok X).
  { unfold generate_lcg. rewrite lcg_loop_outputs by (clear - Hm0; lia).
    reflexivity. }
  assert (HXr : forall x, In x X -> 0 <= x < m).
  { intros x Hx. exact (lcg_outputs_range _ _ _ _ _ _ Hm0 Hx). }
  destruct (mapM_all (fun x => int_truediv x m)
              (fun u => PrimFloat.leb 0 u = true /\ PrimFloat.ltb u 1 = true) X)
    as (U & HU & HUlen & HUr).
  { intros x Hx. apply int_truediv_unit_interval; [now apply HXr|exact Hm53]. }
  destruct (mapM_all (fun u => map_to_demand PrimFloat.leb u demand_values
                                 (build_cum_probs ps))
              (fun d => In d demand_values) U)
    as (ds & Hds & Hdslen & Hdsr).
  { intros u _. apply map_to_demand_ok; [exact Hne|].
    rewrite build_cum_probs_length, Hlen. apply Nat.le_refl. }
  assert (HXlen : length X = Z.to_nat n_days) by apply lcg_outputs_length.
  destruct (statistics_ok n_days ds
              (tr ++ [EvCumTable demand_values ps (build_cum_probs ps)]
                  ++ [EvResults (range 1 (n_days + 1)) X
                        (map (fun u => float_round u 4) U) ds]))
    as (tr' & Hstat).
  { rewrite Hdslen, HUlen, HXlen. clear - Hn1. lia. }
  { exact Hn. }
  { intros d Hin. apply Hd, Hdsr, Hin. }
  eexists _, _. split.
  - unfold simulate.
    unfold sbind at 1. unfold lift at 1.
    rewrite data_frame_equal.
    2:{ intros k [<-|[<-|[]]]; [now rewrite Hlen|].
        now rewrite build_cum_probs_length, Hlen. }
    unfold sbind at 1. unfold show at 1.
    unfold sbind at 1. unfold lift at 1. rewrite HX.
    unfold sbind at 1. unfold lift at 1. rewrite HU.
    unfold sbind at 1. unfold lift at 1. rewrite Hds.
    unfold sbind at 1. unfold lift at 1.
    rewrite data_frame_equal.
    2:{ rewrite range_length.
        replace (n_days + 1 - 1) with n_days by (clear; lia).
        intros k [<-|[<-|[<-|[]]]]; congruence. }
    unfold sbind at 1. unfold show at 1.
    rewrite <- app_assoc.
    unfold sbind at 1. rewrite Hstat.
    unfold sbind, show, ret. reflexivity.
  - cbn [Globals.X_values Globals.U_values Globals.demands_generated].
    split; [rewrite HXlen; clear - Hn1; lia|].
    split; [exact HUlen|]. split; [congruence|].
    split; [exact HXr|]. split; [exact HUr|exact Hdsr].
Qed.

(** X8: for everything the widgets can deliver (modulus at least 2 and
    below [2^53], at least one day, a nonempty list of demand values
    with as many probabilities, all below [2^500]) the script raises no
    exception.  It ends with as many generator values, uniform values
    and demands as there are days; every generator value is in
    [0, m), every uniform value in [0, 1), and every demand is one of the
    demand values entered. *)
Theorem run_completes (float_sum : list float -> float)
    (a c m X0 n_days : Z) (demand_values : list Z)
    (probabilities : list float) (tr : list event) :
  2 <= m < 2 ^ 53 ->
  1 <= n_days < 2 ^ 500 ->
  demand_values <> [] ->
  length demand_values = length probabilities ->
  (forall d, In d demand_values -> Z.abs d < 2 ^ 500) ->
  exists tr' g,
    run float_sum a c m X0 n_days demand_values probabilities tr
    = (tr', Ok g) /\
    length (Globals.probabilities g) = length probabilities /\
    length (Globals.cum_probs g) = length probabilities /\
    Z.of_nat (length (Globals.X_values g)) = n_days /\
    length (Globals.U_values g) = length (Globals.X_values g) /\
    length (Globals.demands_generated g) = length (Globals.X_values g) /\
    (forall x, In x (Globals.X_values g) -> 0 <= x < m) /\
    (forall u, In u (Globals.U_values g) ->
               PrimFloat.leb 0 u = true /\ PrimFloat.ltb u 1 = true) /\
    (forall d, In d (Globals.demands_generated g) -> In d demand_values).
Proof.
  intros Hm Hn Hne Hlen Hd.
  destruct (normalize_ok float_sum probabilities tr) as (tr1 & ps1 & Hnorm).
  pose proof (normalize_length _ _ _ _ _ Hnorm) as Hlen1.
  destruct (simulate_ok a c m X0 n_days demand_values ps1 tr1 Hm Hn Hne
              ltac:(congruence) Hd) as (tr' & g & Hsim & Hrest).
  exists tr', g. unfold run.
  rewrite (sbind_ok _ _ _ _ _ Hnorm).
  split; [exact Hsim|].
  destruct (simulate_inv _ _ _ _ _ _ _ _ _ _ Hsim) as (Hp & Hc & _).
  split; [now rewrite Hp|].
  split; [now rewrite Hc, build_cum_probs_length|].
  exact Hrest.
Qed.

Lemma run_completes_witness :
  exists tr' g,
    run float_sum_plain 13 7 100 35 10 default_demands_all default_probs_all []
    = (tr', Ok g) /\
    length (Globals.probabilities g) = length default_probs_all /\
    length (Globals.cum_probs g) = length default_probs_all /\
    Z.of_nat (length (Globals.X_values g)) = 10 /\
    length (Globals.U_values g) = length (Globals.X_values g) /\
    length (Globals.demands_generated g) = length (Globals.X_values g) /\
    (forall x, In x (Globals.X_values g) -> 0 <= x < 100) /\
    (forall u, In u (Globals.U_values g) ->
               PrimFloat.leb 0 u = true /\ PrimFloat.ltb u 1 = true) /\
    (forall d, In d (Globals.demands_generated g) ->
               In d default_demands_all).
Proof.
  apply (run_completes float_sum_plain 13 7 100 35 10 default_demands_all
           default_probs_all []).
  - split; [lia|reflexivity].
  - split; [lia|reflexivity].
  - discriminate.
  - reflexivity.
  - intros d Hin. cbn in Hin.
    repeat (destruct Hin as [<-|Hin]; [reflexivity|]). contradiction.
Defined.



(** ** The uniform values as the results table shows them *)

Lemma ltb_FV_lt (x y : float) : PrimFloat.ltb x y = true -> FV x < FV y.
Proof.
  intros H. pose proof (ltb_leb _ _ H) as L.
  destruct (leb_not_nan _ _ L) as [Nx Ny].
  rewrite ltb_spec in H. unfold SFltb in H.
  rewrite (SFcompare_BV _ _ (Prim2SF_valid x) (Prim2SF_valid y) Nx Ny) in H.
  unfold FV.
  destruct (Z.compare_spec (BV (Prim2SF x)) (BV (Prim2SF y)));
    (discriminate || assumption).
Qed.

Lemma k4_one : k4 (2 ^ 1074) = 10000.
Proof.
  apply k4_near_one. rewrite Z.sub_diag. cbn [Z.abs Z.mul].
  apply Z.pow_pos_nonneg; lia.
Qed.

(** X10: the value [round(u, 4)] shown for a uniform value [u = x / m]
    with [0 <= x < m < 2^53] lies between 0 and 1, both included: with
    [x = 99999] and [m = 100000] the table shows 1.0 for a value that is
    below 1. *)
Theorem displayed_uniform_range (x m : Z) :
  0 <= x < m -> m < 2 ^ 53 ->
  (exists u, int_truediv x m = Ok u /\
             PrimFloat.leb 0 (float_round u 4) = true /\
             PrimFloat.leb (float_round u 4) 1 = true) /\
  (exists u, int_truediv 99999 100000 = Ok u /\
             PrimFloat.ltb u 1 = true /\ float_round u 4 = 1%float).
Proof.
  intros Hx Hm. split.
  2:{ eexists. split; [vm_compute; reflexivity|].
      split; vm_compute; reflexivity. }
  destruct (int_truediv_unit_interval x m Hx Hm) as (u & Hu & H0 & H1).
  exists u. split; [exact Hu|].
  pose proof (leb_zero_fnonneg u H0) as Hn.
  pose proof (ltb_FV_lt u 1 H1) as Hlt.
  change (FV 1) with (BV SFone) in Hlt. rewrite BV_SFone in Hlt.
  assert (H2 : FV u < 2 ^ 1075).
  { apply Z.lt_trans with (1 := Hlt). apply Z.pow_lt_mono_r; lia. }
  assert (Hv0 : 0 <= FV u) by (apply nonneg_BV; [apply Prim2SF_valid|exact Hn]).
  assert (Hk : 0 <= k4 (FV u) <= 10000).
  { split; [now apply k4_nonneg|].
    rewrite <- k4_one. apply k4_mono. now apply Z.lt_le_incl. }
  destruct (float_round4_unit u Hn H2 (proj2 Hk)) as (Hrn & Hrv & _).
  clear Hlt H2.
  assert (Nr : not_nan (Prim2SF (float_round u 4)))
    by now apply nonneg_not_nan.
  rewrite !leb_FV by (exact Nr || discriminate).
  split; apply Z.leb_le.
  - apply nonneg_BV; [apply Prim2SF_valid|exact Hrn].
  - rewrite Hrv. change (FV 1) with (BV SFone). rewrite <- rounded4_top.
    apply rounded4_mono; [apply Hk|apply Hk|apply Z.le_refl].
Qed.

Lemma displayed_uniform_range_witness :
  (exists u, int_truediv 62 100 = Ok u /\
             PrimFloat.leb 0 (float_round u 4) = true /\
             PrimFloat.leb (float_round u 4) 1 = true) /\
  (exists u, int_truediv 99999 100000 = Ok u /\
             PrimFloat.ltb u 1 = true /\ float_round u 4 = 1%float).
Proof.
  apply (displayed_uniform_range 62 100); [lia|reflexivity].
Defined.

(** ** The default inputs *)

Lemma mapM_app {A B : Type} (f : A -> result B) (l1 l2 : list A) :
  mapM f (l1 ++ l2)
  = (ys1 <- mapM f l1 ;; ys2 <- mapM f l2 ;; Ok (ys1 ++ ys2)).
Proof.
  induction l1 as [|x l1 IH]; cbn [app mapM bind].
  - now destruct (mapM f l2).
  - destruct (f x) as [y|e]; [|reflexivity].
    rewrite IH. destruct (mapM f l1) as [ys1|e]; [|reflexivity].
    cbn [bind]. now destruct (mapM f l2).
Qed.

Lemma firstn_succ_nth {A : Type} (l : list A) : forall (n : nat) (x : A),
  nth_error l n = Some x -> firstn (S n) l = firstn n l ++ [x].
Proof.
  induction l as [|a l IH]; intros [|n] x H; try discriminate.
  - cbn in H. now injection H as ->.
  - cbn [firstn app]. f_equal. now apply IH.
Qed.

Lemma mapM_getitem_prefix {A : Type} (l : list A) (n : nat) :
  (n <= length l)%nat ->
  mapM (getitem l) (map (fun k => 0 + Z.of_nat k) (seq 0 n)) = Ok (firstn n l).
Proof.
  induction n as [|n IH]; intros Hn; [reflexivity|].
  rewrite seq_S, map_app, mapM_app, IH by lia. cbn [bind map mapM Nat.add].
  destruct (nth_error l n) as [x|] eqn:E.
  2:{ apply nth_error_None in E. lia. }
  change (0 + Z.of_nat n) with (Z.of_nat n).
  rewrite (getitem_of_nat l n x E).
  now rewrite (firstn_succ_nth l n x E).
Qed.

Lemma widget_values_spec {A : Type} (l : list A) (n : Z) :
  (n <= Z.of_nat (length l) -> widget_values l n = Ok (firstn (Z.to_nat n) l)) /\
  (Z.of_nat (length l) < n -> widget_values l n = Raise IndexError).
Proof.
  unfold widget_values, range. rewrite Z.sub_0_r. split; intros H.
  - apply mapM_getitem_prefix. lia.
  - replace (Z.to_nat n)
      with (length l + S (Z.to_nat n - S (length l)))%nat by lia.
    rewrite seq_app, map_app, mapM_app, mapM_getitem_prefix by lia.
    cbn [bind seq map mapM Nat.add].
    change (0 + Z.of_nat (length l)) with (Z.of_nat (length l)).
    now rewrite getitem_of_nat_out by lia.
Qed.

Lemma slice_to_int_nonneg {A : Type} (l : list A) (k : Z) :
  0 <= k -> slice_to_int l k = firstn (Z.to_nat k) l.
Proof.
  intros H. unfold slice_to_int.
  destruct (Z.ltb_spec k 0); [lia|reflexivity].
Qed.

(** X11: the default lists hold 16 entries before they are cut to
    [num_demands].  For [1 <= num_demands <= 16] (the widget allows 2 to
    10) both have exactly [num_demands] entries, the defaults of the
    script followed by 0, respectively by [round(1 / num_demands, 2)],
    and every widget finds its default.  For a larger count the first
    widget without a default raises [IndexError], and a count of 0
    raises [ZeroDivisionError] in line 39. *)
Theorem default_inputs (num_demands : Z) :
  (1 <= num_demands <= 16 ->
   exists q probs,
     int_truediv 1 num_demands = Ok q /\
     default_probs num_demands = Ok probs /\
     default_demands num_demands
     = firstn (Z.to_nat num_demands) (default_demands_all ++ repeat 0 10) /\
     probs = firstn (Z.to_nat num_demands)
               (default_probs_all ++ repeat (float_round q 2) 10) /\
     Z.of_nat (length (default_demands num_demands)) = num_demands /\
     Z.of_nat (length probs) = num_demands /\
     widget_values (default_demands num_demands) num_demands
     = Ok (default_demands num_demands) /\
     widget_values probs num_demands = Ok probs) /\
  (16 < num_demands ->
   widget_values (default_demands num_demands) num_demands
   = Raise IndexError) /\
  default_probs 0 = Raise ZeroDivisionError.
Proof.
  split; [|split]; [| |reflexivity].
  - intros Hn.
    destruct (int_truediv_small 1 num_demands) as (q & Hq).
    { lia. }
    { apply (lt_pow2_mono _ 1 1000); [reflexivity|lia]. }
    { apply (lt_pow2_mono _ 5 500); [|lia].
      rewrite Z.abs_eq by lia. change (2 ^ 5) with 32. lia. }
    exists q. eexists. split; [exact Hq|].
    unfold default_probs, default_demands. rewrite Hq. cbn [bind].
    rewrite !slice_to_int_nonneg by lia.
    split; [reflexivity|]. split; [reflexivity|]. split; [reflexivity|].
    assert (L1 : length (firstn (Z.to_nat num_demands)
                           (default_demands_all ++ list_mul [0] 10))
                 = Z.to_nat num_demands).
    { rewrite length_firstn. change (length (_ ++ _)) with 16%nat. lia. }
    assert (L2 : length (firstn (Z.to_nat num_demands)
                           (default_probs_all
                            ++ list_mul [float_round q 2] 10))
                 = Z.to_nat num_demands).
    { rewrite length_firstn. change (length (_ ++ _)) with 16%nat. lia. }
    split; [rewrite L1; lia|]. split; [rewrite L2; lia|].
    split.
    + rewrite (proj1 (widget_values_spec _ _)) by (rewrite L1; lia).
      now rewrite firstn_firstn, Nat.min_id.
    + rewrite (proj1 (widget_values_spec _ _)) by (rewrite L2; lia).
      now rewrite firstn_firstn, Nat.min_id.
  - intros Hn. apply widget_values_spec.
    unfold default_demands. rewrite slice_to_int_nonneg by lia.
    rewrite length_firstn. change (length (_ ++ _)) with 16%nat. lia.
Qed.

(** X12: with the default probabilities the normalization block shows
    its warning and rescales for every count from 2 to 10 except 6; for
    6 the defaults sum to 1 and pass unchanged.  This holds for either
    summation. *)
Theorem default_probs_normalization (num_demands : Z) :
  2 <= num_demands <= 10 ->
  exists probs,
    default_probs num_demands = Ok probs /\
    (num_demands = 6 ->
     probs = default_probs_all /\
     normalize float_sum_plain probs [] = ([], Ok probs) /\
     normalize float_sum_compensated probs [] = ([], Ok probs)) /\
    (num_demands <> 6 ->
     PrimFloat.ltb 1e-6 (abs (PrimFloat.sub (float_sum_plain probs) 1))
     = true /\
     normalize float_sum_plain probs []
     = ([EvWarning (float_sum_plain probs)],
        Ok (map (fun p => PrimFloat.div p (float_sum_plain probs)) probs)) /\
     normalize float_sum_compensated probs []
     = ([EvWarning (float_sum_compensated probs)],
        Ok (map (fun p => PrimFloat.div p (float_sum_compensated probs))
              probs))).
Proof.
  intros Hn.
  assert (H : num_demands = 2 \/ num_demands = 3 \/ num_demands = 4 \/
              num_demands = 5 \/ num_demands = 6 \/ num_demands = 7 \/
              num_demands = 8 \/ num_demands = 9 \/ num_demands = 10) by lia.
  clear Hn.
  repeat (destruct H as [->|H]); try subst num_demands;
    (eexists; split; [vm_compute; reflexivity|];
     split; intros E; try (exfalso; lia);
     repeat (split; [vm_compute; reflexivity|]); vm_compute; reflexivity).
Qed.

Lemma default_probs_normalization_witness :
  exists probs,
    default_probs 4 = Ok probs /\
    (4 = 6 ->
     probs = default_probs_all /\
     normalize float_sum_plain probs [] = ([], Ok probs) /\
     normalize float_sum_compensated probs [] = ([], Ok probs)) /\
    (4 <> 6 ->
     PrimFloat.ltb 1e-6 (abs (PrimFloat.sub (float_sum_plain probs) 1))
     = true /\
     normalize float_sum_plain probs []
     = ([EvWarning (float_sum_plain probs)],
        Ok (map (fun p => PrimFloat.div p (float_sum_plain probs)) probs)) /\
     normalize float_sum_compensated probs []
     = ([EvWarning (float_sum_compensated probs)],
        Ok (map (fun p => PrimFloat.div p (float_sum_compensated probs))
              probs))).
Proof. apply (default_probs_normalization 4). lia. Defined.

(** X13: on a non-decreasing table the scan is an interval test: a value
    [u] with [cum_probs[i-1] < u <= cum_probs[i]] (only [u <= cum_probs[0]]
    for [i = 0]) is mapped to [demands[i]]; the thresholds before
    [i - 1] need not be looked at. *)
Theorem map_to_demand_bucket (u : float) (demands : list Z)
    (cum_probs : list float) (i : nat) (cp : float) (d : Z) :
  (forall j k x y, (j <= k)%nat ->
     nth_error cum_probs j = Some x -> nth_error cum_probs k = Some y ->
     PrimFloat.leb x y = true) ->
  nth_error cum_probs i = Some cp ->
  PrimFloat.leb u cp = true ->
  (i = 0%nat \/
   exists cp', nth_error cum_probs (i - 1) = Some cp' /\
               PrimFloat.leb u cp' = false) ->
  nth_error demands i = Some d ->
  first_index PrimFloat.leb u cum_probs i /\
  map_to_demand PrimFloat.leb u demands cum_probs = Ok d.
Proof.
  intros Hsorted Hcp Hle Hprev Hd.
  assert (Hbefore : forall j cp', (j < i)%nat ->
            nth_error cum_probs j = Some cp' -> PrimFloat.leb u cp' = false).
  { intros j cpj Hj Hcpj.
    destruct Hprev as [->|(cp' & Hcp' & Hgt)]; [lia|].
    destruct (PrimFloat.leb u cpj) eqn:E; [|reflexivity].
    pose proof (Hsorted j (i - 1)%nat cpj cp' ltac:(lia) Hcpj Hcp') as Hjk.
    rewrite (float_leb_trans _ _ _ E Hjk) in Hgt. discriminate. }
  split.
  - split; [now exists cp|exact Hbefore].
  - unfold map_to_demand.
    rewrite (map_scan_hit _ _ _ _ 0 i cp Hcp Hle Hbefore).
    now apply getitem_of_nat.
Qed.

Lemma map_to_demand_bucket_witness :
  first_index PrimFloat.leb 0.62%float
    [0.01; 0.21; 0.36; 0.86; 0.98; 1.0]%float 3 /\
  map_to_demand PrimFloat.leb 0.62%float default_demands_all
    [0.01; 0.21; 0.36; 0.86; 0.98; 1.0]%float = Ok 30.
Proof.
  apply (map_to_demand_bucket 0.62%float default_demands_all
           [0.01; 0.21; 0.36; 0.86; 0.98; 1.0]%float 3 0.86%float 30).
  - intros j k x y Hjk Hx Hy.
    do 6 (destruct j as [|j]; [
      do 6 (destruct k as [|k]; [
        cbn in Hx, Hy; injection Hx as <-; injection Hy as <-;
        (reflexivity || lia)|]);
      destruct k; discriminate|]).
    destruct j; discriminate.
  - reflexivity.
  - reflexivity.
  - right. exists 0.36%float. split; reflexivity.
  - reflexivity.
Defined.
